(** * Credential lifecycle and resilient connection: a shallow embedding

  The development follows three source units of the repository:
  - [lib/auth/security-middleware.ts]  (module [Security]),
  - the ephemeral token manager        (module [TokenManager]),
  - the enhanced live client           (module [LiveClient]).
  Their properties are in [SecurityFacts], [TokenFacts] and [ClientFacts].

  The rest of the three units is in [SecurityAdmin], [TokenAdmin] and
  [ClientAdmin], and [lib/auth/token-storage.ts] is in [TokenCache]; the
  properties of these are in [SecurityCoverage], [TokenCoverage],
  [ClientCoverage] and [CacheCoverage].

  Time is the JavaScript millisecond clock ([Date.now()], [Date.getTime()])
  and is represented by [Z]; JavaScript maps and sets are [gmap] and [gset];
  a mutation of an object stored in a [Map] is an [insert] at its key. *)

From Stdlib Require Import ZArith Lia Ascii String List.
From stdpp Require Import base gmap strings list sorting.

Open Scope Z_scope.

(** ** JavaScript helpers shared by the units *)

Module Js.

(** [Math.ceil (x / d)] for an integral [x] and a positive divisor. *)
Definition ceil_div (x d : Z) : Z := - ((- x) / d).

(** [s.includes (needle)]. *)
Fixpoint includes (needle s : string) : bool :=
  String.prefix needle s ||
  match s with
  | EmptyString => false
  | String _ rest => includes needle rest
  end.

(** [s.startsWith (p)]. *)
Definition startsWith (p s : string) : bool := String.prefix p s.

(** [s.split (',')[0]]: the text before the first comma. *)
Fixpoint before_comma (s : string) : string :=
  match s with
  | EmptyString => EmptyString
  | String c rest =>
      if Ascii.eqb c ","%char then EmptyString else String c (before_comma rest)
  end.

(** Truthiness of a possibly missing string: [null] and [''] are falsy. *)
Definition truthy (o : option string) : bool :=
  match o with
  | Some s => negb (String.eqb s "")
  | None => false
  end.

(** [a || b] on possibly missing strings. *)
Definition or_else (a b : option string) : option string :=
  if truthy a then a else b.

(** [ToInt32]: wrap an integer into the signed 32-bit range. *)
Definition to_int32 (z : Z) : Z := (z + 2 ^ 31) mod 2 ^ 32 - 2 ^ 31.

(** One round of the string hash used for client and token identifiers:
    [hash = ((hash << 5) - hash) + char; hash = hash & hash]. *)
Definition hash_step (hash : Z) (c : ascii) : Z :=
  to_int32 (to_int32 (Z.shiftl hash 5) - hash + Z.of_nat (nat_of_ascii c)).

Fixpoint hash_from (hash : Z) (s : string) : Z :=
  match s with
  | EmptyString => hash
  | String c rest => hash_from (hash_step hash c) rest
  end.

Definition digit36 (d : Z) : ascii :=
  if d <? 10 then ascii_of_nat (Z.to_nat (48 + d))
  else ascii_of_nat (Z.to_nat (87 + d)).

(** [n.toString (36)] for [0 <= n <= 2^31]; seven digits always suffice. *)
Fixpoint base36_digits (fuel : nat) (n : Z) (acc : string) : string :=
  match fuel with
  | O => acc
  | S fuel' =>
      let acc' := String (digit36 (n mod 36)) acc in
      if n / 36 =? 0 then acc' else base36_digits fuel' (n / 36) acc'
  end.

Definition toString36 (n : Z) : string := base36_digits 7 n EmptyString.

(** [Math.abs (hash).toString (36)] of the 32-bit string hash. *)
Definition hash36 (s : string) : string := toString36 (Z.abs (hash_from 0 s)).

(** [parseInt (s)] without a radix: leading white space, an optional sign,
    an optional [0x] prefix, then the longest run of digits; [None] is
    [NaN]. *)
Definition is_space (c : ascii) : bool :=
  let n := nat_of_ascii c in
  (Nat.eqb n 32 || (Nat.leb 9 n && Nat.leb n 13))%bool.

Fixpoint skip_spaces (s : string) : string :=
  match s with
  | String c rest => if is_space c then skip_spaces rest else s
  | EmptyString => s
  end.

Definition digit_val (radix : Z) (c : ascii) : option Z :=
  let n := Z.of_nat (nat_of_ascii c) in
  let d := if (48 <=? n) && (n <=? 57) then n - 48
           else if (97 <=? n) && (n <=? 122) then n - 87
           else if (65 <=? n) && (n <=? 90) then n - 55
           else radix in
  if d <? radix then Some d else None.

Fixpoint digits (radix : Z) (s : string) (acc : Z) (seen : bool) : option Z :=
  match s with
  | String c rest =>
      match digit_val radix c with
      | Some d => digits radix rest (acc * radix + d) true
      | None => if seen then Some acc else None
      end
  | EmptyString => if seen then Some acc else None
  end.

Definition parseInt (s : string) : option Z :=
  let s := skip_spaces s in
  let '(sign, s) :=
    match s with
    | String "-" rest => (-1, rest)
    | String "+" rest => (1, rest)
    | _ => (1, s)
    end in
  let '(radix, s) :=
    match s with
    | String "0" (String "x" rest) => (16, rest)
    | String "0" (String "X" rest) => (16, rest)
    | _ => (10, s)
    end in
  (fun n => sign * n) <$> digits radix s 0 false.

End Js.

(** ** The security middleware *)

Module Security.

Record RateLimitConfig := {
  windowMs : Z;
  maxRequests : Z
}.

Record SecurityConfig := {
  enableRateLimit : bool;
  rateLimitConfig : RateLimitConfig;
  enableRequestValidation : bool;
  enableAuditLogging : bool;
  allowedOrigins : option (list string);
  requireHttps : bool;
  maxRequestSizeBytes : option Z
}.

Record RateLimitEntry := {
  count : Z;
  windowStart : Z;
  blocked : bool;
  lastReset : Z
}.

Record RateLimitResult := {
  allowed : bool;
  remaining : Z;
  resetTime : Z;
  retryAfter : Z
}.

(** A request: its URL, its method and its headers (header names are
    lower-case, as the Fetch [Headers] object normalises them). *)
Record Request := {
  url : string;
  method : string;
  headers : gmap string string
}.

Definition header (r : Request) (name : string) : option string :=
  headers r !! name.

Inductive Validation :=
| Valid
| Invalid (reason : string) (statusCode : Z).

(** The defaults of the constructor, [NODE_ENV] given. *)
Definition defaultConfig (node_env : option string) : SecurityConfig := {|
  enableRateLimit := true;
  rateLimitConfig := {| windowMs := 60 * 60 * 1000; maxRequests := 10 |};
  enableRequestValidation := true;
  enableAuditLogging := true;
  allowedOrigins :=
    Some ["http://localhost:3000"; "https://localhost:3000";
          "http://localhost:3001"; "https://localhost:3001"]%string;
  requireHttps := bool_decide (node_env = Some "production"%string);
  maxRequestSizeBytes := Some (1024 * 10)
|}.

(** *** [checkRateLimit] *)

Definition checkRateLimit (cfg : RateLimitConfig) (now : Z) (clientId : string)
    (store : gmap string RateLimitEntry)
  : RateLimitResult * gmap string RateLimitEntry :=
  match store !! clientId with
  | None =>
      ({| allowed := true;
          remaining := maxRequests cfg - 1;
          resetTime := Js.ceil_div (now + windowMs cfg) 1000;
          retryAfter := 0 |},
       <[clientId := {| count := 1; windowStart := now;
                        blocked := false; lastReset := now |}]> store)
  | Some entry =>
      if windowMs cfg <=? now - windowStart entry then
        ({| allowed := true;
            remaining := maxRequests cfg - 1;
            resetTime := Js.ceil_div (now + windowMs cfg) 1000;
            retryAfter := 0 |},
         <[clientId := {| count := 1; windowStart := now;
                          blocked := false; lastReset := now |}]> store)
      else if maxRequests cfg <=? count entry then
        let reset := windowStart entry + windowMs cfg in
        ({| allowed := false;
            remaining := 0;
            resetTime := Js.ceil_div reset 1000;
            retryAfter := Js.ceil_div (reset - now) 1000 |},
         <[clientId := {| count := count entry; windowStart := windowStart entry;
                          blocked := true; lastReset := lastReset entry |}]> store)
      else
        ({| allowed := true;
            remaining := maxRequests cfg - (count entry + 1);
            resetTime := Js.ceil_div (windowStart entry + windowMs cfg) 1000;
            retryAfter := 0 |},
         <[clientId := {| count := count entry + 1; windowStart := windowStart entry;
                          blocked := blocked entry; lastReset := lastReset entry |}]> store)
  end.

(** The entry written by a call that starts a window. *)
Definition fresh (now : Z) : RateLimitEntry :=
  {| count := 1; windowStart := now; blocked := false; lastReset := now |}.

(** A call at [now] starts a window for [k]: no entry yet, or the
    recorded window has elapsed. *)
Definition opens_window (cfg : RateLimitConfig) (k : string)
    (store : gmap string RateLimitEntry) (now : Z) : Prop :=
  match store !! k with
  | None => True
  | Some e => windowMs cfg <= now - windowStart e
  end.

(** The default limits: ten requests an hour. *)
Definition hourly : RateLimitConfig := rateLimitConfig (defaultConfig None).

(** Successive calls of one client at the given instants; the results are
    listed in call order. *)
Fixpoint checkAll (cfg : RateLimitConfig) (clientId : string) (times : list Z)
    (store : gmap string RateLimitEntry)
  : list RateLimitResult * gmap string RateLimitEntry :=
  match times with
  | [] => ([], store)
  | now :: rest =>
      let '(r, store1) := checkRateLimit cfg now clientId store in
      let '(rs, store2) := checkAll cfg clientId rest store1 in
      (r :: rs, store2)
  end.

(** The periodic sweep of the rate-limit store. *)
Definition cleanup (cfg : RateLimitConfig) (now : Z)
    (store : gmap string RateLimitEntry) : gmap string RateLimitEntry :=
  filter (fun kv => negb (windowMs cfg * 2 <? now - windowStart kv.2) = true) store.

(** *** [validateRequest] *)

Definition validateRequest (cfg : SecurityConfig) (request : Request) : Validation :=
  if negb (enableRequestValidation cfg) then Valid
  else if requireHttps cfg
          && negb (Js.startsWith "https://" (url request))
          && negb (Js.includes "localhost" (url request))
  then Invalid "HTTPS required" 403
  else if match allowedOrigins cfg with
          | Some origins =>
              (0 <? Z.of_nat (length origins))
              && match header request "origin" with
                 | Some origin =>
                     negb (String.eqb origin "")
                     && negb (bool_decide (origin ∈ origins))
                 | None => false
                 end
          | None => false
          end
  then Invalid "Invalid origin" 403
  else if match header request "content-length", maxRequestSizeBytes cfg with
          | Some contentLength, Some maxSize =>
              negb (String.eqb contentLength "") && negb (maxSize =? 0)
              && match Js.parseInt contentLength with
                 | Some size => maxSize <? size
                 | None => false
                 end
          | _, _ => false
          end
  then Invalid "Request too large" 413
  else if negb (bool_decide (method request ∈ ["GET"; "POST"]%string))
  then Invalid "Method not allowed" 405
  else if String.eqb (method request) "POST"
          && match header request "content-type" with
             | Some contentType =>
                 negb (String.eqb contentType "")
                 && negb (Js.includes "application/json" contentType)
             | None => false
             end
  then Invalid "Invalid content type" 415
  else Valid.

(** The same configuration with no allow-list of origins. *)
Definition withoutAllowList (cfg : SecurityConfig) : SecurityConfig :=
  {| enableRateLimit := enableRateLimit cfg;
     rateLimitConfig := rateLimitConfig cfg;
     enableRequestValidation := enableRequestValidation cfg;
     enableAuditLogging := enableAuditLogging cfg;
     allowedOrigins := None;
     requireHttps := requireHttps cfg;
     maxRequestSizeBytes := maxRequestSizeBytes cfg |}.

(** A request of a command-line client: no [Origin] header. *)
Definition curl_request : Request :=
  {| url := "https://tokens.example.org/api/auth/ephemeral-token";
     method := "POST";
     headers := {[ "content-type" := "application/json";
                   "x-forwarded-for" := "203.0.113.7" ]}%string |}.

(** *** Client identifiers *)

Definition simpleHash (str : string) : string := Js.hash36 str.

Definition getClientIdentifier (request : Request) : string :=
  let ip :=
    Js.or_else (Js.before_comma <$> header request "x-forwarded-for")
      (Js.or_else (header request "x-real-ip")
         (Js.or_else (header request "x-forwarded-proto") (Some "unknown"%string))) in
  let userAgent := Js.or_else (header request "user-agent") (Some "unknown"%string) in
  (default "unknown" ip ++ "_" ++ simpleHash (default "unknown" userAgent))%string.

(** *** Audit log *)

(** The request path and the free-form metadata of an entry are left out:
    no operation reads them back. *)
Record AuditLogEntry := {
  timestamp : Z;
  event : string;
  clientId : string;
  ip : string;
  userAgent : option string;
  success : bool;
  error : option string
}.

Record State := {
  rateLimitStore : gmap string RateLimitEntry;
  auditLogEntries : list AuditLogEntry
}.

Definition auditLog (cfg : SecurityConfig) (now : Z) (event clientId : string)
    (request : Request) (success : bool) (error : option string) (st : State) : State :=
  if negb (enableAuditLogging cfg) then st
  else
    let entry := {|
      timestamp := now;
      event := event;
      clientId := clientId;
      ip := default "unknown"%string
              (Js.or_else (Js.before_comma <$> header request "x-forwarded-for")
                 (Js.or_else (header request "x-real-ip") (Some "unknown"%string)));
      userAgent := Js.or_else (header request "user-agent") None;
      success := success;
      error := error |} in
    let entries := auditLogEntries st ++ [entry] in
    {| rateLimitStore := rateLimitStore st;
       auditLogEntries := drop (length entries - 1000)%nat entries |}.

(** *** [secureEndpoint] *)

(** What [catch (error)] catches: an [Error] with its [message], or any
    other value with what [String (error)] makes of it. *)
Inductive Thrown :=
| ErrorObject (message : string)
| OtherValue (asString : string).

(** [error instanceof Error ? error.message : String (error)]. *)
Definition errorText (e : Thrown) : string :=
  match e with
  | ErrorObject message => message
  | OtherValue asString => asString
  end.

(** The object handed to [NextResponse.json].  [details] of the 500 is the
    caught value itself, not its message: serialised, an [Error] without
    enumerable properties of its own comes out as [{}]. *)
Inductive Body :=
| ErrorBody (error : string)
| RateLimitBody (error : string) (retryAfter : Z)
| InternalErrorBody (details : option Thrown)
| PayloadBody (payload : string).

Record Response := {
  status : Z;
  body : Body;
  responseHeaders : list (string * Z)
}.

(** The wrapped handler either resolves with a response or rejects. *)
Inductive HandlerOutcome :=
| Returns (response : Response)
| Throws (error : Thrown).

Definition development (node_env : option string) : bool :=
  bool_decide (node_env = Some "development"%string).

Definition secureEndpoint (node_env : option string) (cfg : SecurityConfig)
    (now : Z) (request : Request) (handler : Request -> HandlerOutcome)
    (st : State) : Response * State :=
  let clientId := getClientIdentifier request in
  match validateRequest cfg request with
  | Invalid reason statusCode =>
      ({| status := if statusCode =? 0 then 400 else statusCode;
          body := ErrorBody reason;
          responseHeaders := [] |},
       auditLog cfg now "SECURITY_VIOLATION" clientId request false (Some reason) st)
  | Valid =>
      let run (st : State) :=
        match handler request with
        | Returns response =>
            (response,
             auditLog cfg now "API_REQUEST_SUCCESS" clientId request true None st)
        | Throws error =>
            ({| status := 500;
                body := InternalErrorBody
                          (if development node_env then Some error else None);
                responseHeaders := [] |},
             auditLog cfg now "API_REQUEST_ERROR" clientId request false
               (Some (errorText error)) st)
        end in
      if negb (development node_env) && enableRateLimit cfg then
        let '(rateLimitResult, store) :=
          checkRateLimit (rateLimitConfig cfg) now clientId (rateLimitStore st) in
        let st1 := {| rateLimitStore := store; auditLogEntries := auditLogEntries st |} in
        if negb (allowed rateLimitResult) then
          ({| status := 429;
              body := RateLimitBody "Too many requests" (retryAfter rateLimitResult);
              responseHeaders :=
                [("Retry-After", retryAfter rateLimitResult);
                 ("X-RateLimit-Limit", maxRequests (rateLimitConfig cfg));
                 ("X-RateLimit-Remaining", 0);
                 ("X-RateLimit-Reset", resetTime rateLimitResult)]%string |},
           auditLog cfg now "RATE_LIMIT_EXCEEDED" clientId request false
             (Some "Too many requests"%string) st1)
        else run st1
      else run st
  end.

(** What an observer sees when [secureEndpoint] went through its rate-limit
    branch: the store of windows was written, or a 429 came back that the
    wrapped handler did not produce. *)
Definition rate_limit_observed (request : Request)
    (handler : Request -> HandlerOutcome) (st : State) (out : Response * State) : Prop :=
  rateLimitStore out.2 <> rateLimitStore st
  \/ (status out.1 = 429 /\ handler request <> Returns out.1).

(** An eleventh request of the same client in production is refused. *)
Definition throttled : State :=
  {| rateLimitStore :=
       {[ getClientIdentifier curl_request :=
            {| count := 10; windowStart := 0; blocked := false; lastReset := 0 |} ]};
     auditLogEntries := [] |}.

Definition ok_handler (_ : Request) : HandlerOutcome :=
  Returns {| status := 200; body := PayloadBody "{}"; responseHeaders := [] |}.

(** A client issuing requests one after the other. *)
Record Call := {
  at_time : Z;
  request_of : Request;
  handler_of : Request -> HandlerOutcome
}.

Fixpoint secureAll (node_env : option string) (cfg : SecurityConfig)
    (calls : list Call) (st : State) : list Response * State :=
  match calls with
  | [] => ([], st)
  | c :: rest =>
      let '(r, st1) :=
        secureEndpoint node_env cfg (at_time c) (request_of c) (handler_of c) st in
      let '(rs, st2) := secureAll node_env cfg rest st1 in
      (r :: rs, st2)
  end.

End Security.

(** ** The ephemeral token manager *)

Module TokenManager.

(** The bearer string is the field [token] of the source; it is called
    [tokenString] here (the name [validateAndUseToken] gives it) because
    the storage entry has a field [token] too. *)
Record EphemeralToken := {
  tokenString : string;
  expiresAt : Z;
  usesRemaining : Z;
  sessionId : string;
  scope : list string;
  createdAt : Z;
  lastUsed : option Z
}.

Record TokenStorageEntry := {
  token : EphemeralToken;
  refreshCount : Z;
  issuedFor : string
}.

Record CreateTokenOptions := {
  uses : option Z;
  expirationMinutes : option Z;
  sessionIdOption : option string;
  scopeOption : option (list string)
}.

Record TokenManagerConfig := {
  maxTokensPerSession : Z;
  defaultExpirationMinutes : Z;
  defaultUses : Z;
  cleanupIntervalMinutes : Z;
  enableAuditLog : bool
}.

Definition defaultConfig : TokenManagerConfig := {|
  maxTokensPerSession := 3;
  defaultExpirationMinutes := 30;
  defaultUses := 1;
  cleanupIntervalMinutes := 5;
  enableAuditLog := true
|}.

(** [tokenStorage] and [sessionTokens]; the audit log of the manager only
    writes to the console and is not part of the state. *)
Record State := {
  tokenStorage : gmap string TokenStorageEntry;
  sessionTokens : gmap string (gset string)
}.

Definition initial : State := {| tokenStorage := ∅; sessionTokens := ∅ |}.

Inductive Error :=
| UsesOutOfRange
| ExpirationOutOfRange
| SessionLimitReached (limit : Z)
| CreationFailed.

Definition generateTokenId (tokenString : string) : string :=
  ("token_" ++ Js.hash36 tokenString)%string.

(** [token.expiresAt > new Date() && token.usesRemaining > 0]. *)
Definition isActive (now : Z) (t : EphemeralToken) : bool :=
  (now <? expiresAt t) && (0 <? usesRemaining t).

Definition setUsage (t : EphemeralToken) (n : Z) (now : Z) : EphemeralToken :=
  {| tokenString := tokenString t; expiresAt := expiresAt t; usesRemaining := n;
     sessionId := sessionId t; scope := scope t; createdAt := createdAt t;
     lastUsed := Some now |}.

Definition setToken (e : TokenStorageEntry) (t : EphemeralToken) : TokenStorageEntry :=
  {| token := t; refreshCount := refreshCount e; issuedFor := issuedFor e |}.

Definition sessionTokenIds (sid : string) (st : State) : gset string :=
  default ∅ (sessionTokens st !! sid).

(** The identifiers of a session whose stored entry is currently valid:
    the [filter] of [enforceSessionTokenLimit] and the loop of
    [getSessionStatus]. *)
Definition isActiveId (now : Z) (st : State) (id : string) : bool :=
  match tokenStorage st !! id with
  | Some e => isActive now (token e)
  | None => false
  end.

Definition activeTokenIds (now : Z) (sid : string) (st : State) : gset string :=
  filter (fun id => isActiveId now st id = true) (sessionTokenIds sid st).

Definition activeTokens (now : Z) (sid : string) (st : State) : Z :=
  Z.of_nat (size (activeTokenIds now sid st)).

Definition validateTokenParams (uses expirationMinutes : Z) : option Error :=
  if (uses <? 1) || (5 <? uses) then Some UsesOutOfRange
  else if (expirationMinutes <? 1) || (30 <? expirationMinutes)
  then Some ExpirationOutOfRange
  else None.

Definition enforceSessionTokenLimit (cfg : TokenManagerConfig) (now : Z)
    (sid : string) (st : State) : option Error :=
  if maxTokensPerSession cfg <=? activeTokens now sid st
  then Some (SessionLimitReached (maxTokensPerSession cfg))
  else None.

Definition addTokenToSession (sid tokenId : string) (st : State) : State :=
  {| tokenStorage := tokenStorage st;
     sessionTokens := <[sid := {[tokenId]} ∪ sessionTokenIds sid st]> (sessionTokens st) |}.

Definition removeTokenFromSession (sid tokenId : string)
    (sessions : gmap string (gset string)) : gmap string (gset string) :=
  match sessions !! sid with
  | Some ids =>
      let ids' := ids ∖ {[tokenId]} in
      if decide (size ids' = 0%nat) then delete sid sessions
      else <[sid := ids']> sessions
  | None => sessions
  end.

(** *** [createToken]

    The call runs up to [await this.genai.authTokens.create (...)], is
    suspended there, and goes on when the issuer has answered.  The two
    halves are [createToken_begin] and [createToken_finish]; what the
    suspended call keeps in its local variables is a [Pending]. *)
Record Pending := {
  p_uses : Z;
  p_sessionId : string;
  p_scope : list string;
  p_expiration : Z;
  p_clientId : string
}.

(** [freshSessionId] is what [generateSessionId ()] would return. *)
Definition createToken_begin (cfg : TokenManagerConfig) (now : Z)
    (freshSessionId : string) (options : CreateTokenOptions) (clientId : string)
    (st : State) : Error + Pending :=
  let uses := default (defaultUses cfg) (uses options) in
  let expirationMinutes :=
    default (defaultExpirationMinutes cfg) (expirationMinutes options) in
  let sid := default freshSessionId (sessionIdOption options) in
  let scope := default ["gemini-live-api"%string] (scopeOption options) in
  match validateTokenParams uses expirationMinutes with
  | Some err => inl err
  | None =>
      match enforceSessionTokenLimit cfg now sid st with
      | Some err => inl err
      | None =>
          inr {| p_uses := uses; p_sessionId := sid; p_scope := scope;
                 p_expiration := now + expirationMinutes * 60 * 1000;
                 p_clientId := clientId |}
      end
  end.

(** [issued] is the [name] of the token the issuer answered with, or
    [None] when the call was rejected. *)
Definition createToken_finish (now : Z) (p : Pending) (issued : option string)
    (st : State) : (Error + EphemeralToken) * State :=
  match issued with
  | None => (inl CreationFailed, st)
  | Some name =>
      let t := {| tokenString := name; expiresAt := p_expiration p;
                  usesRemaining := p_uses p; sessionId := p_sessionId p;
                  scope := p_scope p; createdAt := now; lastUsed := None |} in
      let tokenId := generateTokenId name in
      let entry := {| token := t; refreshCount := 0; issuedFor := p_clientId p |} in
      (inr t,
       addTokenToSession (p_sessionId p) tokenId
         {| tokenStorage := <[tokenId := entry]> (tokenStorage st);
            sessionTokens := sessionTokens st |})
  end.

(** A call that nothing interleaves with. *)
Definition createToken (cfg : TokenManagerConfig) (now : Z) (freshSessionId : string)
    (options : CreateTokenOptions) (clientId : string) (issued : option string)
    (st : State) : (Error + EphemeralToken) * State :=
  match createToken_begin cfg now freshSessionId options clientId st with
  | inl err => (inl err, st)
  | inr p => createToken_finish now p issued st
  end.

(** *** [refreshToken] and [revokeSession] *)

(** [entry.token.usesRemaining = 0; entry.token.lastUsed = new Date ()] for
    every identifier of the session that has an entry. *)
Definition exhaustAll (now : Z) (ids : gset string)
    (storage : gmap string TokenStorageEntry) : gmap string TokenStorageEntry :=
  map_imap (fun id e =>
              Some (if decide (id ∈ ids) then setToken e (setUsage (token e) 0 now)
                    else e)) storage.

Definition revokeSession (now : Z) (sid : string) (st : State) : Z * State :=
  let ids := sessionTokenIds sid st in
  (Z.of_nat (size (filter (fun id => is_Some (tokenStorage st !! id)) ids)),
   {| tokenStorage := exhaustAll now ids (tokenStorage st);
      sessionTokens := sessionTokens st |}).

(** [refreshToken] is suspended where [createToken] is, at the await of
    the issuer, and once more where [createToken] hands the token back.  It
    runs in three steps: [refreshToken_begin] uses up the tokens of the
    session and runs [createToken] up to its await; [createToken_finish]
    stores the token when the issuer has answered; [refreshToken_end] marks
    the stored entry.  Other calls can run between the steps. *)
Definition refreshToken_begin (cfg : TokenManagerConfig) (now : Z) (sid : string)
    (options : CreateTokenOptions) (clientId : string) (st : State)
  : (Error + Pending) * State :=
  let st1 := {| tokenStorage := exhaustAll now (sessionTokenIds sid st) (tokenStorage st);
                sessionTokens := sessionTokens st |} in
  let options' := {| uses := uses options;
                     expirationMinutes := expirationMinutes options;
                     sessionIdOption := Some sid;
                     scopeOption := scopeOption options |} in
  (createToken_begin cfg now sid options' clientId st1, st1).

(** [entry.refreshCount = 1] for the entry found at the identifier of the
    new token, if there is one. *)
Definition refreshToken_end (newToken : EphemeralToken) (st : State) : State :=
  let tokenId := generateTokenId (tokenString newToken) in
  {| tokenStorage :=
       match tokenStorage st !! tokenId with
       | Some e =>
           <[tokenId := {| token := token e; refreshCount := 1;
                           issuedFor := issuedFor e |}]> (tokenStorage st)
       | None => tokenStorage st
       end;
     sessionTokens := sessionTokens st |}.

(** A call that nothing interleaves with: the three steps in a row. *)
Definition refreshToken (cfg : TokenManagerConfig) (now : Z) (sid : string)
    (options : CreateTokenOptions) (clientId : string) (issued : option string)
    (st : State) : (Error + EphemeralToken) * State :=
  match refreshToken_begin cfg now sid options clientId st with
  | (inl err, st1) => (inl err, st1)
  | (inr p, st1) =>
      match createToken_finish now p issued st1 with
      | (inl err, st2) => (inl err, st2)
      | (inr newToken, st2) => (inr newToken, refreshToken_end newToken st2)
      end
  end.

(** *** [validateAndUseToken] *)

Inductive Validation :=
| ValidToken (t : EphemeralToken)
| InvalidToken (reason : string).

Definition validateAndUseToken (now : Z) (tokenString : string) (st : State)
  : Validation * State :=
  let tokenId := generateTokenId tokenString in
  match tokenStorage st !! tokenId with
  | None => (InvalidToken "Token not found", st)
  | Some entry =>
      let t := token entry in
      if expiresAt t <? now then (InvalidToken "Token expired", st)
      else if usesRemaining t <=? 0 then (InvalidToken "Token usage exhausted", st)
      else
        let t' := setUsage t (usesRemaining t - 1) now in
        (ValidToken t',
         {| tokenStorage := <[tokenId := setToken entry t']> (tokenStorage st);
            sessionTokens := sessionTokens st |})
  end.

(** *** [cleanup] *)

Definition timeSinceLastUse (now : Z) (t : EphemeralToken) : Z :=
  match lastUsed t with
  | Some used => now - used
  | None => now - createdAt t
  end.

Definition isExpired (now : Z) (t : EphemeralToken) : bool := expiresAt t <? now.

Definition isExhausted (t : EphemeralToken) : bool := usesRemaining t <=? 0.

Definition shouldCleanup (now : Z) (t : EphemeralToken) : bool :=
  (isExpired now t || isExhausted t) && (5 * 60 * 1000 <? timeSinceLastUse now t).

Record CleanupResult := { cleaned : Z; remainingTokens : Z }.

Definition cleanup (now : Z) (st : State) : CleanupResult * State :=
  let doomed := filter (fun kv => shouldCleanup now (token kv.2) = true) (tokenStorage st) in
  let kept := filter (fun kv => shouldCleanup now (token kv.2) <> true) (tokenStorage st) in
  ({| cleaned := Z.of_nat (size doomed); remainingTokens := Z.of_nat (size kept) |},
   {| tokenStorage := kept;
      sessionTokens :=
        map_fold (fun tokenId e sessions =>
                    removeTokenFromSession (sessionId (token e)) tokenId sessions)
          (sessionTokens st) doomed |}).

(** *** [getSessionStatus] *)

Record SessionStatus := {
  status_sessionId : string;
  status_activeTokens : Z;
  status_totalTokens : Z;
  status_lastActivity : option Z
}.

Definition later (a b : option Z) : option Z :=
  match a, b with
  | Some x, Some y => Some (Z.max x y)
  | Some x, None => Some x
  | None, b => b
  end.

Definition getSessionStatus (now : Z) (sid : string) (st : State) : SessionStatus :=
  let ids := sessionTokenIds sid st in
  {| status_sessionId := sid;
     status_activeTokens := activeTokens now sid st;
     status_totalTokens := Z.of_nat (size ids);
     status_lastActivity :=
       set_fold (fun id acc =>
                   match tokenStorage st !! id with
                   | Some e => later acc (lastUsed (token e))
                   | None => acc
                   end) None ids |}.

(** *** The operations of the manager, one at a time *)

Inductive Operation :=
| Create (now : Z) (freshSessionId : string) (options : CreateTokenOptions)
         (clientId : string) (issued : option string)
| Refresh (now : Z) (sid : string) (options : CreateTokenOptions)
          (clientId : string) (issued : option string)
| Validate (now : Z) (tokenString : string)
| Revoke (now : Z) (sid : string)
| Cleanup (now : Z).

Definition run (cfg : TokenManagerConfig) (op : Operation) (st : State) : State :=
  match op with
  | Create now fresh options clientId issued =>
      (createToken cfg now fresh options clientId issued st).2
  | Refresh now sid options clientId issued =>
      (refreshToken cfg now sid options clientId issued st).2
  | Validate now tokenString => (validateAndUseToken now tokenString st).2
  | Revoke now sid => (revokeSession now sid st).2
  | Cleanup now => (cleanup now st).2
  end.

(** The name of the credential an operation asks the issuer for, if any. *)
Definition issuedBy (op : Operation) : option string :=
  match op with
  | Create _ _ _ _ issued | Refresh _ _ _ _ issued => issued
  | _ => None
  end.

Definition isValidate (op : Operation) : bool :=
  match op with Validate _ _ => true | _ => false end.

(** The sweep rule with the grace period read as "at least five minutes". *)
Definition sweeps_from_five_minutes (now : Z) (st : State) : Prop :=
  forall id e,
    tokenStorage st !! id = Some e ->
    (tokenStorage (cleanup now st).2 !! id = None
     <-> (isExpired now (token e) = true \/ isExhausted (token e) = true)
         /\ 5 * 60 * 1000 <= timeSinceLastUse now (token e)).

(** *** The quota, one operation at a time *)

Definition within_quota (cfg : TokenManagerConfig) (now : Z) (st : State) : Prop :=
  forall sid, activeTokens now sid st <= maxTokensPerSession cfg.

Definition time_of (op : Operation) : Z :=
  match op with
  | Create now _ _ _ _ | Refresh now _ _ _ _ | Validate now _
  | Revoke now _ | Cleanup now => now
  end.

(** The session an operation issues a credential for. *)
Definition session_of (op : Operation) : option string :=
  match op with
  | Create _ freshSessionId options _ _ =>
      Some (default freshSessionId (sessionIdOption options))
  | Refresh _ sid _ _ _ => Some sid
  | _ => None
  end.

(** The identifier derived from the issued token is not already listed by
    another session (two token strings of different sessions do not hash to
    the same identifier). *)
Definition own_slot (op : Operation) (st : State) : Prop :=
  forall name sid, issuedBy op = Some name ->
                   generateTokenId name ∈ sessionTokenIds sid st ->
                   session_of op = Some sid.

(** *** Example states *)

Definition for_session (sid : string) : CreateTokenOptions :=
  {| uses := None; expirationMinutes := None;
     sessionIdOption := Some sid; scopeOption := None |}.

(** One credential, issued at time 0 for one use and spent at time 0. *)
Definition spent : State :=
  (validateAndUseToken 0 "auth_tokens/a"
     (createToken defaultConfig 0 "" (for_session "s1") "client"
        (Some "auth_tokens/a"%string) initial).2).2.

(** Two credentials of one session, issued at time 0 and not used yet. *)
Definition fresh_pair : State :=
  (createToken defaultConfig 0 "" (for_session "s1") "client"
     (Some "auth_tokens/b"%string)
     (createToken defaultConfig 0 "" (for_session "s1") "client"
        (Some "auth_tokens/a"%string) initial).2).2.

Definition entry_b : TokenStorageEntry :=
  {| token := {| tokenString := "auth_tokens/b"; expiresAt := 1800000;
                 usesRemaining := 1; sessionId := "s1";
                 scope := ["gemini-live-api"%string];
                 createdAt := 0; lastUsed := None |};
     refreshCount := 0; issuedFor := "client" |}.

Definition entry_a_spent : TokenStorageEntry :=
  {| token := {| tokenString := "auth_tokens/a"; expiresAt := 1800000;
                 usesRemaining := 0; sessionId := "s1";
                 scope := ["gemini-live-api"%string];
                 createdAt := 0; lastUsed := Some 0 |};
     refreshCount := 0; issuedFor := "client" |}.

End TokenManager.

(** ** The live client

  The client is single-threaded: a call runs until it returns or reaches an
  [await], where it is parked as a [Task] until what it waits for settles.
  Timers armed with [setTimeout] live in the environment until they fire
  or are cleared.  [State] holds the fields of the client and, after
  them, this environment. *)

Module LiveClient.

Inductive Status := Connected | Disconnected | Connecting | Reconnecting.

Record EphemeralTokenConfig := {
  autoRefresh : bool;
  refreshThresholdMinutes : Z;
  maxRetries : Z;
  retryDelayMs : Z
}.

(** [DEFAULT_EPHEMERAL_CONFIG]. *)
Definition defaultTokenConfig : EphemeralTokenConfig := {|
  autoRefresh := true;
  refreshThresholdMinutes := 5;
  maxRetries := 3;
  retryDelayMs := 1000
|}.

(** [TIMEOUTS.NORMAL_DISCONNECT_CODE]. *)
Definition NORMAL_DISCONNECT_CODE : Z := 1000.

Record TokenInfo := {
  token : string;
  expiresAt : Z
}.

(** What a timer runs when it fires: the arrow functions handed to
    [setTimeout] by [scheduleTokenRefresh] and by [scheduleReconnection]. *)
Inductive Callback := RunRefresh | RunReconnect.

Record Timer := {
  handle : nat;
  delay : Z;
  callback : Callback
}.

(** Who called [connect]: the application, or the reconnect timer, which
    goes on after [connect] has returned. *)
Inductive Caller := ByUser | ByReconnectTimer.

(** The calls parked at an [await]. *)
Inductive Task :=
| AwaitToken (promise : nat) (owner : bool) (caller : Caller)
| AwaitSession (request : nat) (caller : Caller)
| AwaitRefresh (request : nat).

(** The events observers can subscribe to (log events left out). *)
Inductive Event :=
| tokenrefresh (newToken : string) (expiresAt : Z)
| tokenexpired
| reconnecting (attempt maxAttempts : Z)
| reconnected
| reconnectfailed
| close (code : Z)
| error.

Record State := {
  status : Status;
  session : option nat;
  model : option string;
  client : option string;
  currentToken : option string;
  tokenExpiresAt : option Z;
  reconnectAttempts : Z;
  refreshTimer : option nat;
  reconnectTimer : option nat;
  pendingTokenRequest : option nat;
  timers : list Timer;
  nextHandle : nat;
  tasks : list Task;
  nextPromise : nat;
  nextRequest : nat;
  emitted : list Event;
  closedSessions : list nat
}.

Definition initial : State := {|
  status := Disconnected; session := None; model := None; client := None;
  currentToken := None; tokenExpiresAt := None; reconnectAttempts := 0;
  refreshTimer := None; reconnectTimer := None; pendingTokenRequest := None;
  timers := []; nextHandle := 1; tasks := []; nextPromise := 1;
  nextRequest := 1; emitted := []; closedSessions := []
|}.

Definition set_status (v : Status) (st : State) : State :=
  {| status := v;
     session := session st;
     model := model st;
     client := client st;
     currentToken := currentToken st;
     tokenExpiresAt := tokenExpiresAt st;
     reconnectAttempts := reconnectAttempts st;
     refreshTimer := refreshTimer st;
     reconnectTimer := reconnectTimer st;
     pendingTokenRequest := pendingTokenRequest st;
     timers := timers st;
     nextHandle := nextHandle st;
     tasks := tasks st;
     nextPromise := nextPromise st;
     nextRequest := nextRequest st;
     emitted := emitted st;
     closedSessions := closedSessions st |}.

Definition set_session (v : option nat) (st : State) : State :=
  {| status := status st;
     session := v;
     model := model st;
     client := client st;
     currentToken := currentToken st;
     tokenExpiresAt := tokenExpiresAt st;
     reconnectAttempts := reconnectAttempts st;
     refreshTimer := refreshTimer st;
     reconnectTimer := reconnectTimer st;
     pendingTokenRequest := pendingTokenRequest st;
     timers := timers st;
     nextHandle := nextHandle st;
     tasks := tasks st;
     nextPromise := nextPromise st;
     nextRequest := nextRequest st;
     emitted := emitted st;
     closedSessions := closedSessions st |}.

Definition set_model (v : option string) (st : State) : State :=
  {| status := status st;
     session := session st;
     model := v;
     client := client st;
     currentToken := currentToken st;
     tokenExpiresAt := tokenExpiresAt st;
     reconnectAttempts := reconnectAttempts st;
     refreshTimer := refreshTimer st;
     reconnectTimer := reconnectTimer st;
     pendingTokenRequest := pendingTokenRequest st;
     timers := timers st;
     nextHandle := nextHandle st;
     tasks := tasks st;
     nextPromise := nextPromise st;
     nextRequest := nextRequest st;
     emitted := emitted st;
     closedSessions := closedSessions st |}.

Definition set_client (v : option string) (st : State) : State :=
  {| status := status st;
     session := session st;
     model := model st;
     client := v;
     currentToken := currentToken st;
     tokenExpiresAt := tokenExpiresAt st;
     reconnectAttempts := reconnectAttempts st;
     refreshTimer := refreshTimer st;
     reconnectTimer := reconnectTimer st;
     pendingTokenRequest := pendingTokenRequest st;
     timers := timers st;
     nextHandle := nextHandle st;
     tasks := tasks st;
     nextPromise := nextPromise st;
     nextRequest := nextRequest st;
     emitted := emitted st;
     closedSessions := closedSessions st |}.

Definition set_currentToken (v : option string) (st : State) : State :=
  {| status := status st;
     session := session st;
     model := model st;
     client := client st;
     currentToken := v;
     tokenExpiresAt := tokenExpiresAt st;
     reconnectAttempts := reconnectAttempts st;
     refreshTimer := refreshTimer st;
     reconnectTimer := reconnectTimer st;
     pendingTokenRequest := pendingTokenRequest st;
     timers := timers st;
     nextHandle := nextHandle st;
     tasks := tasks st;
     nextPromise := nextPromise st;
     nextRequest := nextRequest st;
     emitted := emitted st;
     closedSessions := closedSessions st |}.

Definition set_tokenExpiresAt (v : option Z) (st : State) : State :=
  {| status := status st;
     session := session st;
     model := model st;
     client := client st;
     currentToken := currentToken st;
     tokenExpiresAt := v;
     reconnectAttempts := reconnectAttempts st;
     refreshTimer := refreshTimer st;
     reconnectTimer := reconnectTimer st;
     pendingTokenRequest := pendingTokenRequest st;
     timers := timers st;
     nextHandle := nextHandle st;
     tasks := tasks st;
     nextPromise := nextPromise st;
     nextRequest := nextRequest st;
     emitted := emitted st;
     closedSessions := closedSessions st |}.

Definition set_reconnectAttempts (v : Z) (st : State) : State :=
  {| status := status st;
     session := session st;
     model := model st;
     client := client st;
     currentToken := currentToken st;
     tokenExpiresAt := tokenExpiresAt st;
     reconnectAttempts := v;
     refreshTimer := refreshTimer st;
     reconnectTimer := reconnectTimer st;
     pendingTokenRequest := pendingTokenRequest st;
     timers := timers st;
     nextHandle := nextHandle st;
     tasks := tasks st;
     nextPromise := nextPromise st;
     nextRequest := nextRequest st;
     emitted := emitted st;
     closedSessions := closedSessions st |}.

Definition set_refreshTimer (v : option nat) (st : State) : State :=
  {| status := status st;
     session := session st;
     model := model st;
     client := client st;
     currentToken := currentToken st;
     tokenExpiresAt := tokenExpiresAt st;
     reconnectAttempts := reconnectAttempts st;
     refreshTimer := v;
     reconnectTimer := reconnectTimer st;
     pendingTokenRequest := pendingTokenRequest st;
     timers := timers st;
     nextHandle := nextHandle st;
     tasks := tasks st;
     nextPromise := nextPromise st;
     nextRequest := nextRequest st;
     emitted := emitted st;
     closedSessions := closedSessions st |}.

Definition set_reconnectTimer (v : option nat) (st : State) : State :=
  {| status := status st;
     session := session st;
     model := model st;
     client := client st;
     currentToken := currentToken st;
     tokenExpiresAt := tokenExpiresAt st;
     reconnectAttempts := reconnectAttempts st;
     refreshTimer := refreshTimer st;
     reconnectTimer := v;
     pendingTokenRequest := pendingTokenRequest st;
     timers := timers st;
     nextHandle := nextHandle st;
     tasks := tasks st;
     nextPromise := nextPromise st;
     nextRequest := nextRequest st;
     emitted := emitted st;
     closedSessions := closedSessions st |}.

Definition set_pendingTokenRequest (v : option nat) (st : State) : State :=
  {| status := status st;
     session := session st;
     model := model st;
     client := client st;
     currentToken := currentToken st;
     tokenExpiresAt := tokenExpiresAt st;
     reconnectAttempts := reconnectAttempts st;
     refreshTimer := refreshTimer st;
     reconnectTimer := reconnectTimer st;
     pendingTokenRequest := v;
     timers := timers st;
     nextHandle := nextHandle st;
     tasks := tasks st;
     nextPromise := nextPromise st;
     nextRequest := nextRequest st;
     emitted := emitted st;
     closedSessions := closedSessions st |}.

Definition set_timers (v : list Timer) (st : State) : State :=
  {| status := status st;
     session := session st;
     model := model st;
     client := client st;
     currentToken := currentToken st;
     tokenExpiresAt := tokenExpiresAt st;
     reconnectAttempts := reconnectAttempts st;
     refreshTimer := refreshTimer st;
     reconnectTimer := reconnectTimer st;
     pendingTokenRequest := pendingTokenRequest st;
     timers := v;
     nextHandle := nextHandle st;
     tasks := tasks st;
     nextPromise := nextPromise st;
     nextRequest := nextRequest st;
     emitted := emitted st;
     closedSessions := closedSessions st |}.

Definition set_nextHandle (v : nat) (st : State) : State :=
  {| status := status st;
     session := session st;
     model := model st;
     client := client st;
     currentToken := currentToken st;
     tokenExpiresAt := tokenExpiresAt st;
     reconnectAttempts := reconnectAttempts st;
     refreshTimer := refreshTimer st;
     reconnectTimer := reconnectTimer st;
     pendingTokenRequest := pendingTokenRequest st;
     timers := timers st;
     nextHandle := v;
     tasks := tasks st;
     nextPromise := nextPromise st;
     nextRequest := nextRequest st;
     emitted := emitted st;
     closedSessions := closedSessions st |}.

Definition set_tasks (v : list Task) (st : State) : State :=
  {| status := status st;
     session := session st;
     model := model st;
     client := client st;
     currentToken := currentToken st;
     tokenExpiresAt := tokenExpiresAt st;
     reconnectAttempts := reconnectAttempts st;
     refreshTimer := refreshTimer st;
     reconnectTimer := reconnectTimer st;
     pendingTokenRequest := pendingTokenRequest st;
     timers := timers st;
     nextHandle := nextHandle st;
     tasks := v;
     nextPromise := nextPromise st;
     nextRequest := nextRequest st;
     emitted := emitted st;
     closedSessions := closedSessions st |}.

Definition set_nextPromise (v : nat) (st : State) : State :=
  {| status := status st;
     session := session st;
     model := model st;
     client := client st;
     currentToken := currentToken st;
     tokenExpiresAt := tokenExpiresAt st;
     reconnectAttempts := reconnectAttempts st;
     refreshTimer := refreshTimer st;
     reconnectTimer := reconnectTimer st;
     pendingTokenRequest := pendingTokenRequest st;
     timers := timers st;
     nextHandle := nextHandle st;
     tasks := tasks st;
     nextPromise := v;
     nextRequest := nextRequest st;
     emitted := emitted st;
     closedSessions := closedSessions st |}.

Definition set_nextRequest (v : nat) (st : State) : State :=
  {| status := status st;
     session := session st;
     model := model st;
     client := client st;
     currentToken := currentToken st;
     tokenExpiresAt := tokenExpiresAt st;
     reconnectAttempts := reconnectAttempts st;
     refreshTimer := refreshTimer st;
     reconnectTimer := reconnectTimer st;
     pendingTokenRequest := pendingTokenRequest st;
     timers := timers st;
     nextHandle := nextHandle st;
     tasks := tasks st;
     nextPromise := nextPromise st;
     nextRequest := v;
     emitted := emitted st;
     closedSessions := closedSessions st |}.

Definition set_emitted (v : list Event) (st : State) : State :=
  {| status := status st;
     session := session st;
     model := model st;
     client := client st;
     currentToken := currentToken st;
     tokenExpiresAt := tokenExpiresAt st;
     reconnectAttempts := reconnectAttempts st;
     refreshTimer := refreshTimer st;
     reconnectTimer := reconnectTimer st;
     pendingTokenRequest := pendingTokenRequest st;
     timers := timers st;
     nextHandle := nextHandle st;
     tasks := tasks st;
     nextPromise := nextPromise st;
     nextRequest := nextRequest st;
     emitted := v;
     closedSessions := closedSessions st |}.

Definition set_closedSessions (v : list nat) (st : State) : State :=
  {| status := status st;
     session := session st;
     model := model st;
     client := client st;
     currentToken := currentToken st;
     tokenExpiresAt := tokenExpiresAt st;
     reconnectAttempts := reconnectAttempts st;
     refreshTimer := refreshTimer st;
     reconnectTimer := reconnectTimer st;
     pendingTokenRequest := pendingTokenRequest st;
     timers := timers st;
     nextHandle := nextHandle st;
     tasks := tasks st;
     nextPromise := nextPromise st;
     nextRequest := nextRequest st;
     emitted := emitted st;
     closedSessions := v |}.

Definition emit (e : Event) (st : State) : State :=
  set_emitted (emitted st ++ [e]) st.

Definition park (t : Task) (st : State) : State :=
  set_tasks (tasks st ++ [t]) st.

(** *** Timers *)

Definition setTimeout (cb : Callback) (d : Z) (st : State) : nat * State :=
  (nextHandle st,
   set_nextHandle (S (nextHandle st))
     (set_timers (timers st ++ [{| handle := nextHandle st; delay := d; callback := cb |}])
        st)).

Definition clearTimeout (h : nat) (st : State) : State :=
  set_timers (filter (fun t => handle t <> h) (timers st)) st.

Definition armed (h : nat) (st : State) : option Timer :=
  List.find (fun t => Nat.eqb (handle t) h) (timers st).

(** *** [scheduleTokenRefresh] *)

Definition scheduleTokenRefresh (cfg : EphemeralTokenConfig) (now : Z) (st : State) : State :=
  let st := match refreshTimer st with
            | Some h => clearTimeout h st
            | None => st
            end in
  match tokenExpiresAt st with
  | None => st
  | Some expiry =>
      let timeUntilExpiry := expiry - now in
      let refreshThreshold := refreshThresholdMinutes cfg * 60 * 1000 in
      let refreshIn := timeUntilExpiry - refreshThreshold in
      if 0 <? refreshIn then
        let '(h, st) := setTimeout RunRefresh refreshIn st in
        set_refreshTimer (Some h) st
      else
        (setTimeout RunRefresh 0 st).2
  end.

(** *** [scheduleReconnection] *)

Definition shouldRetryConnection (cfg : EphemeralTokenConfig) (st : State) : bool :=
  reconnectAttempts st <? maxRetries cfg.

Definition scheduleReconnection (cfg : EphemeralTokenConfig) (st : State) : State :=
  if maxRetries cfg <=? reconnectAttempts st then emit reconnectfailed st
  else
    let st := set_reconnectAttempts (reconnectAttempts st + 1) st in
    let d := retryDelayMs cfg * 2 ^ (reconnectAttempts st - 1) in
    let st := emit (reconnecting (reconnectAttempts st) (maxRetries cfg)) st in
    let '(h, st) := setTimeout RunReconnect d st in
    set_reconnectTimer (Some h) st.

(** *** [disconnect] *)

Definition disconnect (st : State) : bool * State :=
  match session st with
  | None => (false, st)
  | Some s =>
      let st := match refreshTimer st with
                | Some h => set_refreshTimer None (clearTimeout h st)
                | None => st
                end in
      let st := match reconnectTimer st with
                | Some h => set_reconnectTimer None (clearTimeout h st)
                | None => st
                end in
      let st := set_closedSessions (closedSessions st ++ [s]) st in
      (true,
       set_reconnectAttempts 0
         (set_tokenExpiresAt None
            (set_currentToken None
               (set_client None
                  (set_status Disconnected
                     (set_session None st))))))
  end.

(** *** [connect] *)

(** The continuation of the reconnect timer once [connect] has returned
    ([Some] of its result) or thrown ([None]); the application's own
    continuation is outside the client. *)
Definition after_connect (cfg : EphemeralTokenConfig) (caller : Caller)
    (result : option bool) (st : State) : State :=
  match caller with
  | ByUser => st
  | ByReconnectTimer =>
      match result with
      | Some true => emit reconnected (set_reconnectAttempts 0 st)
      | _ => scheduleReconnection cfg st
      end
  end.

(** [getValidToken]: join the fetch in flight, or start one and own it. *)
Definition getValidToken (caller : Caller) (st : State) : State :=
  match pendingTokenRequest st with
  | Some p => park (AwaitToken p false caller) st
  | None =>
      let p := nextPromise st in
      park (AwaitToken p true caller)
        (set_nextPromise (S p) (set_pendingTokenRequest (Some p) st))
  end.

(** [connect] up to its first [await].  The model and the configuration
    travel together; they are [None] only when the reconnect timer passes
    on fields that no earlier [connect] has set, and reading the
    configuration then throws before the [try] block is entered. *)
Definition connect_begin (cfg : EphemeralTokenConfig) (caller : Caller)
    (model : option string) (st : State) : State :=
  match status st with
  | Connected | Connecting => after_connect cfg caller (Some false) st
  | _ =>
      let st := set_reconnectAttempts 0 (set_model model (set_status Connecting st)) in
      match model with
      | Some _ => getValidToken caller st
      | None => after_connect cfg caller None st
      end
  end.

(** How far a resumed call of [connect] has come: it waits again, or it
    has ended and hands [result] to its caller ([Some b] when it returned
    [b], [None] when it threw). *)
Inductive Progress := Waits | Ended (result : option bool).

(** The [catch] block of [connect]: what the call hands to its caller, and
    the state it leaves. *)
Definition connect_failed (cfg : EphemeralTokenConfig) (st : State)
  : option bool * State :=
  let st := set_status Disconnected st in
  if shouldRetryConnection cfg st
  then (Some false, scheduleReconnection cfg st)
  else (None, st).

(** [connect] from the answer of [getValidToken] to [await live.connect],
    or to its end when there is no token. *)
Definition connect_with_token (cfg : EphemeralTokenConfig) (caller : Caller)
    (result : option TokenInfo) (st : State) : Progress * State :=
  match result with
  | None => let '(r, st) := connect_failed cfg st in (Ended r, st)
  | Some t =>
      let st := set_tokenExpiresAt (Some (expiresAt t))
                  (set_currentToken (Some (token t))
                     (set_client (Some (token t)) st)) in
      (Waits,
       park (AwaitSession (nextRequest st) caller)
         (set_nextRequest (S (nextRequest st)) st))
  end.

(** [connect] from the answer of [live.connect] to its end. *)
Definition connect_with_session (cfg : EphemeralTokenConfig) (now : Z)
    (result : option nat) (st : State) : Progress * State :=
  match result with
  | None => let '(r, st) := connect_failed cfg st in (Ended r, st)
  | Some s =>
      let st := set_status Connected (set_session (Some s) st) in
      let st := if autoRefresh cfg then scheduleTokenRefresh cfg now st else st in
      (Ended (Some true), st)
  end.

(** *** [refreshToken] *)

(** Up to [await fetch (...)]; the later awaits of the call are taken
    together with this one. *)
Definition refreshToken_begin (st : State) : State :=
  park (AwaitRefresh (nextRequest st)) (set_nextRequest (S (nextRequest st)) st).

Definition refreshToken_end (cfg : EphemeralTokenConfig) (now : Z)
    (result : option TokenInfo) (st : State) : State :=
  match result with
  | Some t =>
      let st := set_tokenExpiresAt (Some (expiresAt t))
                  (set_currentToken (Some (token t)) st) in
      let st := emit (tokenrefresh (token t) (expiresAt t)) st in
      if autoRefresh cfg then scheduleTokenRefresh cfg now st else st
  | None => scheduleReconnection cfg (emit tokenexpired st)
  end.

(** *** The event loop *)

Inductive Input :=
| CallConnect (model : string)
| CallDisconnect
| CallManualRefresh
| TokenSettles (promise : nat) (result : option TokenInfo)
| SessionSettles (request : nat) (result : option nat)
| RefreshSettles (request : nat) (result : option TokenInfo)
| TimerFires (h : nat)
| ServerCloses (code : Z)
| ServerError (tokenRelated : bool).

(** The parked calls a settlement wakes up, in the order they were parked. *)
Definition wakes (i : Input) (t : Task) : bool :=
  match i, t with
  | TokenSettles p _, AwaitToken p' _ _ => Nat.eqb p p'
  | SessionSettles r _, AwaitSession r' _ => Nat.eqb r r'
  | RefreshSettles r _, AwaitRefresh r' => Nat.eqb r r'
  | _, _ => false
  end.

(** A call of [connect] that has ended, with who is waiting for it. *)
Definition returned (caller : Caller) (p : Progress) : list (Caller * option bool) :=
  match p with
  | Waits => []
  | Ended result => [(caller, result)]
  end.

(** A woken call, up to its next await or to its end; the calls of
    [connect] that have ended are listed with their callers. *)
Definition resume (cfg : EphemeralTokenConfig) (now : Z) (i : Input) (t : Task)
    (st : State) : list (Caller * option bool) * State :=
  match i, t with
  | TokenSettles _ result, AwaitToken _ owner caller =>
      (* the [finally] of the owner's [getValidToken], then [connect] *)
      let st := if owner then set_pendingTokenRequest None st else st in
      let '(p, st) := connect_with_token cfg caller result st in
      (returned caller p, st)
  | SessionSettles _ result, AwaitSession _ caller =>
      let '(p, st) := connect_with_session cfg now result st in
      (returned caller p, st)
  | RefreshSettles _ result, AwaitRefresh _ =>
      ([], refreshToken_end cfg now result st)
  | _, _ => ([], st)
  end.

(** The woken calls run one after the other, in the order they were
    parked, each to its next await or to its end. *)
Fixpoint resume_all (cfg : EphemeralTokenConfig) (now : Z) (i : Input)
    (woken : list Task) (st : State) : list (Caller * option bool) * State :=
  match woken with
  | [] => ([], st)
  | t :: rest =>
      let '(ended, st) := resume cfg now i t st in
      let '(ended', st) := resume_all cfg now i rest st in
      (ended ++ ended', st)
  end.

(** The callers of the calls that have ended are resumed after all the
    woken calls have run, in the same order: a caller waits for the promise
    of its call, which is resolved when the call ends. *)
Definition resume_callers (cfg : EphemeralTokenConfig)
    (ended : list (Caller * option bool)) (st : State) : State :=
  fold_left (fun st r => after_connect cfg r.1 r.2 st) ended st.

Definition settle (cfg : EphemeralTokenConfig) (now : Z) (i : Input) (st : State) : State :=
  let woken := List.filter (wakes i) (tasks st) in
  let parked := List.filter (fun t => negb (wakes i t)) (tasks st) in
  let '(ended, st) := resume_all cfg now i woken (set_tasks parked st) in
  resume_callers cfg ended st.

Definition fire (cfg : EphemeralTokenConfig) (h : nat) (st : State) : State :=
  match armed h st with
  | None => st
  | Some t =>
      let st := clearTimeout h st in
      match callback t with
      | RunRefresh => refreshToken_begin st
      | RunReconnect =>
          connect_begin cfg ByReconnectTimer (model st) (set_status Reconnecting st)
      end
  end.

Definition step (cfg : EphemeralTokenConfig) (now : Z) (i : Input) (st : State) : State :=
  match i with
  | CallConnect model => connect_begin cfg ByUser (Some model) st
  | CallDisconnect => (disconnect st).2
  | CallManualRefresh => refreshToken_begin st
  | TokenSettles _ _ | SessionSettles _ _ | RefreshSettles _ _ => settle cfg now i st
  | TimerFires h => fire cfg h st
  | ServerCloses code =>
      let st := emit (close code) st in
      if negb (code =? NORMAL_DISCONNECT_CODE)
         && match status st with Connected => true | _ => false end
      then scheduleReconnection cfg st
      else st
  | ServerError tokenRelated =>
      let st := emit error st in
      if tokenRelated then refreshToken_begin st else st
  end.

(** A run: inputs with the time at which each arrives. *)
Fixpoint run_inputs (cfg : EphemeralTokenConfig) (inputs : list (Z * Input)) (st : State) : State :=
  match inputs with
  | [] => st
  | (now, i) :: rest => run_inputs cfg rest (step cfg now i st)
  end.

(** *** Readings of the specification and example runs *)

(** Every refresh timer armed before a call of [scheduleTokenRefresh] is
    gone after it. *)
Definition cancels_armed_refresh (cfg : EphemeralTokenConfig) (now : Z) (st : State) : Prop :=
  forall t, In t (timers st) -> callback t = RunRefresh ->
            ~ In t (timers (scheduleTokenRefresh cfg now st)).

(** Handles are handed out in increasing order. *)
Definition handles_fresh (st : State) : Prop :=
  Forall (fun t => (handle t < nextHandle st)%nat) (timers st).

Definition half_hour_token : TokenInfo :=
  {| token := "auth_tokens/a"; expiresAt := 30 * 60 * 1000 |}.

(** A session opened at time 0 with a token that lives for 30 minutes. *)
Definition connected_session : State :=
  run_inputs defaultTokenConfig
    [(0, CallConnect "models/live");
     (0, TokenSettles 1 (Some half_hour_token));
     (0, SessionSettles 1 (Some 7%nat))]
    initial.

(** The server drops the session, and every attempt to come back fails to
    obtain a token. Each reconnect timer is fired when it is due. *)
Definition four_failures : list (Z * Input) :=
  [(100, ServerCloses 1006);
   (1100, TimerFires 2); (1150, TokenSettles 2 None);
   (2150, TimerFires 3); (2200, TokenSettles 3 None);
   (3150, TimerFires 4); (3200, TokenSettles 4 None)].

(** A first [connect] that fails to obtain a token. *)
Definition never_connected : State :=
  run_inputs defaultTokenConfig
    [(0, CallConnect "models/live"); (50, TokenSettles 1 None)] initial.

(** Two refreshes asked for by token errors of the server; the first is
    answered with a token that has four minutes left. *)
Definition short_lived_refresh : State :=
  run_inputs defaultTokenConfig
    [(1000, ServerError true); (1001, ServerError true);
     (1200, RefreshSettles 2 (Some {| token := "auth_tokens/b";
                                      expiresAt := 1200 + 4 * 60 * 1000 |}))]
    connected_session.

(** The promises whose fetch a parked call owns: it will run the
    [finally] block of [getValidToken] for them. *)
Definition owned (t : Task) : list nat :=
  match t with
  | AwaitToken p true _ => [p]
  | _ => []
  end.

Definition owners (ts : list Task) : list nat := flat_map owned ts.

(** The in-flight marker names the one fetch that has an owner. *)
Definition single_flight (st : State) : Prop :=
  owners (tasks st) = match pendingTokenRequest st with
                      | Some p => [p]
                      | None => []
                      end.

(** What the token request sees of a state. *)
Definition flight (st : State) : option nat * list nat * nat :=
  (pendingTokenRequest st, owners (tasks st), nextPromise st).

(** The statuses in which [connect] goes past its guard. *)
Definition admits_connect (st : State) : bool :=
  match status st with
  | Connected | Connecting => false
  | _ => true
  end.

(** The woken call that owns the fetch clears the marker. *)
Definition clears (i : Input) (t : Task) : bool :=
  match i, t with
  | TokenSettles _ _, AwaitToken _ true _ => true
  | _, _ => false
  end.

Inductive reachable (cfg : EphemeralTokenConfig) : State -> Prop :=
| reachable_initial : reachable cfg initial
| reachable_step now i st :
    reachable cfg st -> reachable cfg (step cfg now i st).

End LiveClient.

(** ** The security middleware: administration and statistics *)

Module SecurityAdmin.
Import Security.

(** Calls of [checkRateLimit] by several clients, in arrival order; each
    result is listed with the client it was given to. *)
Fixpoint serve (cfg : RateLimitConfig) (calls : list (Z * string))
    (store : gmap string RateLimitEntry)
  : list (string * RateLimitResult) * gmap string RateLimitEntry :=
  match calls with
  | [] => ([], store)
  | (now, clientId) :: rest =>
      let '(r, store1) := checkRateLimit cfg now clientId store in
      let '(rs, store2) := serve cfg rest store1 in
      ((clientId, r) :: rs, store2)
  end.

(** The instants at which client [k] calls. *)
Definition times_of (k : string) (calls : list (Z * string)) : list Z :=
  map fst (List.filter (fun c => String.eqb (snd c) k) calls).

(** The results given to client [k]. *)
Definition results_of (k : string) (rs : list (string * RateLimitResult))
  : list RateLimitResult :=
  map snd (List.filter (fun r => String.eqb (fst r) k) rs).

(** [clearRateLimit]: [Map.delete] tells whether the key was present. *)
Definition clearRateLimit (clientId : string) (store : gmap string RateLimitEntry)
  : bool * gmap string RateLimitEntry :=
  (bool_decide (is_Some (store !! clientId)), delete clientId store).

(** [array.slice (start)] for an integral [start]. *)
Definition slice_from {A : Type} (start : Z) (l : list A) : list A :=
  let len := Z.of_nat (length l) in
  let k := if start <? 0 then Z.max (len + start) 0 else Z.min start len in
  drop (Z.to_nat k) l.

(** [getRecentAuditLog (limit)]: [this.auditLogEntries.slice (-limit)]. *)
Definition getRecentAuditLog (limit : Z) (st : State) : list AuditLogEntry :=
  slice_from (- limit) (auditLogEntries st).

(** *** [getSecurityStats] *)

Record SecurityStats := {
  activeRateLimits : Z;
  blockedClients : Z;
  totalRequests : Z;
  successfulRequests : Z;
  failedRequests : Z;
  topEvents : list (string * Z)
}.

(** [eventCounts.set (event, (eventCounts.get (event) || 0) + 1)] on a map
    that remembers the order in which its keys were first set. *)
Fixpoint bump (ev : string) (counts : list (string * Z)) : list (string * Z) :=
  match counts with
  | [] => [(ev, 1)]
  | (e, n) :: rest =>
      if String.eqb e ev then (e, n + 1) :: rest else (e, n) :: bump ev rest
  end.

Definition eventCounts (entries : list AuditLogEntry) : list (string * Z) :=
  fold_left (fun counts entry => bump (event entry) counts) entries [].

(** [sort ((a, b) => b.count - a.count)]: descending and stable. *)
Fixpoint insert_desc (x : string * Z) (l : list (string * Z)) : list (string * Z) :=
  match l with
  | [] => [x]
  | y :: rest => if snd y <? snd x then x :: y :: rest else y :: insert_desc x rest
  end.

Definition sort_desc (l : list (string * Z)) : list (string * Z) :=
  fold_left (fun sorted x => insert_desc x sorted) l [].

Definition getSecurityStats (st : State) : SecurityStats :=
  {| activeRateLimits := Z.of_nat (size (rateLimitStore st));
     blockedClients :=
       Z.of_nat (size (filter (fun kv => blocked kv.2 = true) (rateLimitStore st)));
     totalRequests := Z.of_nat (length (auditLogEntries st));
     successfulRequests :=
       Z.of_nat (length (List.filter success (auditLogEntries st)));
     failedRequests :=
       Z.of_nat (length (List.filter (fun e => negb (success e)) (auditLogEntries st)));
     topEvents := take 10 (sort_desc (eventCounts (auditLogEntries st))) |}.


(** The limiter is consulted: not in development, and enabled. *)
Definition limiter_on (node_env : option string) (cfg : SecurityConfig) : bool :=
  negb (development node_env) && enableRateLimit cfg.

(** The polynomial in 31 that the identifier hash computes, before it is
    wrapped into 32 bits. *)
Fixpoint poly31 (acc : Z) (s : string) : Z :=
  match s with
  | EmptyString => acc
  | String c rest => poly31 (31 * acc + Z.of_nat (nat_of_ascii c)) rest
  end.

(** Example inputs. *)
Definition put_request : Request :=
  {| url := "https://tokens.example.org/api/auth/ephemeral-token";
     method := "PUT"; headers := ∅ |}.

Definition idle : State := {| rateLimitStore := ∅; auditLogEntries := [] |}.

Definition failing_handler (_ : Request) : HandlerOutcome :=
  Throws (ErrorObject "issuer unavailable").

(** The number of audit entries of an event. *)
Definition occurrences (ev : string) (entries : list AuditLogEntry) : Z :=
  Z.of_nat (length (List.filter (fun e => String.eqb (event e) ev) entries)).

(** A table of counts is right for a log: its keys are distinct and it
    lists exactly the events of the log, each with its number of entries. *)
Definition counts_of (entries : list AuditLogEntry) (counts : list (string * Z)) : Prop :=
  NoDup (map fst counts)
  /\ forall e n, In (e, n) counts <-> 1 <= n /\ n = occurrences e entries.

(** Sorted by count, largest first. *)
Definition descending (l : list (string * Z)) : Prop :=
  StronglySorted (fun x y => snd y <= snd x) l.

End SecurityAdmin.

(** ** The token manager: statistics and repeated use *)

Module TokenAdmin.
Import TokenManager.

(** [getStatistics]: one pass over the stored entries. *)
Record Statistics := {
  stats_totalTokens : Z;
  stats_activeTokens : Z;
  stats_expiredTokens : Z;
  stats_exhaustedTokens : Z;
  stats_sessions : Z
}.

Inductive Class := IsExpired | IsExhausted | IsActive.

(** The branch of the loop of [getStatistics] an entry takes. *)
Definition classify (now : Z) (t : EphemeralToken) : Class :=
  if expiresAt t <? now then IsExpired
  else if usesRemaining t <=? 0 then IsExhausted
  else IsActive.

Definition tally (now : Z) (e : TokenStorageEntry) (acc : Z * Z * Z) : Z * Z * Z :=
  let '(active, expired, exhausted) := acc in
  match classify now (token e) with
  | IsExpired => (active, expired + 1, exhausted)
  | IsExhausted => (active, expired, exhausted + 1)
  | IsActive => (active + 1, expired, exhausted)
  end.

Definition getStatistics (now : Z) (st : State) : Statistics :=
  let '(active, expired, exhausted) :=
    map_fold (fun _ e acc => tally now e acc) (0, 0, 0) (tokenStorage st) in
  {| stats_totalTokens := Z.of_nat (size (tokenStorage st));
     stats_activeTokens := active;
     stats_expiredTokens := expired;
     stats_exhaustedTokens := exhausted;
     stats_sessions := Z.of_nat (size (sessionTokens st)) |}.

Definition in_class (now : Z) (c : Class) (t : EphemeralToken) : bool :=
  match classify now t, c with
  | IsExpired, IsExpired | IsExhausted, IsExhausted | IsActive, IsActive => true
  | _, _ => false
  end.

(** The number of stored entries of a class. *)
Definition class_size (now : Z) (c : Class) (storage : gmap string TokenStorageEntry) : Z :=
  Z.of_nat (size (filter (fun kv => in_class now c (token kv.2) = true) storage)).

(** [validateAndUseToken] called again and again for one token string. *)
Fixpoint useAll (times : list Z) (tokenString : string) (st : State)
  : list Validation * State :=
  match times with
  | [] => ([], st)
  | now :: rest =>
      let '(r, st1) := validateAndUseToken now tokenString st in
      let '(rs, st2) := useAll rest tokenString st1 in
      (r :: rs, st2)
  end.

(** Operations run one after the other, none of them interleaved with
    another. *)
Fixpoint run_all (cfg : TokenManagerConfig) (ops : list Operation) (st : State) : State :=
  match ops with
  | [] => st
  | op :: rest => run_all cfg rest (run cfg op st)
  end.

(** The clock does not go back from one operation to the next, and each
    operation finds the slot of the credential it asks for free. *)
Fixpoint in_order (cfg : TokenManagerConfig) (t0 : Z) (ops : list Operation)
    (st : State) : Prop :=
  match ops with
  | [] => True
  | op :: rest =>
      t0 <= time_of op /\ own_slot op st /\ in_order cfg (time_of op) rest (run cfg op st)
  end.

Definition last_time (t0 : Z) (ops : list Operation) : Z :=
  fold_left (fun _ op => time_of op) ops t0.

(** The state [refreshToken] and [revokeSession] reach by their loop. *)
Definition exhausted (now : Z) (sid : string) (st : State) : State :=
  {| tokenStorage := exhaustAll now (sessionTokenIds sid st) (tokenStorage st);
     sessionTokens := sessionTokens st |}.

Definition accepted (v : Validation) : bool :=
  match v with ValidToken _ => true | InvalidToken _ => false end.

End TokenAdmin.

(** ** The live client: back-off, invariants and realtime input *)

Module ClientAdmin.
Import LiveClient.

(** [scheduleReconnection] called [n] times with no [connect] in between,
    as [onclose] and a failing [refreshToken] do. *)
Fixpoint scheduleReconnections (cfg : EphemeralTokenConfig) (n : nat) (st : State) : State :=
  match n with
  | O => st
  | S n => scheduleReconnections cfg n (scheduleReconnection cfg st)
  end.

(** What the timers of a client may look like: a reconnect timer waits
    [retryDelayMs * 2 ^ k] for a [k] below [maxRetries], a refresh timer
    does not wait a negative time. *)
Definition timer_ok (cfg : EphemeralTokenConfig) (t : Timer) : Prop :=
  match callback t with
  | RunReconnect => exists k, 0 <= k < maxRetries cfg /\ delay t = retryDelayMs cfg * 2 ^ k
  | RunRefresh => 0 <= delay t
  end.

Definition steady (cfg : EphemeralTokenConfig) (st : State) : Prop :=
  0 <= reconnectAttempts st <= Z.max 0 (maxRetries cfg)
  /\ Forall (timer_ok cfg) (timers st)
  /\ (status st = Connected -> is_Some (session st)).

(** The fields [steady] reads. *)
Definition view (st : State) : Z * list Timer * Status * option nat :=
  (reconnectAttempts st, timers st, status st, session st).

(** *** [sendRealtimeInput] *)

Record Chunk := { mimeType : string; data : string }.

Definition isAudio (ch : Chunk) : bool := Js.includes "audio" (mimeType ch).

Definition isImage (ch : Chunk) : bool := Js.includes "image" (mimeType ch).

(** The loop: the chunks handed to [session.sendRealtimeInput] and the two
    flags when it ends. *)
Fixpoint sendLoop (hasAudio hasVideo : bool) (chunks : list Chunk)
  : list Chunk * (bool * bool) :=
  match chunks with
  | [] => ([], (hasAudio, hasVideo))
  | ch :: rest =>
      let hasAudio := if isAudio ch then true else hasAudio in
      let hasVideo := if isImage ch then true else hasVideo in
      if hasAudio && hasVideo then ([ch], (hasAudio, hasVideo))
      else let '(sent, flags) := sendLoop hasAudio hasVideo rest in (ch :: sent, flags)
  end.

(** The chunks the session receives and the message that is logged. *)
Definition sendRealtimeInput (session : option nat) (chunks : list Chunk)
  : list Chunk * string :=
  let '(sent, (hasAudio, hasVideo)) := sendLoop false false chunks in
  (match session with
   | Some _ => sent
   | None => []
   end,
   if hasAudio && hasVideo then "audio + video"
   else if hasAudio then "audio"
   else if hasVideo then "video"
   else "unknown")%string.

(** Both kinds of media occur in a list of chunks. *)
Definition both (chunks : list Chunk) : bool :=
  existsb isAudio chunks && existsb isImage chunks.

Definition pcm : Chunk := {| mimeType := "audio/pcm;rate=16000"; data := "AAAA" |}.

Definition jpeg : Chunk := {| mimeType := "image/jpeg"; data := "BBBB" |}.

End ClientAdmin.

(** ** The client-side token cache ([lib/auth/token-storage.ts]) *)

Module TokenCache.
Import TokenManager.

(** A JavaScript [Map] whose iteration order matters: the entries in
    insertion order, one per key. *)
Fixpoint map_get {V : Type} (k : string) (m : list (string * V)) : option V :=
  match m with
  | [] => None
  | (k', v) :: rest => if String.eqb k' k then Some v else map_get k rest
  end.

(** [Map.set]: an existing key keeps its place. *)
Fixpoint map_set {V : Type} (k : string) (v : V) (m : list (string * V))
  : list (string * V) :=
  match m with
  | [] => [(k, v)]
  | (k', v') :: rest =>
      if String.eqb k' k then (k', v) :: rest else (k', v') :: map_set k v rest
  end.

Definition map_delete {V : Type} (k : string) (m : list (string * V))
  : list (string * V) :=
  List.filter (fun kv => negb (String.eqb (fst kv) k)) m.

(** [refreshScheduled] is never written by the storage and is left out. *)
Record StoredToken := {
  stored : EphemeralToken;
  cacheKey : string;
  retrievedAt : Z
}.

Record TokenCacheEntry := {
  cached : StoredToken;
  hitCount : Z;
  lastAccessed : Z
}.

Record RateLimitEntry := {
  count : Z;
  windowStart : Z;
  blocked : bool
}.

Record TokenStorageConfig := {
  maxCacheSize : Z;
  cacheEvictionMinutes : Z;
  rateLimitWindow : Z;
  rateLimitMax : Z;
  enablePersistence : bool;
  storagePrefix : string
}.

(** The defaults of the constructor, where [localStorage] exists. *)
Definition defaultStorageConfig : TokenStorageConfig := {|
  maxCacheSize := 50;
  cacheEvictionMinutes := 60;
  rateLimitWindow := 60;
  rateLimitMax := 10;
  enablePersistence := true;
  storagePrefix := "gemini_tokens_"
|}.

(** [persisted] is [localStorage] restricted to what the storage writes:
    writing and reading back a token is taken to give the same token, and
    no access to fail. *)
Record Storage := {
  cache : list (string * TokenCacheEntry);
  rateLimits : gmap string RateLimitEntry;
  persisted : gmap string StoredToken
}.

Definition empty : Storage := {| cache := []; rateLimits := ∅; persisted := ∅ |}.

(** [token.expiresAt > now && token.usesRemaining > 0]. *)
Definition isTokenValid (now : Z) (t : EphemeralToken) : bool :=
  (now <? expiresAt t) && (0 <? usesRemaining t).

Definition generateCacheKey (cfg : TokenStorageConfig) (sessionId : string) : string :=
  (storagePrefix cfg ++ sessionId)%string.

(** Drop [key] from the cache and, when persistence is on, from
    [localStorage]. *)
Definition forget (cfg : TokenStorageConfig) (key : string) (st : Storage) : Storage :=
  {| cache := map_delete key (cache st);
     rateLimits := rateLimits st;
     persisted := if enablePersistence cfg then delete key (persisted st)
                  else persisted st |}.

(** The loop of [evictOldestEntry]: [oldestKey] and [oldestTime]. *)
Fixpoint oldest (entries : list (string * TokenCacheEntry)) (best : option (string * Z))
  : option (string * Z) :=
  match entries with
  | [] => best
  | (key, entry) :: rest =>
      oldest rest
        (match best with
         | None => Some (key, lastAccessed entry)
         | Some (_, oldestTime) =>
             if lastAccessed entry <? oldestTime then Some (key, lastAccessed entry)
             else best
         end)
  end.

(** [if (oldestKey)]: the empty string is falsy. *)
Definition evictOldestEntry (cfg : TokenStorageConfig) (st : Storage) : Storage :=
  match oldest (cache st) None with
  | Some (key, _) => if String.eqb key "" then st else forget cfg key st
  | None => st
  end.

Definition storeToken (cfg : TokenStorageConfig) (now : Z) (sessionId : string)
    (token : EphemeralToken) (st : Storage) : Storage :=
  let key := generateCacheKey cfg sessionId in
  let storedToken := {| stored := token; cacheKey := key; retrievedAt := now |} in
  let cacheEntry := {| cached := storedToken; hitCount := 0; lastAccessed := now |} in
  let st := if maxCacheSize cfg <=? Z.of_nat (length (cache st))
            then evictOldestEntry cfg st else st in
  {| cache := map_set key cacheEntry (cache st);
     rateLimits := rateLimits st;
     persisted := if enablePersistence cfg then <[key := storedToken]> (persisted st)
                  else persisted st |}.

(** The second half of [getToken]: what [localStorage] has. *)
Definition fromPersistence (cfg : TokenStorageConfig) (now : Z) (key : string)
    (st : Storage) : option StoredToken * Storage :=
  if enablePersistence cfg then
    match persisted st !! key with
    | Some p =>
        if isTokenValid now (stored p)
        then (Some p,
              {| cache := map_set key {| cached := p; hitCount := 1; lastAccessed := now |}
                            (cache st);
                 rateLimits := rateLimits st;
                 persisted := persisted st |})
        else (None, st)
    | None => (None, st)
    end
  else (None, st).

Definition getToken (cfg : TokenStorageConfig) (now : Z) (sessionId : string)
    (st : Storage) : option StoredToken * Storage :=
  let key := generateCacheKey cfg sessionId in
  match map_get key (cache st) with
  | Some entry =>
      if isTokenValid now (stored (cached entry))
      then (Some (cached entry),
            {| cache := map_set key {| cached := cached entry;
                                       hitCount := hitCount entry + 1;
                                       lastAccessed := now |} (cache st);
               rateLimits := rateLimits st;
               persisted := persisted st |})
      else fromPersistence cfg now key (forget cfg key st)
  | None => fromPersistence cfg now key st
  end.

Definition removeToken (cfg : TokenStorageConfig) (sessionId : string) (st : Storage)
  : bool * Storage :=
  let key := generateCacheKey cfg sessionId in
  (match map_get key (cache st) with Some _ => true | None => false end,
   forget cfg key st).

(** *** [checkRateLimit] *)

Record RateLimitResult := {
  allowed : bool;
  remaining : Z;
  resetTime : Z
}.

Definition setRateLimit (clientId : string) (e : RateLimitEntry) (st : Storage) : Storage :=
  {| cache := cache st;
     rateLimits := <[clientId := e]> (rateLimits st);
     persisted := persisted st |}.

Definition checkRateLimit (cfg : TokenStorageConfig) (now : Z) (clientId : string)
    (st : Storage) : RateLimitResult * Storage :=
  let windowSize := rateLimitWindow cfg * 60 * 1000 in
  match rateLimits st !! clientId with
  | None =>
      ({| allowed := true; remaining := rateLimitMax cfg - 1;
          resetTime := now + windowSize |},
       setRateLimit clientId {| count := 1; windowStart := now; blocked := false |} st)
  | Some entry =>
      if windowSize <=? now - windowStart entry then
        ({| allowed := true; remaining := rateLimitMax cfg - 1;
            resetTime := now + windowSize |},
         setRateLimit clientId {| count := 1; windowStart := now; blocked := false |} st)
      else if rateLimitMax cfg <=? count entry then
        ({| allowed := false; remaining := 0;
            resetTime := windowStart entry + windowSize |},
         setRateLimit clientId {| count := count entry; windowStart := windowStart entry;
                                  blocked := true |} st)
      else
        ({| allowed := true; remaining := rateLimitMax cfg - (count entry + 1);
            resetTime := windowStart entry + windowSize |},
         setRateLimit clientId {| count := count entry + 1;
                                  windowStart := windowStart entry;
                                  blocked := blocked entry |} st)
  end.

(** Calls of one client, one after the other. *)
Fixpoint checkAll (cfg : TokenStorageConfig) (clientId : string) (times : list Z)
    (st : Storage) : list RateLimitResult * Storage :=
  match times with
  | [] => ([], st)
  | now :: rest =>
      let '(r, st1) := checkRateLimit cfg now clientId st in
      let '(rs, st2) := checkAll cfg clientId rest st1 in
      (r :: rs, st2)
  end.

(** A call of [checkRateLimit] at [now] starts a new window for the
    client. *)
Definition opens_window (cfg : TokenStorageConfig) (clientId : string) (st : Storage)
    (now : Z) : Prop :=
  match rateLimits st !! clientId with
  | None => True
  | Some entry => rateLimitWindow cfg * 60 * 1000 <= now - windowStart entry
  end.

(** *** Example data *)

Definition keys (st : Storage) : list string := map fst (cache st).

Definition minute_token (name : string) : EphemeralToken :=
  {| tokenString := name; expiresAt := 60000; usesRemaining := 1; sessionId := "s";
     scope := ["gemini-live-api"%string]; createdAt := 0; lastUsed := None |}.

(** A cache of two entries in a storage that holds at most two. *)
Definition tiny : TokenStorageConfig := {|
  maxCacheSize := 2;
  cacheEvictionMinutes := 60;
  rateLimitWindow := 60;
  rateLimitMax := 2;
  enablePersistence := true;
  storagePrefix := "t_"
|}.

Definition two_cached : Storage :=
  storeToken tiny 20 "b" (minute_token "auth_tokens/b")
    (storeToken tiny 10 "a" (minute_token "auth_tokens/a") empty).

End TokenCache.

(** * Properties *)

(** ** Rate limiting and request validation *)

Module SecurityFacts.
Import Security.

Section RateLimit.
Variable cfg : RateLimitConfig.
Variable k : string.

Lemma check_opens store now :
  opens_window cfg k store now ->
  checkRateLimit cfg now k store =
    ({| allowed := true; remaining := maxRequests cfg - 1;
        resetTime := Js.ceil_div (now + windowMs cfg) 1000; retryAfter := 0 |},
     <[k := fresh now]> store).
Proof.
  unfold opens_window, checkRateLimit, fresh.
  destruct (store !! k) as [e|]; [|reflexivity].
  intros Hw. apply Z.leb_le in Hw. now rewrite Hw.
Qed.

Lemma check_counts store now e :
  store !! k = Some e ->
  now - windowStart e < windowMs cfg ->
  count e < maxRequests cfg ->
  checkRateLimit cfg now k store =
    ({| allowed := true; remaining := maxRequests cfg - (count e + 1);
        resetTime := Js.ceil_div (windowStart e + windowMs cfg) 1000;
        retryAfter := 0 |},
     <[k := {| count := count e + 1; windowStart := windowStart e;
               blocked := blocked e; lastReset := lastReset e |}]> store).
Proof.
  intros He Hw Hc. unfold checkRateLimit. rewrite He.
  apply Z.leb_gt in Hw. apply Z.leb_gt in Hc. now rewrite Hw, Hc.
Qed.

Lemma check_blocks store now e :
  store !! k = Some e ->
  now - windowStart e < windowMs cfg ->
  maxRequests cfg <= count e ->
  checkRateLimit cfg now k store =
    ({| allowed := false; remaining := 0;
        resetTime := Js.ceil_div (windowStart e + windowMs cfg) 1000;
        retryAfter := Js.ceil_div (windowStart e + windowMs cfg - now) 1000 |},
     <[k := {| count := count e; windowStart := windowStart e;
               blocked := true; lastReset := lastReset e |}]> store).
Proof.
  intros He Hw Hc. unfold checkRateLimit. rewrite He.
  apply Z.leb_gt in Hw. apply Z.leb_le in Hc. now rewrite Hw, Hc.
Qed.

Lemma ceil_div_pos x : 0 < x -> 0 < Js.ceil_div x 1000.
Proof.
  intros Hx. unfold Js.ceil_div.
  assert ((- x) / 1000 < 0); [|lia].
  apply Z.div_lt_upper_bound; lia.
Qed.

(** Calls of another client leave the window of [k] alone. *)
Lemma check_other store now k' :
  k' <> k -> (checkRateLimit cfg now k' store).2 !! k = store !! k.
Proof.
  intros Hne. unfold checkRateLimit.
  destruct (store !! k') as [e|]; simpl.
  - destruct (_ <=? _); simpl; [now rewrite lookup_insert_ne|].
    destruct (_ <=? _); simpl; now rewrite lookup_insert_ne.
  - now rewrite lookup_insert_ne.
Qed.

(** While the window is open and the quota not used up, every call is
    admitted and counted. *)
Lemma checkAll_counts times : forall store e,
  store !! k = Some e ->
  Forall (fun t => t - windowStart e < windowMs cfg) times ->
  count e + Z.of_nat (length times) <= maxRequests cfg ->
  let out := checkAll cfg k times store in
  (exists e', out.2 !! k = Some e'
              /\ count e' = count e + Z.of_nat (length times)
              /\ windowStart e' = windowStart e)
  /\ length out.1 = length times
  /\ forall (i : nat) r, out.1 !! i = Some r ->
       allowed r = true /\ remaining r = maxRequests cfg - (count e + 1 + Z.of_nat i).
Proof.
  induction times as [|t times IH]; intros store e He Hall Hc; simpl.
  - split; [exists e; split; [assumption|lia]|].
    split; [reflexivity|]. intros i r Hr. destruct i; discriminate.
  - inversion Hall as [|? ? Ht Hrest]; subst.
    simpl length in Hc.
    rewrite (check_counts store t e He Ht) by lia.
    set (e1 := {| count := count e + 1; windowStart := windowStart e;
                  blocked := blocked e; lastReset := lastReset e |}).
    specialize (IH (<[k:=e1]> store) e1 (lookup_insert_eq _ _ _)).
    simpl in IH. specialize (IH Hrest ltac:(lia)).
    destruct (checkAll cfg k times (<[k:=e1]> store)) as [rs s2]; simpl in *.
    destruct IH as [(e' & He' & Hcnt & Hws) [Hlen Hres]].
    split; [exists e'; repeat split; [assumption|lia|assumption]|].
    split; [now rewrite Hlen|].
    intros [|i] r Hr; simpl in Hr.
    + inversion Hr; subst; simpl. split; [reflexivity|lia].
    + destruct (Hres i r Hr) as [Ha Hrem]. split; [assumption|lia].
Qed.

End RateLimit.

(** C5. With [maxRequests = 10] and a 60 minute window, for any client key
    and any store: when a call at [t0] opens the window and nine further
    calls fall inside it, all ten are admitted and the tenth reports
    [remaining = 0]; an eleventh call inside the window is refused with
    [retryAfter > 0]; and a call at or after [windowStart + windowMs],
    whether or not the refused call happened, is admitted with
    [remaining = maxRequests - 1] and restarts the window at its own time. *)
Theorem rate_limit_boundary :
  forall (k : string) (store : gmap string RateLimitEntry)
         (t0 : Z) (times : list Z) (t11 tlate : Z),
    opens_window hourly k store t0 ->
    length times = 9%nat ->
    Forall (fun t => t - t0 < windowMs hourly) times ->
    t11 - t0 < windowMs hourly ->
    t0 + windowMs hourly <= tlate ->
    let first_ten := checkAll hourly k (t0 :: times) store in
    let eleventh := checkRateLimit hourly t11 k first_ten.2 in
    let reset s := checkRateLimit hourly tlate k s in
    length first_ten.1 = 10%nat
    /\ Forall (fun r => allowed r = true) first_ten.1
    /\ (exists r10, first_ten.1 !! 9%nat = Some r10
                    /\ allowed r10 = true /\ remaining r10 = 0)
    /\ allowed eleventh.1 = false
    /\ 0 < retryAfter eleventh.1
    /\ (forall s, s = first_ten.2 \/ s = eleventh.2 ->
          allowed (reset s).1 = true
          /\ remaining (reset s).1 = maxRequests hourly - 1
          /\ (reset s).2 !! k = Some (fresh tlate)).
Proof.
  intros k store t0 times t11 tlate Hopen Hlen Hin H11 Hlate.
  cbn zeta. simpl checkAll.
  rewrite (check_opens hourly k store t0 Hopen).
  pose proof (checkAll_counts hourly k times (<[k:=fresh t0]> store) (fresh t0)
                (lookup_insert_eq _ _ _)) as Hrun.
  simpl in Hrun. specialize (Hrun Hin).
  rewrite Hlen in Hrun. specialize (Hrun ltac:(simpl; lia)).
  destruct (checkAll hourly k times (<[k:=fresh t0]> store)) as [rs s10]; simpl in *.
  destruct Hrun as [(e10 & He10 & Hcnt & Hws) [Hlenrs Hres]].
  assert (Hrs : forall (i : nat) r, rs !! i = Some r ->
            allowed r = true /\ remaining r = 8 - Z.of_nat i).
  { intros i r Hr. destruct (Hres i r Hr). split; [assumption|lia]. }
  split; [now rewrite Hlenrs|].
  split.
  { constructor; [reflexivity|]. apply Forall_lookup. intros i r Hr.
    apply (Hrs i r Hr). }
  split.
  { destruct (lookup_lt_is_Some_2 rs 8%nat) as [r10 Hr10]; [lia|].
    exists r10. split; [assumption|].
    destruct (Hrs 8%nat r10 Hr10). split; [assumption|lia]. }
  rewrite (check_blocks hourly k s10 t11 e10 He10) by (simpl; lia).
  simpl.
  split; [reflexivity|].
  split; [apply ceil_div_pos; simpl; lia|].
  intros s [-> | ->].
  - rewrite (check_opens hourly k s10 tlate).
    + simpl. repeat split. apply lookup_insert_eq.
    + unfold opens_window. rewrite He10. simpl. lia.
  - rewrite (check_opens hourly k _ tlate).
    + simpl. repeat split. apply lookup_insert_eq.
    + unfold opens_window. rewrite lookup_insert_eq. simpl. lia.
Qed.

Lemma rate_limit_boundary_witness :
  let k := "203.0.113.7_4pl4mu"%string in
  let first_ten := checkAll hourly k [0; 1; 2; 3; 4; 5; 6; 7; 8; 9] ∅ in
  let eleventh := checkRateLimit hourly 10 k first_ten.2 in
  length first_ten.1 = 10%nat
  /\ Forall (fun r => allowed r = true) first_ten.1
  /\ (exists r10, first_ten.1 !! 9%nat = Some r10
                  /\ allowed r10 = true /\ remaining r10 = 0)
  /\ allowed eleventh.1 = false
  /\ 0 < retryAfter eleventh.1
  /\ (forall s, s = first_ten.2 \/ s = eleventh.2 ->
        allowed (checkRateLimit hourly 3600000 k s).1 = true
        /\ remaining (checkRateLimit hourly 3600000 k s).1 = maxRequests hourly - 1
        /\ (checkRateLimit hourly 3600000 k s).2 !! k = Some (fresh 3600000)).
Proof.
  apply (rate_limit_boundary "203.0.113.7_4pl4mu" ∅ 0 [1; 2; 3; 4; 5; 6; 7; 8; 9] 10 3600000).
  - exact I.
  - reflexivity.
  - repeat constructor.
  - reflexivity.
  - simpl. lia.
Defined.

(** *** Origin validation *)

Ltac split_ifs :=
  repeat match goal with
         | |- context [if ?b then _ else _] => destruct b
         end.

(** C9. A request without an [Origin] header is never rejected with
    'Invalid origin', whatever the configuration, its allow-list included:
    the request is validated exactly as if no allow-list were configured. *)
Theorem validateRequest_no_origin :
  forall (cfg : SecurityConfig) (request : Request),
    header request "origin" = None ->
    (forall statusCode,
        validateRequest cfg request <> Invalid "Invalid origin" statusCode)
    /\ validateRequest cfg request = validateRequest (withoutAllowList cfg) request.
Proof.
  intros cfg request Horigin.
  assert (Heq : validateRequest cfg request
                = validateRequest (withoutAllowList cfg) request).
  { unfold validateRequest, withoutAllowList; simpl. rewrite Horigin.
    destruct (allowedOrigins cfg) as [origins|]; [|reflexivity].
    now rewrite andb_false_r. }
  split; [|exact Heq].
  intros statusCode. rewrite Heq.
  unfold validateRequest, withoutAllowList; simpl.
  split_ifs; discriminate.
Qed.

Lemma validateRequest_no_origin_witness :
  (forall statusCode,
      validateRequest (defaultConfig (Some "production"%string)) curl_request
      <> Invalid "Invalid origin" statusCode)
  /\ validateRequest (defaultConfig (Some "production"%string)) curl_request
     = validateRequest (withoutAllowList (defaultConfig (Some "production"%string)))
         curl_request.
Proof.
  apply (validateRequest_no_origin (defaultConfig (Some "production"%string)) curl_request).
  vm_compute. reflexivity.
Defined.

(** *** The development switch *)

Lemma auditLog_store cfg now ev cid request ok err st :
  rateLimitStore (auditLog cfg now ev cid request ok err st) = rateLimitStore st.
Proof. unfold auditLog. now destruct (negb _). Qed.

Lemma validateRequest_codes cfg request reason statusCode :
  validateRequest cfg request = Invalid reason statusCode ->
  In statusCode [403; 413; 405; 415].
Proof.
  unfold validateRequest. split_ifs; intros H; inversion H; subst; simpl; tauto.
Qed.

(** With the limiter switched off, the store of windows is left alone and a 429 can
    only be the wrapped handler's own response. *)
Lemma secureEndpoint_limiter_off node_env cfg now request handler st :
  negb (development node_env) && enableRateLimit cfg = false ->
  let out := secureEndpoint node_env cfg now request handler st in
  rateLimitStore out.2 = rateLimitStore st
  /\ (status out.1 = 429 -> handler request = Returns out.1).
Proof.
  intros Hoff. unfold secureEndpoint. rewrite Hoff.
  destruct (validateRequest cfg request) as [|reason statusCode] eqn:Hv; simpl.
  - destruct (handler request) as [response|message]; simpl;
      rewrite auditLog_store; (split; [reflexivity|]).
    + reflexivity.
    + discriminate.
  - rewrite auditLog_store. split; [reflexivity|].
    apply validateRequest_codes in Hv. simpl in Hv.
    destruct Hv as [<-|[<-|[<-|[<-|[]]]]]; simpl; discriminate.
Qed.

(** C10. Under [NODE_ENV = 'development'], any sequence of requests (of one
    client or of many, inside one window or not) leaves the rate-limit
    store untouched, and no response is a 429 unless the wrapped handler
    itself returned that response.  Conversely, in any environment, a step
    of [secureEndpoint] in which the rate-limit branch is observed (the
    store is written, or a 429 is answered that the handler did not
    produce) has [NODE_ENV] different from 'development' and
    [enableRateLimit] set. *)
Theorem secureEndpoint_development_skips_rate_limit :
  forall (cfg : SecurityConfig),
    (forall (calls : list Call) (st : State),
        let out := secureAll (Some "development"%string) cfg calls st in
        rateLimitStore out.2 = rateLimitStore st
        /\ Forall2 (fun c r =>
                      status r = 429 -> handler_of c (request_of c) = Returns r)
             calls out.1)
    /\ (forall node_env now request handler st,
           rate_limit_observed request handler st
             (secureEndpoint node_env cfg now request handler st) ->
           node_env <> Some "development"%string /\ enableRateLimit cfg = true).
Proof.
  intros cfg. split.
  - induction calls as [|c calls IH]; intros st; simpl.
    + split; [reflexivity|constructor].
    + pose proof (secureEndpoint_limiter_off (Some "development"%string) cfg
                    (at_time c) (request_of c) (handler_of c) st eq_refl) as Hstep.
      destruct (secureEndpoint _ cfg (at_time c) (request_of c) (handler_of c) st)
        as [r st1]; simpl in Hstep.
      specialize (IH st1).
      destruct (secureAll _ cfg calls st1) as [rs st2]; simpl in *.
      destruct Hstep as [Hs Hr]. destruct IH as [Hs' Hrs].
      split; [congruence|]. constructor; assumption.
  - intros node_env now request handler st Hobs.
    destruct (negb (development node_env) && enableRateLimit cfg) eqn:Hoff.
    + apply andb_true_iff in Hoff as [Hdev Hen]. split; [|assumption].
      unfold development in Hdev. apply negb_true_iff in Hdev.
      now apply bool_decide_eq_false in Hdev.
    + exfalso.
      destruct (secureEndpoint_limiter_off node_env cfg now request handler st Hoff)
        as [Hs Hr].
      destruct Hobs as [Hw | [H429 Hh]]; [now apply Hw | now apply Hh, Hr].
Qed.

Lemma secureEndpoint_development_skips_rate_limit_witness :
  Some "production"%string <> Some "development"%string
  /\ enableRateLimit (defaultConfig (Some "production"%string)) = true.
Proof.
  apply (proj2 (secureEndpoint_development_skips_rate_limit
                  (defaultConfig (Some "production"%string)))
           (Some "production"%string) 1000 curl_request ok_handler throttled).
  right. vm_compute. split; [reflexivity|discriminate].
Defined.

End SecurityFacts.

(** ** The token manager *)

Module TokenFacts.
Import TokenManager.

(** *** [cleanup] *)

Lemma cleanup_lookup now st id :
  tokenStorage (cleanup now st).2 !! id =
    match tokenStorage st !! id with
    | Some e => if shouldCleanup now (token e) then None else Some e
    | None => None
    end.
Proof.
  unfold cleanup; simpl.
  destruct (tokenStorage st !! id) as [e|] eqn:He.
  - destruct (shouldCleanup now (token e)) eqn:Hs.
    + apply map_lookup_filter_None. right. intros e' He' Hk. simpl in Hk.
      rewrite He in He'. inversion He'; subst. congruence.
    + apply map_lookup_filter_Some. split; [assumption|]. simpl. congruence.
  - apply map_lookup_filter_None. now left.
Qed.

Lemma shouldCleanup_spec now t :
  shouldCleanup now t = true
  <-> (isExpired now t = true \/ isExhausted t = true)
      /\ 5 * 60 * 1000 < timeSinceLastUse now t.
Proof.
  unfold shouldCleanup.
  rewrite andb_true_iff, orb_true_iff, Z.ltb_lt. reflexivity.
Qed.

Lemma active_not_swept now t : isActive now t = true -> shouldCleanup now t = false.
Proof.
  unfold isActive, shouldCleanup, isExpired, isExhausted.
  rewrite andb_true_iff, !Z.ltb_lt. intros [Hexp Huses].
  assert ((expiresAt t <? now) = false) as -> by (apply Z.ltb_ge; lia).
  assert ((usesRemaining t <=? 0) = false) as -> by (apply Z.leb_gt; lia).
  reflexivity.
Qed.

(** C6, at the boundary: a spent credential that has been idle for exactly
    five minutes is kept by the sweep, so the rule "removed exactly when
    expired or exhausted and idle for at least five minutes" fails. *)
Lemma cleanup_keeps_at_five_minutes : ~ sweeps_from_five_minutes 300000 spent.
Proof.
  intros Hrule.
  destruct (tokenStorage spent !! generateTokenId "auth_tokens/a") as [e|] eqn:He;
    [|vm_compute in He; discriminate].
  destruct (Hrule _ e He) as [_ Hremoved].
  rewrite cleanup_lookup, He in Hremoved.
  vm_compute in He. inversion He; subst e; clear He.
  assert (Hgone : Some _ = None) by (apply Hremoved; vm_compute; split; [now right|discriminate]).
  vm_compute in Hgone. discriminate.
Qed.

(** C6, as the code has it.  For every stored credential, the sweep
    removes it exactly when it is expired or exhausted and has been idle
    for more than five minutes since its last use (its creation, if never
    used); every other credential is kept as it is: one that is expired or
    exhausted but idle for five minutes or less, and one that is still
    valid, whatever its idle time. *)
Theorem cleanup_removes_exactly :
  forall (now : Z) (st : State) (id : string) (e : TokenStorageEntry),
    tokenStorage st !! id = Some e ->
    let after := tokenStorage (cleanup now st).2 !! id in
    (after = None
     <-> (isExpired now (token e) = true \/ isExhausted (token e) = true)
         /\ 5 * 60 * 1000 < timeSinceLastUse now (token e))
    /\ (after = None \/ after = Some e)
    /\ (timeSinceLastUse now (token e) <= 5 * 60 * 1000 -> after = Some e)
    /\ (isActive now (token e) = true -> after = Some e).
Proof.
  intros now st id e He after. subst after.
  rewrite cleanup_lookup, He.
  pose proof (shouldCleanup_spec now (token e)) as Hspec.
  destruct (shouldCleanup now (token e)) eqn:Hs.
  - assert (Hyes : (isExpired now (token e) = true \/ isExhausted (token e) = true)
                   /\ 5 * 60 * 1000 < timeSinceLastUse now (token e))
      by now apply Hspec.
    split; [tauto|]. split; [now left|].
    split; [intros Hidle; lia|].
    intros Hact. apply active_not_swept in Hact. congruence.
  - split.
    + split; [discriminate|]. intros Hyes. apply Hspec in Hyes. discriminate.
    + split; [now right|]. split; reflexivity.
Qed.

Lemma cleanup_removes_exactly_witness :
  let id := generateTokenId "auth_tokens/a" in
  let after := tokenStorage (cleanup 300001 spent).2 !! id in
  exists e,
    tokenStorage spent !! id = Some e
    /\ (after = None
         <-> (isExpired 300001 (token e) = true \/ isExhausted (token e) = true)
             /\ 5 * 60 * 1000 < timeSinceLastUse 300001 (token e)).
Proof.
  eexists. split; [vm_compute; reflexivity|].
  refine (proj1 (cleanup_removes_exactly 300001 spent _ _ _)).
  vm_compute; reflexivity.
Defined.

(** *** [validateAndUseToken] *)

Lemma exhaustAll_lookup now ids (storage : gmap string TokenStorageEntry) id :
  exhaustAll now ids storage !! id =
    (fun e => if decide (id ∈ ids) then setToken e (setUsage (token e) 0 now) else e)
      <$> storage !! id.
Proof.
  unfold exhaustAll. rewrite map_lookup_imap.
  now destruct (storage !! id).
Qed.

(** An uninterrupted [refreshToken] is an uninterrupted [createToken] on
    the state with the session's tokens used up, followed by the mark. *)
Lemma refreshToken_uninterrupted cfg now sid options clientId issued st :
  refreshToken cfg now sid options clientId issued st
  = let st1 := {| tokenStorage :=
                    exhaustAll now (sessionTokenIds sid st) (tokenStorage st);
                  sessionTokens := sessionTokens st |} in
    let options' := {| uses := uses options;
                       expirationMinutes := expirationMinutes options;
                       sessionIdOption := Some sid;
                       scopeOption := scopeOption options |} in
    match createToken cfg now sid options' clientId issued st1 with
    | (inl err, st2) => (inl err, st2)
    | (inr newToken, st2) =>
        let tokenId := generateTokenId (tokenString newToken) in
        (inr newToken,
         {| tokenStorage :=
              match tokenStorage st2 !! tokenId with
              | Some e =>
                  <[tokenId := {| token := token e; refreshCount := 1;
                                  issuedFor := issuedFor e |}]> (tokenStorage st2)
              | None => tokenStorage st2
              end;
            sessionTokens := sessionTokens st2 |})
    end.
Proof.
  unfold refreshToken, refreshToken_begin, createToken. cbv zeta.
  destruct (createToken_begin _ _ _ _ _ _) as [err|p]; [reflexivity|].
  destruct (createToken_finish _ _ _ _) as [[err|newToken] st2]; reflexivity.
Qed.

(** What [createToken] leaves at an identifier: the entry that was there,
    or the entry of the credential it has just issued. *)
Lemma createToken_lookup cfg now fresh options clientId issued st id e' :
  tokenStorage (createToken cfg now fresh options clientId issued st).2 !! id = Some e' ->
  tokenStorage st !! id = Some e'
  \/ exists name, issued = Some name /\ id = generateTokenId name.
Proof.
  unfold createToken.
  destruct (createToken_begin cfg now fresh options clientId st) as [err|p];
    [now left|].
  unfold createToken_finish. destruct issued as [name|]; [|now left].
  simpl. destruct (decide (id = generateTokenId name)) as [->|Hne].
  - right. now exists name.
  - rewrite lookup_insert_ne by congruence. now left.
Qed.

Lemma createToken_issued cfg now fresh options clientId issued st t :
  (createToken cfg now fresh options clientId issued st).1 = inr t ->
  issued = Some (tokenString t).
Proof.
  unfold createToken.
  destruct (createToken_begin cfg now fresh options clientId st) as [err|p];
    [discriminate|].
  unfold createToken_finish. destruct issued as [name|]; [|discriminate].
  simpl. intros H. now inversion H.
Qed.

(** Apart from [validateAndUseToken], an operation leaves the credential
    stored at an identifier as it is, marks it exhausted (revocation and
    rotation), or replaces it with the credential it has just issued. *)
Lemma usage_only_counted_by_validate cfg op st id e e' :
  isValidate op = false ->
  tokenStorage st !! id = Some e ->
  tokenStorage (run cfg op st) !! id = Some e' ->
  token e' = token e
  \/ usesRemaining (token e') = 0
  \/ exists name, issuedBy op = Some name /\ id = generateTokenId name.
Proof.
  intros Hop He He'.
  destruct op as [now fresh options clientId issued
                 |now sid options clientId issued
                 |now tokenString|now sid|now]; cbn [run issuedBy isValidate] in *.
  - apply createToken_lookup in He' as [He'|Hnew]; [left; congruence|now right; right].
  - rewrite refreshToken_uninterrupted in He'. cbv zeta in He'.
    match type of He' with
    | context [createToken ?c ?n ?f ?o ?i ?iss ?s] =>
        pose proof (createToken_lookup c n f o i iss s id) as Hcreate;
        pose proof (createToken_issued c n f o i iss s) as Hname;
        destruct (createToken c n f o i iss s) as [[err|newToken] st2]
    end; simpl in *.
    + apply Hcreate in He' as [He'|Hnew]; [|now right; right].
      rewrite exhaustAll_lookup, He in He'. simpl in He'.
      inversion He' as [Heq]. destruct (decide _); [right; now left|now left].
    + specialize (Hname newToken eq_refl).
      destruct (decide (id = generateTokenId (tokenString newToken))) as [->|Hne].
      { right; right. now exists (tokenString newToken). }
      assert (Hst2 : tokenStorage st2 !! id = Some e').
      { destruct (tokenStorage st2 !! generateTokenId (tokenString newToken));
          [now rewrite lookup_insert_ne in He' by congruence|assumption]. }
      apply Hcreate in Hst2 as [Hst1|Hnew]; [|now right; right].
      rewrite exhaustAll_lookup, He in Hst1. simpl in Hst1.
      inversion Hst1 as [Heq]. destruct (decide _); [right; now left|now left].
  - discriminate.
  - unfold revokeSession in He'. cbn [snd tokenStorage] in He'.
    rewrite exhaustAll_lookup, He in He'. simpl in He'.
    inversion He' as [Heq]. destruct (decide _); [right; now left|now left].
  - rewrite cleanup_lookup, He in He'.
    destruct (shouldCleanup now (token e)); [discriminate|].
    left. congruence.
Qed.

(** C8.  [validateAndUseToken] looks the credential up by the identifier
    derived from the token string and runs its checks in this order: no
    entry gives 'Token not found'; an entry whose [expiresAt] is in the
    past gives 'Token expired'; otherwise [usesRemaining <= 0] gives
    'Token usage exhausted'; in all three cases the state, and with it the
    credential's [usesRemaining] and [lastUsed], is unchanged.  Otherwise
    the call succeeds: the stored credential has one use fewer and
    [lastUsed] is the current time, and nothing else changes.  No other
    operation of the manager counts usage down: it leaves a stored
    credential as it is, marks it exhausted, or replaces it with a newly
    issued one. *)
Theorem validateAndUseToken_outcomes :
  forall (now : Z) (tokenString : string) (st : State),
    let id := generateTokenId tokenString in
    let out := validateAndUseToken now tokenString st in
    (tokenStorage st !! id = None -> out = (InvalidToken "Token not found", st))
    /\ (forall e, tokenStorage st !! id = Some e ->
           expiresAt (token e) < now ->
           out = (InvalidToken "Token expired", st))
    /\ (forall e, tokenStorage st !! id = Some e ->
           now <= expiresAt (token e) -> usesRemaining (token e) <= 0 ->
           out = (InvalidToken "Token usage exhausted", st))
    /\ (forall e, tokenStorage st !! id = Some e ->
           now <= expiresAt (token e) -> 0 < usesRemaining (token e) ->
           exists t',
             out.1 = ValidToken t'
             /\ usesRemaining t' = usesRemaining (token e) - 1
             /\ lastUsed t' = Some now
             /\ t' = setUsage (token e) (usesRemaining t') now
             /\ tokenStorage out.2 !! id = Some (setToken e t')
             /\ (forall id', id' <> id ->
                    tokenStorage out.2 !! id' = tokenStorage st !! id')
             /\ sessionTokens out.2 = sessionTokens st)
    /\ (forall cfg op id' e e',
           isValidate op = false ->
           tokenStorage st !! id' = Some e ->
           tokenStorage (run cfg op st) !! id' = Some e' ->
           token e' = token e
           \/ usesRemaining (token e') = 0
           \/ exists name, issuedBy op = Some name /\ id' = generateTokenId name).
Proof.
  intros now tokenString st id out. subst id out. unfold validateAndUseToken.
  repeat split.
  - intros ->. reflexivity.
  - intros e -> Hexp. apply Z.ltb_lt in Hexp. now rewrite Hexp.
  - intros e -> Hexp Huses. apply Z.ltb_ge in Hexp. apply Z.leb_le in Huses.
    now rewrite Hexp, Huses.
  - intros e -> Hexp Huses. apply Z.ltb_ge in Hexp. apply Z.leb_gt in Huses.
    rewrite Hexp, Huses. simpl.
    eexists. split; [reflexivity|]. simpl.
    split; [reflexivity|]. split; [reflexivity|]. split; [reflexivity|].
    split; [apply lookup_insert_eq|]. split; [|reflexivity].
    intros id' Hne. now rewrite lookup_insert_ne.
  - intros cfg op id' e e'. apply usage_only_counted_by_validate.
Qed.

Lemma validateAndUseToken_outcomes_witness :
  validateAndUseToken 0 "auth_tokens/zz" spent = (InvalidToken "Token not found", spent)
  /\ validateAndUseToken 1800001 "auth_tokens/a" spent
      = (InvalidToken "Token expired", spent)
  /\ validateAndUseToken 1 "auth_tokens/a" spent
      = (InvalidToken "Token usage exhausted", spent)
  /\ exists t', (validateAndUseToken 1 "auth_tokens/b" fresh_pair).1 = ValidToken t'
                /\ usesRemaining t' = usesRemaining (token entry_b) - 1
                /\ lastUsed t' = Some 1.
Proof.
  destruct (validateAndUseToken_outcomes 0 "auth_tokens/zz" spent) as [Hnone _].
  destruct (validateAndUseToken_outcomes 1800001 "auth_tokens/a" spent)
    as (_ & Hexp & _).
  destruct (validateAndUseToken_outcomes 1 "auth_tokens/a" spent)
    as (_ & _ & Hexh & _).
  destruct (validateAndUseToken_outcomes 1 "auth_tokens/b" fresh_pair)
    as (_ & _ & _ & Hok & _).
  split; [apply Hnone; vm_compute; reflexivity|].
  split; [apply (Hexp entry_a_spent); vm_compute; reflexivity|].
  split; [apply (Hexh entry_a_spent); vm_compute;
          first [reflexivity|discriminate]|].
  destruct (Hok entry_b) as (t' & Ht' & Huses & Hused & _);
    [vm_compute; reflexivity|vm_compute; discriminate|vm_compute; reflexivity|].
  exists t'. repeat split; assumption.
Defined.

(** *** The session quota *)

Lemma active_subset now now' sid sid' (st st' : State) :
  sessionTokenIds sid' st' ⊆ sessionTokenIds sid st ->
  (forall id, id ∈ sessionTokenIds sid' st' ->
              isActiveId now' st' id = true -> isActiveId now st id = true) ->
  activeTokens now' sid' st' <= activeTokens now sid st.
Proof.
  intros Hsub Hact. unfold activeTokens, activeTokenIds.
  apply Nat2Z.inj_le, subseteq_size.
  intros id Hid. apply elem_of_filter in Hid as [Ha Hin].
  apply elem_of_filter. split; [now apply Hact|now apply Hsub].
Qed.

Lemma isActive_later now now' t :
  now <= now' -> isActive now' t = true -> isActive now t = true.
Proof.
  unfold isActive. rewrite !andb_true_iff, !Z.ltb_lt. lia.
Qed.

(** Time alone never makes a credential valid. *)
Lemma activeTokens_later now now' sid st :
  now <= now' -> activeTokens now' sid st <= activeTokens now sid st.
Proof.
  intros Hle. apply active_subset; [reflexivity|].
  intros id _. unfold isActiveId.
  destruct (tokenStorage st !! id); [now apply isActive_later|discriminate].
Qed.

Lemma removeTokenFromSession_subset s id sessions sid :
  default ∅ (removeTokenFromSession s id sessions !! sid) ⊆ default ∅ (sessions !! sid).
Proof.
  unfold removeTokenFromSession.
  destruct (sessions !! s) as [ids|] eqn:Hs; [|reflexivity].
  destruct (decide (sid = s)) as [->|Hne].
  - rewrite Hs. destruct (decide _).
    + rewrite lookup_delete_eq. simpl. apply empty_subseteq.
    + rewrite lookup_insert_eq. simpl. apply subseteq_difference_l. reflexivity.
  - destruct (decide _).
    + now rewrite lookup_delete_ne.
    + now rewrite lookup_insert_ne.
Qed.

Lemma cleanup_sessions_subset now st sid :
  sessionTokenIds sid (cleanup now st).2 ⊆ sessionTokenIds sid st.
Proof.
  unfold cleanup, sessionTokenIds; simpl.
  generalize (filter (fun kv : string * TokenStorageEntry =>
                        shouldCleanup now (token kv.2) = true) (tokenStorage st)).
  intros doomed.
  apply (map_fold_weak_ind
           (fun (r : gmap string (gset string)) (_ : gmap string TokenStorageEntry) =>
              default ∅ (r !! sid) ⊆ default ∅ (sessionTokens st !! sid))).
  - reflexivity.
  - intros id e m r _ IH.
    etransitivity; [apply removeTokenFromSession_subset|exact IH].
Qed.

Lemma addToken_ids sid tokenId st sid' :
  sessionTokenIds sid' (addTokenToSession sid tokenId st)
  = if decide (sid' = sid) then {[tokenId]} ∪ sessionTokenIds sid st
    else sessionTokenIds sid' st.
Proof.
  unfold addTokenToSession, sessionTokenIds at 1; simpl.
  destruct (decide (sid' = sid)) as [->|Hne].
  - now rewrite lookup_insert_eq.
  - now rewrite lookup_insert_ne by congruence.
Qed.

(** An uninterrupted [createToken] keeps every session within its quota. *)
Lemma createToken_quota cfg now fresh options clientId issued st t :
  own_slot (Create now fresh options clientId issued) st ->
  now <= t ->
  within_quota cfg now st ->
  within_quota cfg t (createToken cfg now fresh options clientId issued st).2.
Proof.
  intros Hown Hle Hq sid. unfold createToken, createToken_begin.
  set (target := default fresh (sessionIdOption options)).
  assert (Hsame : activeTokens t sid st <= maxTokensPerSession cfg).
  { transitivity (activeTokens now sid st);
      [now apply activeTokens_later|apply (Hq sid)]. }
  destruct (validateTokenParams _ _); [exact Hsame|].
  unfold enforceSessionTokenLimit.
  destruct (maxTokensPerSession cfg <=? activeTokens now target st) eqn:Hlimit;
    [exact Hsame|].
  apply Z.leb_gt in Hlimit.
  unfold createToken_finish. destruct issued as [name|]; [|exact Hsame].
  cbn [snd p_sessionId p_uses p_scope p_expiration p_clientId].
  set (st1 := {| tokenStorage := _; sessionTokens := sessionTokens st |}).
  assert (Hold : forall id, id <> generateTokenId name ->
             isActiveId t (addTokenToSession target (generateTokenId name) st1) id = true ->
             isActiveId now st id = true).
  { intros id Hne. unfold isActiveId; simpl. rewrite lookup_insert_ne by congruence.
    destruct (tokenStorage st !! id); [now apply isActive_later|discriminate]. }
  unfold activeTokens, activeTokenIds. rewrite addToken_ids.
  change (sessionTokenIds target st1) with (sessionTokenIds target st).
  change (sessionTokenIds sid st1) with (sessionTokenIds sid st).
  destruct (decide (sid = target)) as [->|Hne].
  - transitivity (Z.of_nat (size ({[generateTokenId name]} ∪ activeTokenIds now target st))).
    + apply Nat2Z.inj_le, subseteq_size. intros id Hid.
      apply elem_of_filter in Hid as [Ha Hin].
      destruct (decide (id = generateTokenId name)) as [->|Hid];
        [apply elem_of_union; left; now apply elem_of_singleton|].
      apply elem_of_union; right. apply elem_of_filter.
      split; [now apply Hold|].
      apply elem_of_union in Hin as [Hin|Hin]; [|assumption].
      apply elem_of_singleton in Hin. contradiction.
    + rewrite size_union_alt, size_singleton.
      assert (size (activeTokenIds now target st ∖ {[generateTokenId name]})
              <= size (activeTokenIds now target st))%nat
        by (apply subseteq_size, subseteq_difference_l; reflexivity).
      unfold activeTokens in Hlimit. lia.
  - transitivity (activeTokens now sid st); [|apply (Hq sid)].
    apply Nat2Z.inj_le, subseteq_size. intros id Hid.
    apply elem_of_filter in Hid as [Ha Hin].
    apply elem_of_filter. split; [|assumption].
    apply Hold; [|assumption]. intros ->.
    specialize (Hown name sid eq_refl Hin). simpl in Hown.
    fold target in Hown. congruence.
Qed.

Lemma exhaustAll_inactive now now' ids (st : State) id :
  isActiveId now' {| tokenStorage := exhaustAll now ids (tokenStorage st);
                     sessionTokens := sessionTokens st |} id = true ->
  (id ∉ ids) /\ isActiveId now' st id = true.
Proof.
  unfold isActiveId; simpl. rewrite exhaustAll_lookup.
  destruct (tokenStorage st !! id) as [e|]; simpl; [|discriminate].
  destruct (decide (id ∈ ids)); [|tauto].
  unfold isActive; simpl. rewrite andb_false_r. discriminate.
Qed.

Lemma validate_lookup now tokenString st id e' :
  tokenStorage (validateAndUseToken now tokenString st).2 !! id = Some e' ->
  exists e, tokenStorage st !! id = Some e
            /\ (e' = e \/ usesRemaining (token e') < usesRemaining (token e)
                          /\ expiresAt (token e') = expiresAt (token e)).
Proof.
  unfold validateAndUseToken.
  destruct (tokenStorage st !! generateTokenId tokenString) as [e|] eqn:He;
    [|intros H; exists e'; now split; [|left]].
  destruct (expiresAt (token e) <? now); [intros H; exists e'; now split; [|left]|].
  destruct (usesRemaining (token e) <=? 0); [intros H; exists e'; now split; [|left]|].
  simpl. destruct (decide (id = generateTokenId tokenString)) as [->|Hne].
  - rewrite lookup_insert_eq. intros H. inversion H; subst e'. exists e.
    split; [assumption|right]. simpl. split; [lia|reflexivity].
  - rewrite lookup_insert_ne by congruence. intros H. exists e'. now split; [|left].
Qed.

Lemma validate_active now tokenString st t id :
  now <= t ->
  isActiveId t (validateAndUseToken now tokenString st).2 id = true ->
  isActiveId now st id = true.
Proof.
  intros Hle. unfold isActiveId.
  destruct (tokenStorage (validateAndUseToken now tokenString st).2 !! id) as [e'|] eqn:He';
    [|discriminate].
  apply validate_lookup in He' as (e & -> & [->|[Huses Hexp]]).
  - now apply isActive_later.
  - unfold isActive. rewrite !andb_true_iff, !Z.ltb_lt. lia.
Qed.

(** Every operation that runs without another one in between keeps every
    session within its quota, from the time of the operation on. *)
Lemma quota_kept_without_interleaving cfg op st t :
  own_slot op st ->
  time_of op <= t ->
  within_quota cfg (time_of op) st ->
  within_quota cfg t (run cfg op st).
Proof.
  intros Hown Hle Hq.
  destruct op as [now fresh options clientId issued
                 |now rsid options clientId issued
                 |now tokenString|now rsid|now]; cbn [run time_of] in *.
  - now apply createToken_quota.
  - rewrite refreshToken_uninterrupted. cbv zeta.
    set (st1 := {| tokenStorage := exhaustAll now _ _; sessionTokens := sessionTokens st |}).
    set (options' := {| uses := _; expirationMinutes := _;
                        sessionIdOption := Some rsid; scopeOption := _ |}).
    assert (Hq1 : within_quota cfg now st1).
    { intros sid. etransitivity; [|apply (Hq sid)].
      apply active_subset; [reflexivity|].
      intros id _ Ha. now apply (exhaustAll_inactive now now _ st id) in Ha. }
    pose proof (createToken_quota cfg now rsid options' clientId issued st1 t) as Hc.
    assert (Hq2 : within_quota cfg t
                    (createToken cfg now rsid options' clientId issued st1).2).
    { apply Hc; [|assumption|assumption].
      intros name sid Hname Hin. simpl in Hname. simpl.
      apply (Hown name sid Hname Hin). }
    destruct (createToken cfg now rsid options' clientId issued st1)
      as [[err|newToken] st2]; [exact Hq2|].
    intros sid. etransitivity; [|apply (Hq2 sid)].
    apply active_subset; [reflexivity|].
    intros id _. unfold isActiveId; simpl.
    destruct (tokenStorage st2 !! generateTokenId (tokenString newToken)) as [e|] eqn:He;
      [|trivial].
    destruct (decide (id = generateTokenId (tokenString newToken))) as [->|Hne].
    + now rewrite lookup_insert_eq, He.
    + now rewrite lookup_insert_ne by congruence.
  - intros sid. etransitivity; [|apply (Hq sid)].
    apply active_subset.
    + unfold validateAndUseToken. repeat case_match; reflexivity.
    + intros id _. now apply validate_active.
  - intros sid. etransitivity; [|apply (Hq sid)].
    apply active_subset; [reflexivity|].
    intros id _ Ha. unfold revokeSession in Ha. cbn [snd] in Ha.
    apply (exhaustAll_inactive now t _ st id) in Ha as [_ Ha].
    revert Ha. unfold isActiveId.
    destruct (tokenStorage st !! id); [now apply isActive_later|discriminate].
  - intros sid. etransitivity; [|apply (Hq sid)].
    apply active_subset; [apply cleanup_sessions_subset|].
    intros id _. unfold isActiveId. rewrite cleanup_lookup.
    destruct (tokenStorage st !! id) as [e|]; [|discriminate].
    destruct (shouldCleanup now (token e)); [discriminate|now apply isActive_later].
Qed.


(** C4, on the code.  A session holds two valid credentials.  Two calls of
    [createToken] for it are in flight at once: each has passed
    [enforceSessionTokenLimit] (two is below the limit of three) and waits
    for the issuer; when both have been answered the session holds four
    valid credentials.  Issued one after the other, the second call would
    have been refused. *)
Theorem createToken_in_flight_exceeds_limit :
  exists p3 p4,
    createToken_begin defaultConfig 0 "" (for_session "s1") "client" fresh_pair = inr p3
    /\ createToken_begin defaultConfig 0 "" (for_session "s1") "client" fresh_pair = inr p4
    /\ let st3 := (createToken_finish 1 p3 (Some "auth_tokens/c"%string) fresh_pair).2 in
        let st4 := (createToken_finish 1 p4 (Some "auth_tokens/d"%string) st3).2 in
        activeTokens 0 "s1" fresh_pair = 2
        /\ activeTokens 2 "s1" st4 = 4
        /\ maxTokensPerSession defaultConfig = 3
        /\ (createToken defaultConfig 1 "" (for_session "s1") "client"
               (Some "auth_tokens/d"%string) st3).1 = inl (SessionLimitReached 3).
Proof.
  eexists. eexists.
  split; [vm_compute; reflexivity|].
  split; [vm_compute; reflexivity|].
  vm_compute. repeat split.
Qed.

End TokenFacts.

(** ** The live client *)

Module ClientFacts.
Import LiveClient.

(** *** Reconnection *)

(** A failed attempt of the reconnect timer always starts the count again:
    [connect] has reset [reconnectAttempts] to 0, its [catch] block
    schedules attempt 1, and the timer's own continuation schedules
    attempt 2 on top of it. *)
Lemma failed_attempt_schedules_twice cfg st :
  2 <= maxRetries cfg ->
  reconnectAttempts st = 0 ->
  let st' := after_connect cfg ByReconnectTimer
               (connect_failed cfg st).1 (connect_failed cfg st).2 in
  reconnectAttempts st' = 2
  /\ emitted st' = emitted st ++ [reconnecting 1 (maxRetries cfg);
                                  reconnecting 2 (maxRetries cfg)]
  /\ map delay (timers st') = map delay (timers st)
                              ++ [retryDelayMs cfg * 1; retryDelayMs cfg * 2].
Proof.
  intros Hmax Hzero.
  unfold connect_failed, shouldRetryConnection.
  simpl. rewrite Hzero.
  assert ((0 <? maxRetries cfg) = true) as -> by (apply Z.ltb_lt; lia).
  unfold after_connect, scheduleReconnection. simpl. rewrite Hzero. simpl.
  assert ((maxRetries cfg <=? 0) = false) as -> by (apply Z.leb_gt; lia).
  simpl.
  assert ((maxRetries cfg <=? 0 + 1) = false) as -> by (apply Z.leb_gt; lia).
  simpl. split; [reflexivity|]. split.
  - rewrite <- app_assoc. reflexivity.
  - rewrite !map_app, <- app_assoc. reflexivity.
Qed.

Lemma connect_begin_starts cfg caller m st :
  admits_connect st = true ->
  pendingTokenRequest st = None ->
  connect_begin cfg caller (Some m) st
  = park (AwaitToken (nextPromise st) true caller)
      (set_nextPromise (S (nextPromise st))
         (set_pendingTokenRequest (Some (nextPromise st))
            (set_reconnectAttempts 0
               (set_model (Some m) (set_status Connecting st))))).
Proof.
  intros Hadm Hnone. unfold connect_begin, admits_connect in *.
  destruct (status st); try discriminate Hadm;
    unfold getValidToken; simpl; rewrite Hnone; reflexivity.
Qed.

(** A call of [connect] by the application while another one is under way
    returns [false] and changes nothing. *)
Lemma connect_begin_busy cfg m st :
  status st = Connecting -> connect_begin cfg ByUser (Some m) st = st.
Proof. intros Hs. unfold connect_begin. now rewrite Hs. Qed.

Lemma filter_none_woken i ts :
  Forall (fun t => wakes i t = false) ts ->
  List.filter (wakes i) ts = [] /\ List.filter (fun t => negb (wakes i t)) ts = ts.
Proof.
  induction 1 as [|t ts Ht _ [IH1 IH2]]; [now split|].
  simpl. rewrite Ht. simpl. now rewrite IH1, IH2.
Qed.

(** A settlement that wakes one call: the call runs, then its caller. *)
Lemma settle_one cfg now i st t :
  Forall (fun t' => wakes i t' = false) (tasks st) ->
  wakes i t = true ->
  settle cfg now i (park t st)
  = resume_callers cfg (resume cfg now i t st).1 (resume cfg now i t st).2.
Proof.
  intros Hnone Hwakes.
  destruct (filter_none_woken _ _ Hnone) as [Hwoken Hparked].
  unfold settle, park. cbn [tasks set_tasks].
  rewrite !List.filter_app, Hwoken, Hparked. cbn [List.filter app].
  rewrite Hwakes. cbn [negb app resume_all].
  replace (set_tasks (tasks st ++ []) (set_tasks (tasks st ++ [t]) st)) with st
    by (rewrite app_nil_r; now destruct st).
  destruct (resume cfg now i t st) as [ended st1]. cbn [fst snd].
  now rewrite app_nil_r.
Qed.

(** What every woken call and every caller's continuation keep, a
    settlement keeps. *)
Lemma resume_all_preserves cfg now i (P : State -> Prop) :
  (forall t st, P st -> P (resume cfg now i t st).2) ->
  forall woken st, P st -> P (resume_all cfg now i woken st).2.
Proof.
  intros Hresume. induction woken as [|t woken IH]; intros st H; [exact H|].
  cbn [resume_all]. specialize (Hresume t st H).
  destruct (resume cfg now i t st) as [ended st1]. specialize (IH st1 Hresume).
  now destruct (resume_all cfg now i woken st1).
Qed.

Lemma resume_callers_preserves cfg (P : State -> Prop) :
  (forall caller r st, P st -> P (after_connect cfg caller r st)) ->
  forall ended st, P st -> P (resume_callers cfg ended st).
Proof.
  intros Hafter. induction ended as [|[caller r] ended IH]; intros st H; [exact H|].
  cbn. apply IH. now apply Hafter.
Qed.

Lemma settle_preserves cfg now i (P : State -> Prop) st :
  (forall t st, P st -> P (resume cfg now i t st).2) ->
  (forall caller r st, P st -> P (after_connect cfg caller r st)) ->
  P (set_tasks (List.filter (fun t => negb (wakes i t)) (tasks st)) st) ->
  P (settle cfg now i st).
Proof.
  intros Hresume Hafter H. unfold settle.
  pose proof (resume_all_preserves cfg now i P Hresume
                (List.filter (wakes i) (tasks st)) _ H) as H1.
  destruct (resume_all cfg now i _ _) as [ended st1].
  now apply resume_callers_preserves.
Qed.

(** The same for any client: when a reconnect timer fires and the attempt
    fails to obtain a token, the client ends with [reconnectAttempts = 2]
    whatever the count was before, having announced attempts 1 and 2 and
    armed both their timers; [reconnectfailed] is not emitted. *)
Lemma failed_reconnect_attempt cfg now1 now2 h t st :
  2 <= maxRetries cfg ->
  armed h st = Some t ->
  callback t = RunReconnect ->
  is_Some (model st) ->
  pendingTokenRequest st = None ->
  Forall (fun t' => wakes (TokenSettles (nextPromise st) None) t' = false) (tasks st) ->
  let st' := step cfg now2 (TokenSettles (nextPromise st) None)
               (step cfg now1 (TimerFires h) st) in
  reconnectAttempts st' = 2
  /\ emitted st' = emitted st ++ [reconnecting 1 (maxRetries cfg);
                                  reconnecting 2 (maxRetries cfg)]
  /\ map delay (timers st')
     = map delay (filter (fun t' => handle t' <> h) (timers st))
       ++ [retryDelayMs cfg * 1; retryDelayMs cfg * 2].
Proof.
  intros Hmax Harmed Hcb [m Hm] Hnone Hfresh. cbn [step].
  unfold fire. rewrite Harmed, Hcb.
  change (model (clearTimeout h st)) with (model st).
  rewrite Hm, connect_begin_starts; [|reflexivity|assumption].
  rewrite settle_one; [|exact Hfresh|simpl; apply Nat.eqb_refl].
  cbn [resume]. unfold connect_with_token.
  match goal with
  | |- context [connect_failed cfg ?s] =>
      pose proof (failed_attempt_schedules_twice cfg s Hmax eq_refl) as Htwice;
      destruct (connect_failed cfg s) as [r st2]
  end.
  exact Htwice.
Qed.

(** C1, on the code.  A connected session with [retryDelayMs = 1000] and
    [maxRetries = 3] loses its server, and the four attempts that follow
    all fail.  The delays armed are 1000 for the first failure and, for
    each later one, 1000 and 2000 together; no delay of 4000 is ever
    armed, [reconnectfailed] is never emitted, and after the fourth
    failure reconnect timers are still armed. *)
Theorem reconnect_backoff_restarts :
  let final := run_inputs defaultTokenConfig four_failures connected_session in
  emitted final = [close 1006; reconnecting 1 3;
                   reconnecting 1 3; reconnecting 2 3;
                   reconnecting 1 3; reconnecting 2 3;
                   reconnecting 1 3; reconnecting 2 3]
  /\ ~ In reconnectfailed (emitted final)
  /\ reconnectAttempts final = 2
  /\ map delay (List.filter (fun t => match callback t with
                                      | RunReconnect => true
                                      | RunRefresh => false
                                      end) (timers final))
     = [1000; 2000; 1000; 2000].
Proof.
  vm_compute. repeat split.
  intros H. repeat (destruct H as [H|H]; [discriminate H|]). exact H.
Qed.

(** *** [disconnect] *)

Lemma clearTimeout_not_armed h st t :
  In t (timers (clearTimeout h st)) -> handle t <> h.
Proof.
  unfold clearTimeout. simpl. intros Hin.
  apply list_elem_of_In, list_elem_of_filter in Hin. tauto.
Qed.

(** With a session open, [disconnect] does what its name says, and a
    second call returns at once. *)
Lemma disconnect_with_session st s :
  session st = Some s ->
  let st' := (disconnect st).2 in
  (disconnect st).1 = true
  /\ status st' = Disconnected
  /\ session st' = None
  /\ currentToken st' = None /\ tokenExpiresAt st' = None /\ client st' = None
  /\ refreshTimer st' = None /\ reconnectTimer st' = None
  /\ closedSessions st' = closedSessions st ++ [s]
  /\ (forall t, In t (timers st') ->
        refreshTimer st <> Some (handle t) /\ reconnectTimer st <> Some (handle t))
  /\ disconnect st' = (false, st').
Proof.
  intros Hs. destruct st; simpl in Hs; subst.
  unfold disconnect; simpl.
  destruct refreshTimer0 as [h1|]; destruct reconnectTimer0 as [h2|]; simpl.
  all: repeat (split; [reflexivity|]); (split; [|reflexivity]).
  all: intros t Hin; unfold clearTimeout in Hin; simpl in Hin.
  all: repeat (apply list_elem_of_In, list_elem_of_filter in Hin as [? Hin];
               apply list_elem_of_In in Hin).
  all: split; intros Heq; inversion Heq; subst; tauto.
Qed.

(** Without a session, [disconnect] returns at its first line. *)
Lemma disconnect_no_session st : session st = None -> disconnect st = (false, st).
Proof. intros Hs. unfold disconnect. now rewrite Hs. Qed.

(** C3, on the code.  The first [connect] of a client fails and arms the
    reconnect timer; no session was ever opened.  [disconnect] then returns
    [false] and changes nothing: the timer stays armed.  When it fires and
    the attempt succeeds, the client is connected again although it was
    told to disconnect. *)
Theorem disconnect_without_session_keeps_timer :
  session never_connected = None
  /\ timers never_connected = [{| handle := 1; delay := 1000; callback := RunReconnect |}]
  /\ disconnect never_connected = (false, never_connected)
  /\ let later :=
       run_inputs defaultTokenConfig
         [(100, CallDisconnect);
          (1050, TimerFires 1);
          (1100, TokenSettles 2 (Some half_hour_token));
          (1200, SessionSettles 1 (Some 7%nat))]
         never_connected in
     status later = Connected /\ session later = Some 7%nat
     /\ currentToken later = Some "auth_tokens/a"%string.
Proof. vm_compute. repeat split. Qed.

(** *** [scheduleTokenRefresh] *)

(** Handles stay fresh along every run. *)
Lemma fresh_same (st st' : State) :
  timers st' = timers st -> nextHandle st' = nextHandle st ->
  handles_fresh st -> handles_fresh st'.
Proof. unfold handles_fresh. now intros -> ->. Qed.

Lemma fresh_setTimeout cb d st :
  handles_fresh st -> handles_fresh (setTimeout cb d st).2.
Proof.
  unfold handles_fresh, setTimeout; simpl. intros H.
  apply Forall_app. split.
  - eapply Forall_impl; [exact H|]. simpl. lia.
  - repeat constructor.
Qed.

Lemma fresh_clearTimeout h st : handles_fresh st -> handles_fresh (clearTimeout h st).
Proof.
  unfold handles_fresh, clearTimeout; simpl. intros H.
  rewrite Forall_forall in *. intros t Ht.
  apply list_elem_of_filter in Ht as [_ Ht]. now apply H.
Qed.

Lemma fresh_scheduleReconnection cfg st :
  handles_fresh st -> handles_fresh (scheduleReconnection cfg st).
Proof.
  intros H. unfold scheduleReconnection.
  destruct (maxRetries cfg <=? reconnectAttempts st); [exact H|].
  match goal with
  | |- handles_fresh (let '(_, _) := setTimeout ?cb ?d ?s in _) =>
      pose proof (fresh_setTimeout cb d s H) as Hset
  end.
  exact Hset.
Qed.

Lemma fresh_scheduleTokenRefresh cfg now st :
  handles_fresh st -> handles_fresh (scheduleTokenRefresh cfg now st).
Proof.
  intros H. unfold scheduleTokenRefresh.
  assert (H1 : handles_fresh match refreshTimer st with
                             | Some h => clearTimeout h st
                             | None => st
                             end)
    by (destruct (refreshTimer st); [now apply fresh_clearTimeout|exact H]).
  revert H1. generalize (match refreshTimer st with
                         | Some h => clearTimeout h st
                         | None => st
                         end).
  intros st1 H1. destruct (tokenExpiresAt st1); [|exact H1].
  destruct (0 <? _); exact (fresh_setTimeout _ _ st1 H1).
Qed.

Lemma fresh_after_connect cfg caller result st :
  handles_fresh st -> handles_fresh (after_connect cfg caller result st).
Proof.
  intros H. unfold after_connect. destruct caller; [exact H|].
  destruct result as [[|]|]; try now apply fresh_scheduleReconnection.
  exact H.
Qed.

Lemma fresh_connect_failed cfg st :
  handles_fresh st -> handles_fresh (connect_failed cfg st).2.
Proof.
  intros H. unfold connect_failed.
  destruct (shouldRetryConnection _ _); [apply fresh_scheduleReconnection|]; exact H.
Qed.

Lemma fresh_connect_begin cfg caller m st :
  handles_fresh st -> handles_fresh (connect_begin cfg caller m st).
Proof.
  intros H. unfold connect_begin.
  destruct (status st); try (now apply fresh_after_connect);
    (destruct m; [unfold getValidToken; simpl;
                  destruct (pendingTokenRequest st); exact H
                 |apply fresh_after_connect; exact H]).
Qed.

Lemma fresh_disconnect st : handles_fresh st -> handles_fresh (disconnect st).2.
Proof.
  intros H. unfold disconnect. destruct (session st); [|exact H].
  cbn [snd].
  apply (fresh_same match reconnectTimer match refreshTimer st with
                                         | Some h => set_refreshTimer None (clearTimeout h st)
                                         | None => st
                                         end with
                    | Some h => clearTimeout h match refreshTimer st with
                                               | Some h' => clearTimeout h' st
                                               | None => st
                                               end
                    | None => match refreshTimer st with
                              | Some h' => clearTimeout h' st
                              | None => st
                              end
                    end).
  - destruct (refreshTimer st), (reconnectTimer st) eqn:Hr; simpl; rewrite ?Hr; reflexivity.
  - destruct (refreshTimer st), (reconnectTimer st) eqn:Hr; simpl; rewrite ?Hr; reflexivity.
  - destruct (refreshTimer st); simpl;
      destruct (reconnectTimer st); repeat apply fresh_clearTimeout; exact H.
Qed.

Lemma fresh_resume cfg now i t st :
  handles_fresh st -> handles_fresh (resume cfg now i t st).2.
Proof.
  intros H.
  destruct i, t as [p owner caller|r caller|r]; cbn [resume snd]; try exact H.
  - assert (H1 : handles_fresh (if owner then set_pendingTokenRequest None st else st))
      by (destruct owner; exact H).
    revert H1. generalize (if owner then set_pendingTokenRequest None st else st).
    intros st1 H1. unfold connect_with_token. destruct result.
    + exact H1.
    + pose proof (fresh_connect_failed cfg st1 H1) as H2.
      now destruct (connect_failed cfg st1).
  - unfold connect_with_session. destruct result.
    + cbn [snd].
      destruct (autoRefresh cfg); [apply fresh_scheduleTokenRefresh|]; exact H.
    + pose proof (fresh_connect_failed cfg st H) as H2.
      now destruct (connect_failed cfg st).
  - unfold refreshToken_end. destruct result.
    + destruct (autoRefresh cfg); [apply fresh_scheduleTokenRefresh|]; exact H.
    + apply fresh_scheduleReconnection. exact H.
Qed.

Lemma fresh_step cfg now i st : handles_fresh st -> handles_fresh (step cfg now i st).
Proof.
  intros H.
  assert (Hsettle : forall i', handles_fresh (settle cfg now i' st)).
  { intros i'. apply settle_preserves; [| |exact H].
    - intros t st0. apply fresh_resume.
    - intros caller r st0. apply fresh_after_connect. }
  destruct i; simpl; try apply Hsettle.
  - now apply fresh_connect_begin.
  - now apply fresh_disconnect.
  - exact H.
  - unfold fire. destruct (armed h st) as [t|]; [|exact H].
    destruct (callback t).
    + now apply fresh_clearTimeout.
    + apply fresh_connect_begin. now apply fresh_clearTimeout.
  - destruct (_ && _); [apply fresh_scheduleReconnection|]; exact H.
  - destruct tokenRelated; exact H.
Qed.

Lemma reachable_handles_fresh cfg st : reachable cfg st -> handles_fresh st.
Proof.
  induction 1 as [|now i st _ IH]; [constructor|now apply fresh_step].
Qed.

Lemma reachable_run cfg inputs : forall st,
  reachable cfg st -> reachable cfg (run_inputs cfg inputs st).
Proof.
  induction inputs as [|[now i] inputs IH]; intros st H; [exact H|].
  simpl. apply IH. now constructor.
Qed.

(** The example states are states of real runs. *)
Lemma examples_reachable :
  reachable defaultTokenConfig connected_session
  /\ reachable defaultTokenConfig never_connected
  /\ reachable defaultTokenConfig short_lived_refresh.
Proof.
  assert (H : reachable defaultTokenConfig connected_session)
    by (apply reachable_run; constructor).
  split; [exact H|]. split; [apply reachable_run; constructor|].
  now apply reachable_run.
Qed.

(** C7, on the code.  With a 30-minute token and a threshold of five
    minutes the refresh is armed at 25 minutes and recorded in
    [refreshTimer], as the claim says.  Then two refreshes are in flight.
    The first is answered with a token that has less than the threshold
    left: [scheduleTokenRefresh] arms a refresh for the next tick and does
    not record it, [refreshTimer] still names the timer that was cancelled.
    The second is answered in the same tick with a 30-minute token:
    [scheduleTokenRefresh] cancels the timer on record, which is not the one
    just armed, and arms the refresh at 25 minutes.  Two refresh timers are
    armed now; the one of the next tick fires and starts a refresh of the
    token that has just been obtained. *)
Theorem scheduleTokenRefresh_stacks_next_tick_timer :
  let first := short_lived_refresh in
  let second :=
    step defaultTokenConfig 1200
      (RefreshSettles 3 (Some {| token := "auth_tokens/c";
                                 expiresAt := 1200 + 30 * 60 * 1000 |})) first in
  timers connected_session
  = [{| handle := 1; delay := 25 * 60 * 1000; callback := RunRefresh |}]
  /\ refreshTimer connected_session = Some 1%nat
  /\ timers first = [{| handle := 2; delay := 0; callback := RunRefresh |}]
  /\ refreshTimer first = Some 1%nat
  /\ ~ cancels_armed_refresh defaultTokenConfig 1200 first
  /\ timers second
     = [{| handle := 2; delay := 0; callback := RunRefresh |};
        {| handle := 3; delay := 25 * 60 * 1000; callback := RunRefresh |}]
  /\ refreshTimer second = Some 3%nat
  /\ tokenExpiresAt second = Some (1200 + 30 * 60 * 1000)
  /\ tasks second = []
  /\ tasks (step defaultTokenConfig 1201 (TimerFires 2) second) = [AwaitRefresh 4].
Proof.
  cbv zeta.
  split; [vm_compute; reflexivity|]. split; [vm_compute; reflexivity|].
  split; [vm_compute; reflexivity|]. split; [vm_compute; reflexivity|].
  split.
  { intros Hclaim.
    apply (Hclaim {| handle := 2; delay := 0; callback := RunRefresh |}).
    - vm_compute. now left.
    - reflexivity.
    - vm_compute. now left. }
  split; [vm_compute; reflexivity|]. split; [vm_compute; reflexivity|].
  split; [vm_compute; reflexivity|]. split; vm_compute; reflexivity.
Qed.

(** What one call of [scheduleTokenRefresh] does, in any state in which
    the expiry of the current token is known: it arms exactly one new
    timer that runs [refreshToken], after
    [refreshIn = (expiresAt - now) - refreshThresholdMinutes * 60000] and
    recorded in [refreshTimer] when [refreshIn > 0], after 0 ms and not
    recorded otherwise; [refreshToken] is not entered by the call itself;
    and of the timers armed before the call it removes the one recorded in
    [refreshTimer] and no other. *)
Lemma scheduleTokenRefresh_arms_one_timer :
  forall (cfg : EphemeralTokenConfig) (now : Z) (st : State) (expiry : Z),
    tokenExpiresAt st = Some expiry ->
    let refreshIn := (expiry - now) - refreshThresholdMinutes cfg * 60000 in
    let st' := scheduleTokenRefresh cfg now st in
    (exists kept,
        timers st' = kept ++ [{| handle := nextHandle st;
                                 delay := if 0 <? refreshIn then refreshIn else 0;
                                 callback := RunRefresh |}]
        /\ forall t, In t kept <-> In t (timers st) /\ refreshTimer st <> Some (handle t))
    /\ (0 < refreshIn -> refreshTimer st' = Some (nextHandle st))
    /\ tasks st' = tasks st
    /\ emitted st' = emitted st
    /\ tokenExpiresAt st' = Some expiry
    /\ (handles_fresh st ->
        forall t, In t (timers st) -> refreshTimer st = Some (handle t) ->
                  ~ In t (timers st')).
Proof.
  intros cfg now st expiry Hexp refreshIn st'.
  assert (Hkept : exists kept,
             (forall t, In t kept <-> In t (timers st) /\ refreshTimer st <> Some (handle t))
             /\ st' = (if 0 <? refreshIn
                       then set_refreshTimer (Some (nextHandle st))
                       else fun s => s)
                        (set_nextHandle (S (nextHandle st))
                           (set_timers
                              (kept ++ [{| handle := nextHandle st;
                                           delay := if 0 <? refreshIn then refreshIn else 0;
                                           callback := RunRefresh |}]) st))).
  { subst st' refreshIn. unfold scheduleTokenRefresh.
    replace (refreshThresholdMinutes cfg * 60 * 1000)
      with (refreshThresholdMinutes cfg * 60000) by lia.
    destruct (refreshTimer st) as [h|] eqn:Hh.
    - exists (filter (fun t => handle t <> h) (timers st)). split.
      + intros t. rewrite <- !list_elem_of_In, list_elem_of_filter.
        split; intros [H1 H2]; split; try assumption; congruence.
      + unfold clearTimeout; simpl. rewrite Hexp.
        destruct (0 <? _); unfold setTimeout; simpl; rewrite ?Hh; reflexivity.
    - exists (timers st). split.
      + intros t. split; [intros H; split; [assumption|discriminate]|tauto].
      + rewrite Hexp. destruct (0 <? _); unfold setTimeout; simpl;
          destruct st; simpl in *; subst; reflexivity. }
  destruct Hkept as (kept & Hk & Hst').
  split; [exists kept; split; [|assumption]|].
  { rewrite Hst'. now destruct (0 <? refreshIn). }
  split; [intros Hpos; apply Z.ltb_lt in Hpos; rewrite Hst', Hpos; reflexivity|].
  split; [rewrite Hst'; now destruct (0 <? refreshIn)|].
  split; [rewrite Hst'; now destruct (0 <? refreshIn)|].
  split; [rewrite Hst'; now destruct (0 <? refreshIn)|].
  intros Hfresh t Hin Htracked Hin'.
  assert (Htimers : timers st' = kept ++ [{| handle := nextHandle st;
                                            delay := if 0 <? refreshIn then refreshIn else 0;
                                            callback := RunRefresh |}])
    by (rewrite Hst'; now destruct (0 <? refreshIn)).
  rewrite Htimers in Hin'. apply in_app_or in Hin' as [Hin'|[<-|[]]].
  - apply Hk in Hin'. tauto.
  - unfold handles_fresh in Hfresh. rewrite Forall_forall in Hfresh.
    apply list_elem_of_In, Hfresh in Hin. simpl in Hin. lia.
Qed.

(** *** Single flight of the token request *)

Lemma owners_app ts ts' : owners (ts ++ ts') = owners ts ++ owners ts'.
Proof. apply flat_map_app. Qed.

Lemma tasks_scheduleReconnection cfg st :
  tasks (scheduleReconnection cfg st) = tasks st.
Proof.
  unfold scheduleReconnection.
  now destruct (maxRetries cfg <=? reconnectAttempts st).
Qed.

Lemma tasks_scheduleTokenRefresh cfg now st :
  tasks (scheduleTokenRefresh cfg now st) = tasks st.
Proof.
  unfold scheduleTokenRefresh.
  destruct (refreshTimer st); simpl;
    (destruct (tokenExpiresAt st); [destruct (0 <? _)|]; reflexivity).
Qed.

Lemma tasks_after_connect cfg caller result st :
  tasks (after_connect cfg caller result st) = tasks st.
Proof.
  unfold after_connect.
  destruct caller; [reflexivity|].
  destruct result as [[|]|]; try apply tasks_scheduleReconnection.
  reflexivity.
Qed.

Lemma tasks_connect_failed cfg st :
  tasks (connect_failed cfg st).2 = tasks st.
Proof.
  unfold connect_failed. destruct (shouldRetryConnection _ _); cbn [snd].
  - now rewrite tasks_scheduleReconnection.
  - reflexivity.
Qed.

Lemma tasks_connect_with_session cfg now result st :
  tasks (connect_with_session cfg now result st).2 = tasks st.
Proof.
  unfold connect_with_session. destruct result as [s|].
  - cbn [snd].
    destruct (autoRefresh cfg); [now rewrite tasks_scheduleTokenRefresh|reflexivity].
  - pose proof (tasks_connect_failed cfg st) as H.
    now destruct (connect_failed cfg st).
Qed.

Lemma tasks_refreshToken_end cfg now result st :
  tasks (refreshToken_end cfg now result st) = tasks st.
Proof.
  unfold refreshToken_end. destruct result as [tok|].
  - destruct (autoRefresh cfg); [now rewrite tasks_scheduleTokenRefresh|reflexivity].
  - now rewrite tasks_scheduleReconnection.
Qed.

Lemma flight_scheduleReconnection cfg st :
  flight (scheduleReconnection cfg st) = flight st.
Proof.
  unfold flight, scheduleReconnection.
  now destruct (maxRetries cfg <=? reconnectAttempts st).
Qed.

Lemma flight_scheduleTokenRefresh cfg now st :
  flight (scheduleTokenRefresh cfg now st) = flight st.
Proof.
  unfold flight, scheduleTokenRefresh.
  destruct (refreshTimer st); simpl;
    (destruct (tokenExpiresAt st); [destruct (0 <? _)|]; reflexivity).
Qed.

Lemma flight_after_connect cfg caller result st :
  flight (after_connect cfg caller result st) = flight st.
Proof.
  unfold after_connect.
  destruct caller; [reflexivity|].
  destruct result as [[|]|]; try apply flight_scheduleReconnection.
  reflexivity.
Qed.

Lemma flight_connect_failed cfg st :
  flight (connect_failed cfg st).2 = flight st.
Proof.
  unfold connect_failed. destruct (shouldRetryConnection _ _); cbn [snd].
  - now rewrite flight_scheduleReconnection.
  - reflexivity.
Qed.

Lemma flight_connect_with_token cfg caller result st :
  flight (connect_with_token cfg caller result st).2 = flight st.
Proof.
  unfold connect_with_token. destruct result as [t|].
  - unfold flight; simpl. rewrite owners_app; simpl. now rewrite app_nil_r.
  - pose proof (flight_connect_failed cfg st) as H.
    now destruct (connect_failed cfg st).
Qed.

Lemma flight_connect_with_session cfg now result st :
  flight (connect_with_session cfg now result st).2 = flight st.
Proof.
  unfold connect_with_session. destruct result as [s|].
  - cbn [snd].
    destruct (autoRefresh cfg); [now rewrite flight_scheduleTokenRefresh|reflexivity].
  - pose proof (flight_connect_failed cfg st) as H.
    now destruct (connect_failed cfg st).
Qed.

Lemma flight_refreshToken_begin st : flight (refreshToken_begin st) = flight st.
Proof.
  unfold flight, refreshToken_begin; simpl.
  rewrite owners_app; simpl. now rewrite app_nil_r.
Qed.

Lemma flight_refreshToken_end cfg now result st :
  flight (refreshToken_end cfg now result st) = flight st.
Proof.
  unfold refreshToken_end. destruct result as [t|].
  - destruct (autoRefresh cfg); [now rewrite flight_scheduleTokenRefresh|reflexivity].
  - now rewrite flight_scheduleReconnection.
Qed.

Lemma flight_disconnect st : flight (disconnect st).2 = flight st.
Proof.
  destruct st. unfold flight, disconnect. simpl.
  repeat case_match; reflexivity.
Qed.

(** While a fetch is in flight, [getValidToken] joins it. *)
Lemma getValidToken_joins caller st p :
  pendingTokenRequest st = Some p ->
  getValidToken caller st = park (AwaitToken p false caller) st.
Proof. intros Hp. unfold getValidToken. now rewrite Hp. Qed.

Lemma flight_getValidToken caller st :
  flight (getValidToken caller st)
  = match pendingTokenRequest st with
    | Some _ => flight st
    | None => (Some (nextPromise st), owners (tasks st) ++ [nextPromise st],
               S (nextPromise st))
    end.
Proof.
  unfold getValidToken, flight.
  destruct (pendingTokenRequest st) as [p|] eqn:Hp; simpl;
    rewrite ?Hp, owners_app; simpl; now rewrite ?app_nil_r.
Qed.

Lemma flight_connect_begin cfg caller model st :
  flight (connect_begin cfg caller model st)
  = if admits_connect st && bool_decide (is_Some model)
    then match pendingTokenRequest st with
         | Some _ => flight st
         | None => (Some (nextPromise st), owners (tasks st) ++ [nextPromise st],
                    S (nextPromise st))
         end
    else flight st.
Proof.
  unfold connect_begin, admits_connect.
  destruct (status st); simpl; try apply flight_after_connect;
    (destruct model as [m|]; simpl;
     [now rewrite flight_getValidToken|now rewrite flight_after_connect]).
Qed.

(** Settling: which owners are woken, which stay parked. *)
Lemma owners_parked i ts :
  owners (List.filter (fun t => negb (wakes i t)) ts)
  = List.filter (fun p => match i with
                          | TokenSettles q _ => negb (Nat.eqb q p)
                          | _ => true
                          end) (owners ts).
Proof.
  destruct i; induction ts as [|t ts IH]; try reflexivity; simpl in *;
    destruct t as [p [|] caller|r caller|r]; simpl;
    try destruct (Nat.eqb _ _); simpl; rewrite ?IH; reflexivity.
Qed.

Lemma owners_woken i ts :
  owners (List.filter (wakes i) ts)
  = List.filter (fun p => match i with
                          | TokenSettles q _ => Nat.eqb q p
                          | _ => false
                          end) (owners ts).
Proof.
  destruct i; induction ts as [|t ts IH]; try reflexivity; simpl in *;
    destruct t as [p [|] caller|r caller|r]; simpl;
    try destruct (Nat.eqb _ _); simpl; rewrite ?IH; reflexivity.
Qed.

(** A settlement leaves no call parked on what has settled: the calls it
    resumes park, if at all, on something new. *)
Lemma tasks_resumed cfg now i t st :
  exists added, tasks (resume cfg now i t st).2 = tasks st ++ added
                /\ Forall (fun t' => wakes i t' = false) added.
Proof.
  assert (Hsame : forall st', tasks st' = tasks st ->
            exists added, tasks st' = tasks st ++ added
                          /\ Forall (fun t' => wakes i t' = false) added).
  { intros st' H. exists []. rewrite app_nil_r. split; [assumption|constructor]. }
  destruct i as [m| | |q result|q result|q result|h|code|related];
    destruct t as [p owner caller|r caller|r]; cbn [resume snd]; try (now apply Hsame).
  - destruct result as [tok|]; cbn [connect_with_token snd].
    + eexists. split; [destruct owner; reflexivity|repeat constructor].
    + apply Hsame.
      pose proof (tasks_connect_failed cfg
                    (if owner then set_pendingTokenRequest None st else st)) as H.
      destruct (connect_failed cfg _) as [r st1]. cbn [snd] in *.
      rewrite H. now destruct owner.
  - apply Hsame.
    pose proof (tasks_connect_with_session cfg now result st) as H.
    now destruct (connect_with_session cfg now result st).
  - apply Hsame, tasks_refreshToken_end.
Qed.

Lemma tasks_resume_callers cfg ended : forall st,
  tasks (resume_callers cfg ended st) = tasks st.
Proof.
  unfold resume_callers.
  induction ended as [|[caller r] ended IH]; intros st; [reflexivity|].
  cbn [fold_left fst snd]. now rewrite IH, tasks_after_connect.
Qed.

Lemma settle_wakes_all cfg now i st t :
  wakes i t = true -> ~ In t (tasks (settle cfg now i st)).
Proof.
  intros Hw.
  apply (settle_preserves cfg now i (fun st0 => ~ In t (tasks st0))).
  - intros t' st0 Hnot.
    destruct (tasks_resumed cfg now i t' st0) as (added & -> & Hadded).
    intros Hin. apply in_app_or in Hin as [Hin|Hin]; [now apply Hnot|].
    apply list_elem_of_In in Hin. rewrite Forall_forall in Hadded.
    apply Hadded in Hin. congruence.
  - intros caller r st0 Hnot. now rewrite tasks_after_connect.
  - simpl. intros Hin. apply filter_In in Hin as [_ Hin].
    rewrite Hw in Hin. discriminate.
Qed.

Lemma flight_resume cfg now i t st :
  flight (resume cfg now i t st).2
  = (if clears i t then None else pendingTokenRequest st,
     owners (tasks st), nextPromise st).
Proof.
  destruct i, t as [p [|] caller|r caller|r]; cbn [resume snd clears]; try reflexivity.
  - pose proof (flight_connect_with_token cfg caller result
                  (set_pendingTokenRequest None st)) as H.
    now destruct (connect_with_token cfg caller result _).
  - pose proof (flight_connect_with_token cfg caller result st) as H.
    now destruct (connect_with_token cfg caller result st).
  - pose proof (flight_connect_with_session cfg now result st) as H.
    now destruct (connect_with_session cfg now result st).
  - now rewrite flight_refreshToken_end.
Qed.

Lemma flight_resume_all cfg now i woken : forall st,
  flight (resume_all cfg now i woken st).2
  = (if existsb (clears i) woken then None else pendingTokenRequest st,
     owners (tasks st), nextPromise st).
Proof.
  induction woken as [|t woken IH]; intros st; [reflexivity|].
  cbn [resume_all existsb].
  pose proof (flight_resume cfg now i t st) as Hr.
  destruct (resume cfg now i t st) as [ended st1]. cbn [snd] in Hr.
  specialize (IH st1). destruct (resume_all cfg now i woken st1) as [ended' st2].
  cbn [snd] in *. rewrite IH.
  unfold flight in Hr. injection Hr as Hp Ho Hn. rewrite Hp, Ho, Hn.
  destruct (clears i t); simpl; [|reflexivity].
  now destruct (existsb (clears i) woken).
Qed.

Lemma flight_resume_callers cfg ended : forall st,
  flight (resume_callers cfg ended st) = flight st.
Proof.
  unfold resume_callers.
  induction ended as [|[caller r] ended IH]; intros st; [reflexivity|].
  cbn [fold_left fst snd]. now rewrite IH, flight_after_connect.
Qed.

Lemma clears_woken i ts :
  existsb (clears i) (List.filter (wakes i) ts)
  = match owners (List.filter (wakes i) ts) with
    | [] => false
    | _ :: _ => true
    end.
Proof.
  destruct i; induction ts as [|t ts IH]; try reflexivity; simpl in *;
    destruct t as [p [|] caller|r caller|r]; simpl;
    try destruct (Nat.eqb _ _); simpl; rewrite ?IH; reflexivity.
Qed.

Lemma flight_settle cfg now i st :
  flight (settle cfg now i st)
  = (match owners (List.filter (wakes i) (tasks st)) with
     | [] => pendingTokenRequest st
     | _ :: _ => None
     end,
     owners (List.filter (fun t => negb (wakes i t)) (tasks st)),
     nextPromise st).
Proof.
  unfold settle.
  pose proof (flight_resume_all cfg now i (List.filter (wakes i) (tasks st))
                (set_tasks (List.filter (fun t => negb (wakes i t)) (tasks st)) st)) as H.
  destruct (resume_all cfg now i _ _) as [ended st1]. cbn [snd] in H.
  rewrite flight_resume_callers, H, clears_woken. simpl.
  now destruct (owners (List.filter (wakes i) (tasks st))).
Qed.

Lemma flight_fire cfg h st :
  flight (fire cfg h st) = flight st
  \/ (pendingTokenRequest st = None
      /\ flight (fire cfg h st)
         = (Some (nextPromise st), owners (tasks st) ++ [nextPromise st],
            S (nextPromise st))).
Proof.
  unfold fire. destruct (armed h st) as [t|]; [|now left].
  destruct (callback t).
  - left. now rewrite flight_refreshToken_begin.
  - rewrite flight_connect_begin.
    destruct (_ && _); [|now left].
    simpl. destruct (pendingTokenRequest st); [now left|right].
    split; reflexivity.
Qed.

(** Any step leaves the token request as it is, starts the one fetch, or
    settles it. *)
Lemma flight_step cfg now i st :
  single_flight st ->
  flight (step cfg now i st) = flight st
  \/ (pendingTokenRequest st = None
      /\ flight (step cfg now i st)
         = (Some (nextPromise st), [nextPromise st], S (nextPromise st)))
  \/ (exists r, i = TokenSettles (default 0%nat (pendingTokenRequest st)) r
                /\ is_Some (pendingTokenRequest st)
                /\ flight (step cfg now i st) = (None, [], nextPromise st)).
Proof.
  intros Hsf. unfold single_flight in Hsf.
  assert (Hstart : forall st', flight st' = flight st \/
              (pendingTokenRequest st = None
               /\ flight st' = (Some (nextPromise st),
                                owners (tasks st) ++ [nextPromise st],
                                S (nextPromise st))) ->
            flight st' = flight st \/
              (pendingTokenRequest st = None
               /\ flight st' = (Some (nextPromise st), [nextPromise st],
                                S (nextPromise st)))).
  { intros st' [H|[Hp H]]; [now left|right]. split; [assumption|].
    rewrite H, Hsf, Hp. reflexivity. }
  destruct i as [m| | |q r|q r|q r|h|code|related]; simpl.
  - destruct (Hstart (connect_begin cfg ByUser (Some m) st)) as [H|H];
      [|now left|now right; left].
    rewrite flight_connect_begin.
    destruct (_ && _); [|now left].
    destruct (pendingTokenRequest st); [now left|right]. split; reflexivity.
  - left. apply flight_disconnect.
  - left. apply flight_refreshToken_begin.
  - rewrite flight_settle, owners_woken, owners_parked. unfold flight. rewrite !Hsf.
    destruct (pendingTokenRequest st) as [p|] eqn:Hp; simpl; [|now left].
    destruct (Nat.eqb q p) eqn:Hq; simpl; [|now left].
    apply Nat.eqb_eq in Hq as ->. right; right. exists r. repeat split. now exists p.
  - left. rewrite flight_settle, owners_woken, owners_parked.
    unfold flight. rewrite !Hsf.
    now destruct (pendingTokenRequest st).
  - left. rewrite flight_settle, owners_woken, owners_parked.
    unfold flight. rewrite !Hsf.
    now destruct (pendingTokenRequest st).
  - destruct (Hstart (fire cfg h st) (flight_fire cfg h st)) as [H|H];
      [now left|now right; left].
  - left. destruct (_ && _); [now rewrite flight_scheduleReconnection|reflexivity].
  - left. destruct related; [now rewrite flight_refreshToken_begin|reflexivity].
Qed.

Lemma single_flight_step cfg now i st :
  single_flight st -> single_flight (step cfg now i st).
Proof.
  intros Hsf.
  destruct (flight_step cfg now i st Hsf) as [H|[[_ H]|(r & _ & _ & H)]];
    unfold flight in H; injection H as Hp Ho Hn;
    unfold single_flight; rewrite Hp, Ho; [exact Hsf|reflexivity|reflexivity].
Qed.

Lemma reachable_single_flight cfg st : reachable cfg st -> single_flight st.
Proof.
  induction 1 as [|now i st _ IH]; [reflexivity|].
  now apply single_flight_step.
Qed.

(** C2.  In every state the client can reach in which a token fetch is in
    flight ([pendingTokenRequest] holds its promise [p]): every caller of
    [getValidToken] is parked on [p]; whatever happens next, no further
    fetch is started; and when [p] settles, with a token or without, the
    marker is cleared and every call parked on [p] has been resumed.  In
    every reachable state with no fetch in flight and a status that admits
    [connect], two calls of [connect] in a row start exactly one fetch:
    the second call finds the status [Connecting] and returns. *)
Theorem token_request_single_flight :
  forall (cfg : EphemeralTokenConfig) (st : State),
    reachable cfg st ->
    (forall p, pendingTokenRequest st = Some p ->
       (forall caller,
           getValidToken caller st = park (AwaitToken p false caller) st
           /\ nextPromise (getValidToken caller st) = nextPromise st)
       /\ (forall now i, nextPromise (step cfg now i st) = nextPromise st)
       /\ (forall now result,
              let st' := step cfg now (TokenSettles p result) st in
              pendingTokenRequest st' = None
              /\ forall owner caller, ~ In (AwaitToken p owner caller) (tasks st')))
    /\ (pendingTokenRequest st = None -> admits_connect st = true ->
        forall now1 now2 model1 model2,
          let st1 := step cfg now1 (CallConnect model1) st in
          let st2 := step cfg now2 (CallConnect model2) st1 in
          nextPromise st1 = S (nextPromise st)
          /\ pendingTokenRequest st1 = Some (nextPromise st)
          /\ st2 = st1).
Proof.
  intros cfg st Hreach.
  pose proof (reachable_single_flight cfg st Hreach) as Hsf.
  split.
  - intros p Hp. split; [|split].
    + intros caller. rewrite (getValidToken_joins caller st p Hp). now split.
    + intros now i.
      destruct (flight_step cfg now i st Hsf) as [H|[[Hnone _]|(r & _ & _ & H)]];
        [|congruence|]; unfold flight in H; now injection H.
    + intros now result st'. subst st'. split.
      * destruct (flight_step cfg now (TokenSettles p result) st Hsf)
          as [H|[[Hnone _]|(r & _ & _ & H)]]; [|congruence|].
        -- exfalso. simpl in H. rewrite flight_settle, owners_woken in H.
           unfold single_flight in Hsf. rewrite Hsf, Hp in H. simpl in H.
           rewrite Nat.eqb_refl in H. simpl in H. unfold flight in H.
           rewrite Hp in H. discriminate H.
        -- unfold flight in H. now injection H.
      * intros owner caller Hin. simpl in Hin.
        apply (settle_wakes_all cfg now (TokenSettles p result) st
                 (AwaitToken p owner caller)); [|assumption].
        simpl. apply Nat.eqb_refl.
  - intros Hnone Hadm now1 now2 model1 model2 st1 st2. subst st1 st2.
    simpl. rewrite (connect_begin_starts cfg ByUser model1 st Hadm Hnone).
    split; [reflexivity|]. split; [reflexivity|].
    now apply connect_begin_busy.
Qed.

Lemma token_request_single_flight_witness :
  let st := step defaultTokenConfig 0 (CallConnect "models/live") initial in
  pendingTokenRequest st = Some 1%nat
  /\ (forall now i, nextPromise (step defaultTokenConfig now i st) = nextPromise st)
  /\ (forall now result,
        pendingTokenRequest (step defaultTokenConfig now (TokenSettles 1 result) st) = None)
  /\ st = step defaultTokenConfig 1 (CallConnect "models/live") st.
Proof.
  pose proof (token_request_single_flight defaultTokenConfig
                (step defaultTokenConfig 0 (CallConnect "models/live") initial)
                (reachable_step _ 0 (CallConnect "models/live") initial
                   (reachable_initial _))) as [Hflight _].
  destruct (Hflight 1%nat eq_refl) as (_ & Hnone & Hclear).
  pose proof (token_request_single_flight defaultTokenConfig initial
                (reachable_initial _)) as [_ Htwice].
  destruct (Htwice eq_refl eq_refl 0 1 "models/live"%string "models/live"%string)
    as (_ & _ & Hsame).
  split; [reflexivity|]. split; [exact Hnone|].
  split; [intros now result; apply (Hclear now result)|].
  symmetry. exact Hsame.
Defined.

End ClientFacts.

(** ** More on the security middleware *)

Module SecurityCoverage.
Import Security SecurityAdmin.

(** *** Admission inside one window *)

Lemma window_admissions cfg k times : forall store e,
  store !! k = Some e ->
  Forall (fun t => t - windowStart e < windowMs cfg) times ->
  forall (i : nat) r,
    (checkAll cfg k times store).1 !! i = Some r ->
    allowed r = bool_decide (count e + Z.of_nat i < maxRequests cfg)
    /\ remaining r = Z.max 0 (maxRequests cfg - (count e + Z.of_nat i + 1))
       * (if allowed r then 1 else 0)
    /\ (allowed r = false -> 0 < retryAfter r).
Proof.
  induction times as [|t times IH]; intros store e He Hall i r Hr;
    [destruct i; discriminate|].
  inversion Hall as [|? ? Ht Hrest]; subst. simpl in Hr.
  destruct (Z_lt_le_dec (count e) (maxRequests cfg)) as [Hc|Hc].
  - rewrite (SecurityFacts.check_counts cfg k store t e He Ht Hc) in Hr.
    set (e1 := {| count := count e + 1; windowStart := windowStart e;
                  blocked := blocked e; lastReset := lastReset e |}) in *.
    pose proof (IH (<[k:=e1]> store) e1 (lookup_insert_eq _ _ _) Hrest) as IH1.
    destruct (checkAll cfg k times (<[k:=e1]> store)) as [rs s2].
    destruct i as [|i]; simpl in Hr.
    + inversion Hr; subst r; simpl.
      rewrite bool_decide_eq_true_2 by lia. split; [reflexivity|].
      split; [lia|discriminate].
    + destruct (IH1 i r Hr) as (Ha & Hrem & Hretry). simpl in Ha, Hrem.
      split; [rewrite Ha; apply bool_decide_ext; lia|].
      split; [rewrite Hrem; f_equal; f_equal; lia|assumption].
  - rewrite (SecurityFacts.check_blocks cfg k store t e He Ht Hc) in Hr.
    set (e1 := {| count := count e; windowStart := windowStart e;
                  blocked := true; lastReset := lastReset e |}) in *.
    pose proof (IH (<[k:=e1]> store) e1 (lookup_insert_eq _ _ _) Hrest) as IH1.
    destruct (checkAll cfg k times (<[k:=e1]> store)) as [rs s2].
    destruct i as [|i]; simpl in Hr.
    + inversion Hr; subst r; simpl.
      rewrite bool_decide_eq_false_2 by lia. split; [reflexivity|].
      split; [lia|]. intros _. apply SecurityFacts.ceil_div_pos. lia.
    + destruct (IH1 i r Hr) as (Ha & Hrem & Hretry). simpl in Ha, Hrem.
      split; [rewrite Ha; apply bool_decide_ext; lia|].
      split; [|assumption].
      rewrite Hrem, Ha. rewrite bool_decide_eq_false_2 by lia. lia.
Qed.

(** X1.  For any limits with [maxRequests >= 1], any client and any store:
    when a call opens a window and any number of further calls of the client
    fall inside it, the call number [i] (counting from 0) is admitted exactly
    when [i < maxRequests]; an admitted call reports
    [remaining = maxRequests - (i + 1)], a refused one [remaining = 0] and a
    positive [retryAfter]. *)
Theorem window_admits_first_calls :
  forall (cfg : RateLimitConfig) (k : string) (store : gmap string RateLimitEntry)
         (t0 : Z) (times : list Z),
    1 <= maxRequests cfg ->
    opens_window cfg k store t0 ->
    Forall (fun t => t - t0 < windowMs cfg) times ->
    forall (i : nat) r,
      (checkAll cfg k (t0 :: times) store).1 !! i = Some r ->
      allowed r = bool_decide (Z.of_nat i < maxRequests cfg)
      /\ remaining r = (if allowed r then maxRequests cfg - (Z.of_nat i + 1) else 0)
      /\ (allowed r = false -> 0 < retryAfter r).
Proof.
  intros cfg k store t0 times Hmax Hopen Hin i r Hr. simpl in Hr.
  rewrite (SecurityFacts.check_opens cfg k store t0 Hopen) in Hr.
  pose proof (window_admissions cfg k times (<[k:=fresh t0]> store) (fresh t0)
                (lookup_insert_eq _ _ _) Hin) as Hrun.
  destruct (checkAll cfg k times (<[k:=fresh t0]> store)) as [rs s2].
  destruct i as [|i]; simpl in Hr.
  - inversion Hr; subst r; simpl.
    rewrite bool_decide_eq_true_2 by lia. split; [reflexivity|]. split; [lia|discriminate].
  - destruct (Hrun i r Hr) as (Ha & Hrem & Hretry). simpl in Ha, Hrem.
    split; [rewrite Ha; apply bool_decide_ext; lia|].
    split; [|assumption].
    rewrite Hrem. destruct (allowed r); [|lia].
    symmetry in Ha. apply bool_decide_eq_true_1 in Ha. lia.
Qed.

Lemma window_admits_first_calls_witness :
  exists r,
    (checkAll {| windowMs := 60000; maxRequests := 2 |} "client" [0; 10; 20; 30] ∅).1
      !! 2%nat = Some r
    /\ allowed r = false /\ remaining r = 0 /\ 0 < retryAfter r.
Proof.
  destruct ((checkAll {| windowMs := 60000; maxRequests := 2 |} "client"
               [0; 10; 20; 30] ∅).1 !! 2%nat) as [r|] eqn:Hr;
    [|vm_compute in Hr; discriminate].
  exists r. split; [reflexivity|].
  destruct (window_admits_first_calls {| windowMs := 60000; maxRequests := 2 |}
              "client" ∅ 0 [10; 20; 30]) with (i := 2%nat) (r := r)
    as (Ha & Hrem & Hretry).
  - simpl. lia.
  - exact I.
  - repeat constructor.
  - exact Hr.
  - rewrite bool_decide_eq_false_2 in Ha by (simpl; lia).
    rewrite Ha in Hrem. split; [exact Ha|]. split; [exact Hrem|now apply Hretry].
Defined.

(** *** One client at a time *)

Lemma check_local cfg now k (s1 s2 : gmap string RateLimitEntry) :
  s1 !! k = s2 !! k ->
  (checkRateLimit cfg now k s1).1 = (checkRateLimit cfg now k s2).1
  /\ (checkRateLimit cfg now k s1).2 !! k = (checkRateLimit cfg now k s2).2 !! k.
Proof.
  intros Heq. unfold checkRateLimit. rewrite Heq.
  destruct (s2 !! k) as [e|]; [|simpl; now rewrite !lookup_insert_eq].
  destruct (_ <=? _); [simpl; now rewrite !lookup_insert_eq|].
  destruct (_ <=? _); simpl; now rewrite !lookup_insert_eq.
Qed.

Lemma checkAll_local cfg k times : forall (s1 s2 : gmap string RateLimitEntry),
  s1 !! k = s2 !! k ->
  (checkAll cfg k times s1).1 = (checkAll cfg k times s2).1.
Proof.
  induction times as [|t times IH]; intros s1 s2 Heq; [reflexivity|].
  simpl. destruct (check_local cfg t k s1 s2 Heq) as [Hr Hs].
  destruct (checkRateLimit cfg t k s1) as [r1 s1'].
  destruct (checkRateLimit cfg t k s2) as [r2 s2']. simpl in *.
  specialize (IH s1' s2' Hs).
  destruct (checkAll cfg k times s1'), (checkAll cfg k times s2'). simpl in *.
  congruence.
Qed.

(** X2.  Whatever the other clients do, a client is answered as if it were
    alone: in any sequence of calls, the results given to client [k] are
    those of [k]'s own calls made one after the other on the same store. *)
Theorem rate_limit_is_per_client :
  forall (cfg : RateLimitConfig) (k : string) (calls : list (Z * string))
         (store : gmap string RateLimitEntry),
    results_of k (serve cfg calls store).1
    = (checkAll cfg k (times_of k calls) store).1.
Proof.
  intros cfg k calls.
  assert (Hgen : forall (s1 s2 : gmap string RateLimitEntry),
             s1 !! k = s2 !! k ->
             results_of k (serve cfg calls s1).1
             = (checkAll cfg k (times_of k calls) s2).1).
  { induction calls as [|[now k'] calls IH]; intros s1 s2 Heq; [reflexivity|].
    simpl. unfold times_of, results_of in *. simpl.
    destruct (String.eqb k' k) eqn:Hk.
    - apply String.eqb_eq in Hk. subst k'. simpl.
      destruct (check_local cfg now k s1 s2 Heq) as [Hr Hs].
      destruct (checkRateLimit cfg now k s1) as [r1 s1'].
      destruct (checkRateLimit cfg now k s2) as [r2 s2']. simpl in *.
      specialize (IH s1' s2' Hs).
      destruct (serve cfg calls s1') as [rs s1''].
      simpl. rewrite String.eqb_refl. simpl.
      destruct (checkAll cfg k _ s2') as [rs2 s2'']. simpl in *. congruence.
    - apply String.eqb_neq in Hk.
      pose proof (SecurityFacts.check_other cfg k s1 now k' Hk) as Hother.
      destruct (checkRateLimit cfg now k' s1) as [r1 s1']. simpl in Hother.
      specialize (IH s1' s2 ltac:(congruence)).
      destruct (serve cfg calls s1') as [rs s1''].
      simpl. apply String.eqb_neq in Hk. rewrite Hk. exact IH. }
  intros store. now apply Hgen.
Qed.

(** *** The sweep and the administrator's reset *)

Lemma window_sweep_lookup cfg now (store : gmap string RateLimitEntry) k :
  cleanup cfg now store !! k
  = match store !! k with
    | Some e => if windowMs cfg * 2 <? now - windowStart e then None else Some e
    | None => None
    end.
Proof.
  unfold cleanup. destruct (store !! k) as [e|] eqn:He.
  - destruct (_ <? _) eqn:Hold.
    + apply map_lookup_filter_None. right. intros e' He' Hkeep. simpl in Hkeep.
      rewrite He in He'. inversion He'; subst. rewrite Hold in Hkeep. discriminate.
    + apply map_lookup_filter_Some. split; [assumption|]. simpl. now rewrite Hold.
  - apply map_lookup_filter_None. now left.
Qed.

(** X3.  The periodic sweep of the rate-limit store cannot be observed by a
    client: with a window of non-negative length, any call made at or after
    the time of the sweep is answered, and recorded, exactly as if the sweep
    had not run. *)
Theorem sweep_is_not_observable :
  forall (cfg : RateLimitConfig) (now now' : Z) (k : string)
         (store : gmap string RateLimitEntry),
    0 <= windowMs cfg ->
    now <= now' ->
    (checkRateLimit cfg now' k (cleanup cfg now store)).1
    = (checkRateLimit cfg now' k store).1
    /\ (checkRateLimit cfg now' k (cleanup cfg now store)).2 !! k
       = (checkRateLimit cfg now' k store).2 !! k.
Proof.
  intros cfg now now' k store Hw Hle.
  unfold checkRateLimit at 1 3. rewrite window_sweep_lookup.
  unfold checkRateLimit.
  destruct (store !! k) as [e|]; [|simpl; now rewrite !lookup_insert_eq].
  destruct (windowMs cfg * 2 <? now - windowStart e) eqn:Hold.
  - apply Z.ltb_lt in Hold.
    assert ((windowMs cfg <=? now' - windowStart e) = true) as ->
        by (apply Z.leb_le; lia).
    simpl. now rewrite !lookup_insert_eq.
  - destruct (_ <=? _); [simpl; now rewrite !lookup_insert_eq|].
    destruct (_ <=? _); simpl; now rewrite !lookup_insert_eq.
Qed.

Lemma sweep_is_not_observable_witness :
  let store : gmap string RateLimitEntry :=
    {[ "client"%string := {| count := 10; windowStart := 0;
                             blocked := true; lastReset := 0 |} ]} in
  (checkRateLimit hourly 7200002 "client" (cleanup hourly 7200001 store)).1
  = (checkRateLimit hourly 7200002 "client" store).1
  /\ (checkRateLimit hourly 7200002 "client" (cleanup hourly 7200001 store)).2 !! "client"%string
     = (checkRateLimit hourly 7200002 "client" store).2 !! "client"%string.
Proof.
  intros store.
  apply (sweep_is_not_observable hourly 7200001 7200002 "client" store).
  - simpl. lia.
  - lia.
Defined.

(** X4.  [clearRateLimit] tells whether the client had a window, and gives
    the client a clean slate: its next call is admitted with
    [remaining = maxRequests - 1] however many calls it had made, and the
    windows of the other clients are untouched. *)
Theorem clearRateLimit_readmits :
  forall (cfg : RateLimitConfig) (now : Z) (k : string)
         (store : gmap string RateLimitEntry),
    let cleared := clearRateLimit k store in
    let next := checkRateLimit cfg now k cleared.2 in
    (cleared.1 = true <-> is_Some (store !! k))
    /\ allowed next.1 = true
    /\ remaining next.1 = maxRequests cfg - 1
    /\ next.2 !! k = Some (fresh now)
    /\ (forall k', k' <> k -> cleared.2 !! k' = store !! k').
Proof.
  intros cfg now k store. simpl.
  split; [apply bool_decide_eq_true|].
  unfold checkRateLimit. rewrite lookup_delete_eq. simpl.
  repeat split.
  - apply lookup_insert_eq.
  - intros k' Hne. now apply lookup_delete_ne.
Qed.

(** *** What [secureEndpoint] answers *)

(** X5.  A request refused by [validateRequest] is answered with the
    reason and the status of the refusal (403, 413, 405 or 415); the wrapped
    handler has no part in the answer, and the client's rate-limit window is
    not touched. *)
Theorem refused_request_is_not_served :
  forall node_env cfg now request handler st reason statusCode,
    validateRequest cfg request = Invalid reason statusCode ->
    let out := secureEndpoint node_env cfg now request handler st in
    status out.1 = statusCode
    /\ In statusCode [403; 413; 405; 415]
    /\ body out.1 = ErrorBody reason
    /\ rateLimitStore out.2 = rateLimitStore st
    /\ forall handler', secureEndpoint node_env cfg now request handler' st = out.
Proof.
  intros node_env cfg now request handler st reason statusCode Hv out. subst out.
  pose proof (SecurityFacts.validateRequest_codes cfg request reason statusCode Hv) as Hcode.
  unfold secureEndpoint. rewrite Hv. simpl.
  split; [|split; [exact Hcode|]].
  - simpl in Hcode. destruct Hcode as [<-|[<-|[<-|[<-|[]]]]]; reflexivity.
  - split; [reflexivity|]. split; [apply SecurityFacts.auditLog_store|reflexivity].
Qed.

Lemma refused_request_is_not_served_witness :
  let out := secureEndpoint None (defaultConfig None) 0 put_request
               ok_handler idle in
  status out.1 = 405 /\ body out.1 = ErrorBody "Method not allowed".
Proof.
  intros out.
  destruct (refused_request_is_not_served None (defaultConfig None) 0 put_request
              ok_handler idle
              "Method not allowed" 405) as (Hs & _ & Hb & _).
  - vm_compute. reflexivity.
  - split; assumption.
Defined.

(** X6.  With the limiter on, a request that passes validation is counted
    against its client's window whatever becomes of it: the store of windows
    after the request is the one [checkRateLimit] leaves, whether the
    handler returns, throws, or is not run because the client is over its
    limit. *)
Theorem accepted_request_is_counted :
  forall node_env cfg now request handler st,
    limiter_on node_env cfg = true ->
    validateRequest cfg request = Valid ->
    rateLimitStore (secureEndpoint node_env cfg now request handler st).2
    = (checkRateLimit (rateLimitConfig cfg) now (getClientIdentifier request)
         (rateLimitStore st)).2.
Proof.
  intros node_env cfg now request handler st Hon Hv.
  unfold limiter_on in Hon. unfold secureEndpoint. rewrite Hv, Hon.
  destruct (checkRateLimit _ now _ (rateLimitStore st)) as [r store].
  destruct (negb (allowed r)); simpl;
    [|destruct (handler request)]; simpl; now rewrite SecurityFacts.auditLog_store.
Qed.

Lemma accepted_request_is_counted_witness :
  rateLimitStore (secureEndpoint (Some "production"%string)
                    (defaultConfig (Some "production"%string)) 5 curl_request
                    failing_handler idle).2
  = (checkRateLimit hourly 5 (getClientIdentifier curl_request) ∅).2.
Proof.
  apply (accepted_request_is_counted (Some "production"%string)
           (defaultConfig (Some "production"%string)) 5 curl_request failing_handler idle).
  - reflexivity.
  - vm_compute. reflexivity.
Defined.

(** X7.  With the limiter on, a valid request of a client that has used up
    its window is answered 429 'Too many requests' without running the
    handler; the [Retry-After] header carries the [retryAfter] of the body,
    which is at least one second, and [X-RateLimit-Remaining] is 0. *)
Theorem throttled_request_is_told_when_to_retry :
  forall node_env cfg now request handler st e,
    limiter_on node_env cfg = true ->
    validateRequest cfg request = Valid ->
    rateLimitStore st !! getClientIdentifier request = Some e ->
    now - windowStart e < windowMs (rateLimitConfig cfg) ->
    maxRequests (rateLimitConfig cfg) <= count e ->
    let out := secureEndpoint node_env cfg now request handler st in
    exists seconds,
      1 <= seconds
      /\ status out.1 = 429
      /\ body out.1 = RateLimitBody "Too many requests" seconds
      /\ In ("Retry-After"%string, seconds) (responseHeaders out.1)
      /\ In ("X-RateLimit-Remaining"%string, 0) (responseHeaders out.1)
      /\ forall handler', (secureEndpoint node_env cfg now request handler' st).1 = out.1.
Proof.
  intros node_env cfg now request handler st e Hon Hv He Hw Hc out. subst out.
  unfold limiter_on in Hon. unfold secureEndpoint. rewrite Hv, Hon.
  rewrite (SecurityFacts.check_blocks _ _ _ now e He Hw Hc). simpl.
  eexists. split; [|repeat split; simpl; tauto].
  assert (0 < Js.ceil_div (windowStart e + windowMs (rateLimitConfig cfg) - now) 1000)
    by (apply SecurityFacts.ceil_div_pos; lia).
  lia.
Qed.

Lemma throttled_request_is_told_when_to_retry_witness :
  exists seconds,
    1 <= seconds
    /\ status (secureEndpoint (Some "production"%string)
                 (defaultConfig (Some "production"%string)) 1000 curl_request
                 ok_handler throttled).1 = 429
    /\ body (secureEndpoint (Some "production"%string)
               (defaultConfig (Some "production"%string)) 1000 curl_request
               ok_handler throttled).1 = RateLimitBody "Too many requests" seconds.
Proof.
  destruct (throttled_request_is_told_when_to_retry (Some "production"%string)
              (defaultConfig (Some "production"%string)) 1000 curl_request ok_handler
              throttled {| count := 10; windowStart := 0; blocked := false; lastReset := 0 |})
    as (seconds & Hpos & Hs & Hb & _).
  - reflexivity.
  - vm_compute. reflexivity.
  - vm_compute. reflexivity.
  - reflexivity.
  - simpl. lia.
  - exists seconds. repeat split; assumption.
Defined.

(** X8.  When the wrapped handler throws, the answer is never the handler's
    own: it is the refusal of validation, the 429 of the limiter, or a 500
    'Internal server error'.  In development the 500 carries the caught
    value itself as its [details] (not its message); outside development
    it carries no detail of the error. *)
Theorem handler_failure_is_contained :
  forall node_env cfg now request handler st error,
    handler request = Throws error ->
    let out := secureEndpoint node_env cfg now request handler st in
    ((exists reason, body out.1 = ErrorBody reason)
     \/ (exists seconds, status out.1 = 429
                          /\ body out.1 = RateLimitBody "Too many requests" seconds)
     \/ (status out.1 = 500
         /\ body out.1 = InternalErrorBody
                           (if development node_env then Some error else None)))
    /\ (node_env <> Some "development"%string ->
        forall details, body out.1 <> InternalErrorBody (Some details)).
Proof.
  intros node_env cfg now request handler st error Hthrow out. subst out.
  assert (Hcases :
    (exists reason,
        body (secureEndpoint node_env cfg now request handler st).1 = ErrorBody reason)
    \/ (exists seconds,
           status (secureEndpoint node_env cfg now request handler st).1 = 429
           /\ body (secureEndpoint node_env cfg now request handler st).1
              = RateLimitBody "Too many requests" seconds)
    \/ (status (secureEndpoint node_env cfg now request handler st).1 = 500
        /\ body (secureEndpoint node_env cfg now request handler st).1
           = InternalErrorBody (if development node_env then Some error else None))).
  { unfold secureEndpoint.
    destruct (validateRequest cfg request) as [|reason statusCode];
      [|left; now exists reason].
    destruct (negb (development node_env) && enableRateLimit cfg).
    - destruct (checkRateLimit _ now _ (rateLimitStore st)) as [r store].
      destruct (negb (allowed r)); simpl.
      + right; left. now eexists.
      + rewrite Hthrow. simpl. right; right. now split.
    - rewrite Hthrow. simpl. right; right. now split. }
  split; [exact Hcases|].
  intros Hdev details Hbody.
  assert (Hnot : development node_env = false)
    by (unfold development; now apply bool_decide_eq_false).
  rewrite Hnot in Hcases.
  destruct Hcases as [(reason & H)|[(seconds & _ & H)|[_ H]]];
    rewrite H in Hbody; discriminate.
Qed.

Lemma handler_failure_is_contained_witness :
  status (secureEndpoint (Some "production"%string)
            (defaultConfig (Some "production"%string)) 5 curl_request
            failing_handler idle).1 = 500
  /\ forall details,
       body (secureEndpoint (Some "production"%string)
               (defaultConfig (Some "production"%string)) 5 curl_request
               failing_handler idle).1 <> InternalErrorBody (Some details).
Proof.
  destruct (handler_failure_is_contained (Some "production"%string)
              (defaultConfig (Some "production"%string)) 5 curl_request
              failing_handler idle (ErrorObject "issuer unavailable") eq_refl)
    as [_ Hquiet].
  split; [vm_compute; reflexivity|].
  apply Hquiet. discriminate.
Defined.

(** *** The audit log *)






(** X10.  [getRecentAuditLog (limit)] with [limit >= 1] gives the last
    [min (limit, length)] entries of the log, oldest first; with [limit = 0]
    it gives the whole log, not an empty list. *)
Theorem getRecentAuditLog_suffix :
  forall (limit : Z) (st : State),
    (1 <= limit ->
     exists older,
       auditLogEntries st = older ++ getRecentAuditLog limit st
       /\ Z.of_nat (length (getRecentAuditLog limit st))
          = Z.min limit (Z.of_nat (length (auditLogEntries st))))
    /\ (limit = 0 -> getRecentAuditLog limit st = auditLogEntries st).
Proof.
  intros limit st. unfold getRecentAuditLog, slice_from. split.
  - intros Hpos.
    assert ((- limit <? 0) = true) as -> by (apply Z.ltb_lt; lia).
    exists (take (Z.to_nat (Z.max (Z.of_nat (length (auditLogEntries st)) + - limit) 0))
              (auditLogEntries st)).
    split; [now rewrite take_drop|].
    rewrite length_drop. lia.
  - intros ->. change (- 0) with 0. change (0 <? 0) with false. cbv iota.
    now rewrite Z.min_l by lia.
Qed.

Lemma getRecentAuditLog_suffix_witness :
  let st := (secureAll None (defaultConfig None)
               [{| at_time := 1; request_of := put_request; handler_of := ok_handler |};
                {| at_time := 2; request_of := curl_request; handler_of := failing_handler |}]
               idle).2 in
  (exists older,
      auditLogEntries st = older ++ getRecentAuditLog 1 st
      /\ Z.of_nat (length (getRecentAuditLog 1 st))
         = Z.min 1 (Z.of_nat (length (auditLogEntries st))))
  /\ getRecentAuditLog 0 st = auditLogEntries st.
Proof.
  intros st.
  destruct (getRecentAuditLog_suffix 1 st) as [Hlast _].
  destruct (getRecentAuditLog_suffix 0 st) as [_ Hall].
  split; [apply Hlast; lia|apply Hall; reflexivity].
Defined.

(** *** The identifier hash *)

Lemma to_int32_wrap x q : Js.to_int32 (x + 2 ^ 32 * q) = Js.to_int32 x.
Proof.
  unfold Js.to_int32.
  replace (x + 2 ^ 32 * q + 2 ^ 31) with (x + 2 ^ 31 + q * 2 ^ 32) by lia.
  now rewrite Z_mod_plus_full.
Qed.

Lemma to_int32_unfold x : exists q, Js.to_int32 x = x + 2 ^ 32 * q.
Proof.
  exists (- ((x + 2 ^ 31) / 2 ^ 32)). unfold Js.to_int32.
  rewrite Z.mod_eq by lia. lia.
Qed.

Lemma to_int32_range x : - 2 ^ 31 <= Js.to_int32 x < 2 ^ 31.
Proof.
  unfold Js.to_int32.
  pose proof (Z.mod_pos_bound (x + 2 ^ 31) (2 ^ 32) ltac:(lia)). lia.
Qed.

Lemma hash_step_wrapped a c :
  Js.hash_step (Js.to_int32 a) c = Js.to_int32 (31 * a + Z.of_nat (nat_of_ascii c)).
Proof.
  unfold Js.hash_step. rewrite Z.shiftl_mul_pow2 by lia.
  destruct (to_int32_unfold a) as [q ->].
  destruct (to_int32_unfold ((a + 2 ^ 32 * q) * 2 ^ 5)) as [q' ->].
  replace ((a + 2 ^ 32 * q) * 2 ^ 5 + 2 ^ 32 * q' - (a + 2 ^ 32 * q)
           + Z.of_nat (nat_of_ascii c))
    with (31 * a + Z.of_nat (nat_of_ascii c) + 2 ^ 32 * (31 * q + q')) by lia.
  apply to_int32_wrap.
Qed.

Lemma hash_from_wrapped s : forall a,
  Js.hash_from (Js.to_int32 a) s = Js.to_int32 (poly31 a s).
Proof.
  induction s as [|c s IH]; intros a; [reflexivity|].
  simpl. rewrite hash_step_wrapped. apply IH.
Qed.

(** X11.  The hash behind [simpleHash] and [generateTokenId] (shift by five,
    subtract, add the character, wrap to 32 bits at every step) is the
    polynomial in 31 of the characters, wrapped once into the signed 32-bit
    range.  So two strings whose polynomials agree modulo [2^32] get the same
    client hash and the same token identifier. *)
Theorem identifier_hash_is_polynomial :
  forall s : string,
    Js.hash_from 0 s = Js.to_int32 (poly31 0 s)
    /\ - 2 ^ 31 <= Js.hash_from 0 s < 2 ^ 31
    /\ forall s' : string,
         (poly31 0 s - poly31 0 s') mod 2 ^ 32 = 0 ->
         simpleHash s = simpleHash s'
         /\ TokenManager.generateTokenId s = TokenManager.generateTokenId s'.
Proof.
  intros s.
  assert (Hpoly : forall s, Js.hash_from 0 s = Js.to_int32 (poly31 0 s))
    by (intros s0; apply (hash_from_wrapped s0 0)).
  split; [apply Hpoly|]. split; [rewrite Hpoly; apply to_int32_range|].
  intros s' Hcong.
  assert (Hsame : Js.hash_from 0 s = Js.hash_from 0 s').
  { rewrite !Hpoly. apply Z.mod_divide in Hcong as [q Hq]; [|lia].
    replace (poly31 0 s) with (poly31 0 s' + 2 ^ 32 * q) by lia.
    apply to_int32_wrap. }
  unfold simpleHash, TokenManager.generateTokenId, Js.hash36.
  now rewrite Hsame.
Qed.

Lemma identifier_hash_is_polynomial_witness :
  simpleHash "Aa" = simpleHash "BB"
  /\ TokenManager.generateTokenId "Aa" = TokenManager.generateTokenId "BB".
Proof.
  destruct (identifier_hash_is_polynomial "Aa") as (_ & _ & Hcollide).
  apply Hcollide. vm_compute. reflexivity.
Defined.

(** *** [getSecurityStats] *)

Lemma filter_split_length {A : Type} (p : A -> bool) (l : list A) :
  (length (List.filter p l) + length (List.filter (fun x => negb (p x)) l))%nat
  = length l.
Proof.
  induction l as [|x l IH]; [reflexivity|].
  simpl. destruct (p x); simpl; lia.
Qed.

Lemma occurrences_snoc ev entries entry :
  occurrences ev (entries ++ [entry])
  = occurrences ev entries + (if String.eqb (event entry) ev then 1 else 0).
Proof.
  unfold occurrences. rewrite List.filter_app, length_app. simpl.
  destruct (String.eqb (event entry) ev); simpl; lia.
Qed.

(** What [bump] does to a table of counts with distinct keys. *)
Lemma bump_spec ev (counts : list (string * Z)) :
  NoDup (map fst counts) ->
  NoDup (map fst (bump ev counts))
  /\ forall e n,
       In (e, n) (bump ev counts)
       <-> (e <> ev /\ In (e, n) counts)
           \/ (e = ev /\ ((exists m, In (ev, m) counts /\ n = m + 1)
                           \/ (~ In ev (map fst counts) /\ n = 1))).
Proof.
  induction counts as [|[e0 n0] counts IH]; intros Hnd.
  - simpl. split; [repeat constructor; apply not_elem_of_nil|].
    intros e n. split.
    + intros [H|[]]. inversion H; subst. right. split; [reflexivity|]. right. tauto.
    + intros [[_ []]|[-> [(m & [] & _)|[_ ->]]]]. now left.
  - simpl in Hnd. apply NoDup_cons in Hnd as [Hfresh Hnd].
    destruct (IH Hnd) as [IHnd IHin]. simpl.
    destruct (String.eqb e0 ev) eqn:He0.
    + apply String.eqb_eq in He0. subst e0. split.
      * simpl. apply NoDup_cons. now split.
      * intros e n. simpl. split.
        -- intros [H|H].
           ++ inversion H; subst. right. split; [reflexivity|]. left. exists n0. tauto.
           ++ left. split; [|tauto]. intros ->. apply Hfresh.
              apply list_elem_of_In, in_map_iff. now exists (ev, n).
        -- intros [[Hne [H|H]]|[-> [(m & [H|H] & ->)|[Hno _]]]].
           ++ inversion H; subst. contradiction.
           ++ now right.
           ++ inversion H; subst. now left.
           ++ exfalso. apply Hfresh. apply list_elem_of_In, in_map_iff. now exists (ev, m).
           ++ exfalso. apply Hno. now left.
    + apply String.eqb_neq in He0. split.
      * simpl. apply NoDup_cons. split; [|assumption].
        intros Hin. apply list_elem_of_In, in_map_iff in Hin as [[e n] [Hfst Hin]].
        simpl in Hfst. subst e. apply IHin in Hin as [[_ Hin]|[Heq _]]; [|congruence].
        apply Hfresh. apply list_elem_of_In, in_map_iff. now exists (e0, n).
      * intros e n. simpl. rewrite IHin. split.
        -- intros [H|[[Hne H]|[-> [(m & H & ->)|[Hno ->]]]]].
           ++ inversion H; subst. left. split; [congruence|now left].
           ++ left. split; [assumption|now right].
           ++ right. split; [reflexivity|]. left. exists m. split; [now right|reflexivity].
           ++ right. split; [reflexivity|]. right. split; [|reflexivity].
              intros [H|H]; [congruence|contradiction].
        -- intros [[Hne [H|H]]|[-> [(m & [H|H] & ->)|[Hno ->]]]].
           ++ now left.
           ++ right; left. now split.
           ++ inversion H; subst. congruence.
           ++ right; right. split; [reflexivity|]. left. now exists m.
           ++ right; right. split; [reflexivity|]. right. split; [|reflexivity].
              intros H. apply Hno. now right.
Qed.

Lemma eventCounts_spec entries : counts_of entries (eventCounts entries).
Proof.
  unfold eventCounts.
  assert (Hgen : forall rest seen counts,
             counts_of seen counts ->
             counts_of (seen ++ rest)
               (fold_left (fun counts entry => bump (event entry) counts) rest counts)).
  { induction rest as [|entry rest IH]; intros seen counts Hc.
    - now rewrite app_nil_r.
    - simpl. replace (seen ++ entry :: rest) with ((seen ++ [entry]) ++ rest)
        by (now rewrite <- app_assoc).
      apply IH. destruct Hc as [Hnd Hin].
      destruct (bump_spec (event entry) counts Hnd) as [Hnd' Hin'].
      split; [assumption|]. intros e n. rewrite Hin', occurrences_snoc.
      assert (Hocc : forall e, 0 <= occurrences e seen) by (intros; unfold occurrences; lia).
      assert (Hkey : In (event entry) (map fst counts)
                     <-> 1 <= occurrences (event entry) seen).
      { split.
        - intros H. apply in_map_iff in H as [[e' n'] [Hfst H]]. simpl in Hfst. subst e'.
          apply Hin in H. lia.
        - intros H. apply in_map_iff. exists (event entry, occurrences (event entry) seen).
          split; [reflexivity|]. apply Hin. lia. }
      destruct (String.eqb (event entry) e) eqn:He.
      + apply String.eqb_eq in He. subst e. split.
        * intros [[Hne _]|[_ [(m & Hm & ->)|[Hno ->]]]]; [congruence| |].
          -- apply Hin in Hm. lia.
          -- specialize (Hocc (event entry)).
             assert (occurrences (event entry) seen = 0) by (rewrite Hkey in Hno; lia).
             lia.
        * intros [Hn ->]. right. split; [reflexivity|].
          destruct (Z_lt_le_dec 0 (occurrences (event entry) seen)) as [Hpos|Hzero].
          -- left. exists (occurrences (event entry) seen). split; [|reflexivity].
             apply Hin. lia.
          -- right. rewrite Hkey. specialize (Hocc (event entry)). lia.
      + apply String.eqb_neq in He. rewrite Z.add_0_r. split.
        * intros [[_ H]|[Heq _]]; [now apply Hin|congruence].
        * intros H. left. split; [congruence|now apply Hin]. }
  apply (Hgen entries [] []). split; [constructor|].
  intros e n. simpl. unfold occurrences. simpl. split; [tauto|lia].
Qed.

Lemma insert_desc_spec x l :
  descending l ->
  descending (insert_desc x l) /\ Permutation (insert_desc x l) (x :: l).
Proof.
  unfold descending. induction l as [|y l IH]; intros Hs.
  - simpl. split; [repeat constructor|reflexivity].
  - simpl. apply StronglySorted_inv in Hs as [Hs Hall].
    destruct (snd y <? snd x) eqn:Hlt.
    + apply Z.ltb_lt in Hlt. split; [|reflexivity].
      constructor; [now constructor|]. constructor; [lia|].
      eapply Forall_impl; [exact Hall|]. simpl. lia.
    + apply Z.ltb_ge in Hlt. destruct (IH Hs) as [IHs IHp]. split.
      * constructor; [assumption|].
        rewrite IHp. now constructor.
      * rewrite IHp. apply perm_swap.
Qed.

Lemma sort_desc_spec l : descending (sort_desc l) /\ Permutation (sort_desc l) l.
Proof.
  unfold sort_desc.
  assert (Hgen : forall rest sorted,
             descending sorted ->
             descending (fold_left (fun sorted x => insert_desc x sorted) rest sorted)
             /\ Permutation (fold_left (fun sorted x => insert_desc x sorted) rest sorted)
                  (sorted ++ rest)).
  { induction rest as [|x rest IH]; intros sorted Hs.
    - simpl. rewrite app_nil_r. now split.
    - simpl. destruct (insert_desc_spec x sorted Hs) as [Hs' Hp].
      destruct (IH _ Hs') as [IHs IHp]. split; [assumption|].
      rewrite IHp, Hp. simpl. apply Permutation_middle. }
  apply (Hgen l []). constructor.
Qed.

(** X12.  [getSecurityStats] is consistent with the state it reads: the
    total number of requests is that of the successful plus that of the
    failed ones; blocked clients are among the active rate limits; and
    [topEvents] lists at most ten events, each with the number of audit
    entries it has, in descending order of that number, such that an event
    of the log that is not listed has no more entries than any listed
    one. *)
Theorem security_stats_are_consistent :
  forall st : State,
    let stats := getSecurityStats st in
    totalRequests stats = successfulRequests stats + failedRequests stats
    /\ 0 <= blockedClients stats <= activeRateLimits stats
    /\ (length (topEvents stats) <= 10)%nat
    /\ descending (topEvents stats)
    /\ (forall ev n, In (ev, n) (topEvents stats) ->
          1 <= n /\ n = occurrences ev (auditLogEntries st))
    /\ (forall ev, 1 <= occurrences ev (auditLogEntries st) ->
          In (ev, occurrences ev (auditLogEntries st)) (topEvents stats)
          \/ (length (topEvents stats) = 10%nat
              /\ forall ev' n', In (ev', n') (topEvents stats) ->
                                occurrences ev (auditLogEntries st) <= n')).
Proof.
  intros st stats. subst stats. unfold getSecurityStats. simpl.
  destruct (eventCounts_spec (auditLogEntries st)) as [_ Hcounts].
  destruct (sort_desc_spec (eventCounts (auditLogEntries st))) as [Hsorted Hperm].
  set (sorted := sort_desc (eventCounts (auditLogEntries st))) in *.
  assert (Hin : forall e n, In (e, n) sorted
                            <-> 1 <= n /\ n = occurrences e (auditLogEntries st)).
  { intros e n. rewrite <- Hcounts. split; apply Permutation_in;
      [assumption|now symmetry]. }
  split; [rewrite <- (filter_split_length success); lia|].
  split; [split; [lia|apply Nat2Z.inj_le, map_size_filter]|].
  split; [rewrite length_take; lia|].
  unfold descending in *. rewrite <- (take_drop 10 sorted) in Hsorted.
  split; [now apply StronglySorted_app_1_l in Hsorted|].
  split.
  - intros ev n H. apply Hin. rewrite <- (take_drop 10 sorted).
    apply in_or_app. now left.
  - intros ev Hocc.
    assert (Hev : In (ev, occurrences ev (auditLogEntries st)) sorted)
      by (apply Hin; now split).
    rewrite <- (take_drop 10 sorted) in Hev. apply in_app_or in Hev as [Hev|Hev];
      [now left|right].
    assert (Hlen : (10 < length sorted)%nat).
    { destruct (le_lt_dec (length sorted) 10) as [Hle|Hgt]; [|assumption].
      rewrite drop_ge in Hev by assumption. destruct Hev. }
    split; [rewrite length_take; lia|].
    intros ev' n' Hin'.
    apply (StronglySorted_app_1_elem_of _ _ _ (ev', n')
             (ev, occurrences ev (auditLogEntries st))) in Hsorted;
      [exact Hsorted|now apply list_elem_of_In|now apply list_elem_of_In].
Qed.

End SecurityCoverage.

(** ** More on the token manager *)

Module TokenCoverage.
Import TokenManager TokenAdmin.

(** *** Issuing *)

(** X13.  A call of [createToken] that fails leaves the manager exactly as
    it was, and fails for the first reason that applies: [uses] outside 1..5,
    then [expirationMinutes] outside 1..30, then the session already at its
    quota, then the issuer not answering. *)
Theorem createToken_failure_changes_nothing :
  forall cfg now fresh options clientId issued st err,
    (createToken cfg now fresh options clientId issued st).1 = inl err ->
    let uses := default (defaultUses cfg) (uses options) in
    let minutes := default (defaultExpirationMinutes cfg) (expirationMinutes options) in
    let sid := default fresh (sessionIdOption options) in
    (createToken cfg now fresh options clientId issued st).2 = st
    /\ err = (if (uses <? 1) || (5 <? uses) then UsesOutOfRange
              else if (minutes <? 1) || (30 <? minutes) then ExpirationOutOfRange
              else if maxTokensPerSession cfg <=? activeTokens now sid st
              then SessionLimitReached (maxTokensPerSession cfg)
              else CreationFailed).
Proof.
  intros cfg now fresh options clientId issued st err.
  unfold createToken, createToken_begin, validateTokenParams, enforceSessionTokenLimit.
  cbv zeta.
  destruct (_ || _); [simpl; intros [= <-]; now split|].
  destruct (_ || _); [simpl; intros [= <-]; now split|].
  destruct (_ <=? _); [simpl; intros [= <-]; now split|].
  unfold createToken_finish. destruct issued; simpl; intros [= <-]. now split.
Qed.

Lemma createToken_failure_changes_nothing_witness :
  (createToken defaultConfig 0 "" (for_session "s1") "client" None fresh_pair).2 = fresh_pair
  /\ (createToken defaultConfig 0 "" (for_session "s1") "client" None fresh_pair).1
     = inl CreationFailed.
Proof.
  destruct (createToken_failure_changes_nothing defaultConfig 0 "" (for_session "s1")
              "client" None fresh_pair CreationFailed) as [Hsame _].
  - vm_compute. reflexivity.
  - split; [exact Hsame|vm_compute; reflexivity].
Defined.

(** What a successful [createToken] stores. *)
Lemma createToken_stores cfg now fresh options clientId issued st t :
  (createToken cfg now fresh options clientId issued st).1 = inr t ->
  let st' := (createToken cfg now fresh options clientId issued st).2 in
  tokenStorage st' !! generateTokenId (tokenString t)
  = Some {| token := t; refreshCount := 0; issuedFor := clientId |}
  /\ 1 <= usesRemaining t <= 5
  /\ now + 60000 <= expiresAt t <= now + 30 * 60000
  /\ lastUsed t = None
  /\ sessionId t = default fresh (sessionIdOption options)
  /\ generateTokenId (tokenString t) ∈ sessionTokenIds (sessionId t) st'.
Proof.
  intros Hok st'. subst st'. unfold createToken in *.
  destruct (createToken_begin cfg now fresh options clientId st) as [err|p] eqn:Hb;
    [discriminate Hok|].
  unfold createToken_begin in Hb.
  destruct (validateTokenParams _ _) eqn:Hv; [discriminate Hb|].
  destruct (enforceSessionTokenLimit _ _ _ _); [discriminate Hb|].
  inversion Hb; subst p; clear Hb.
  unfold createToken_finish in *. destruct issued as [name|]; [|discriminate Hok].
  simpl in Hok. inversion Hok; subst t; clear Hok. simpl.
  unfold validateTokenParams in Hv.
  destruct (_ || _) eqn:Hu in Hv; [discriminate Hv|].
  destruct (_ || _) eqn:Hm in Hv; [discriminate Hv|].
  apply orb_false_iff in Hu as [Hu1 Hu2]. apply orb_false_iff in Hm as [Hm1 Hm2].
  apply Z.ltb_ge in Hu1, Hu2, Hm1, Hm2.
  split; [apply lookup_insert_eq|]. split; [lia|]. split; [lia|].
  split; [reflexivity|]. split; [reflexivity|].
  unfold sessionTokenIds at 1. simpl. rewrite lookup_insert_eq. simpl.
  apply elem_of_union. left. now apply elem_of_singleton.
Qed.

Lemma useAll_counts_down tokenString times : forall st e,
  tokenStorage st !! generateTokenId tokenString = Some e ->
  0 <= usesRemaining (token e) ->
  Forall (fun t => t <= expiresAt (token e)) times ->
  forall (i : nat) r,
    (useAll times tokenString st).1 !! i = Some r ->
    r = if Z.of_nat i <? usesRemaining (token e)
        then ValidToken (setUsage (token e) (usesRemaining (token e) - (Z.of_nat i + 1))
                           (default 0 (times !! i)))
        else InvalidToken "Token usage exhausted".
Proof.
  induction times as [|t times IH]; intros st e He Hu Hall i r Hr;
    [destruct i; discriminate|].
  inversion Hall as [|? ? Ht Hrest]; subst. simpl in Hr.
  unfold validateAndUseToken in Hr. rewrite He in Hr.
  assert ((expiresAt (token e) <? t) = false) as Hexp by (apply Z.ltb_ge; lia).
  rewrite Hexp in Hr.
  destruct (usesRemaining (token e) <=? 0) eqn:Hzero.
  - apply Z.leb_le in Hzero.
    pose proof (IH st e He Hu Hrest) as IH1.
    destruct (useAll times tokenString st) as [rs st2].
    assert ((Z.of_nat i <? usesRemaining (token e)) = false) as -> by (apply Z.ltb_ge; lia).
    destruct i as [|i]; simpl in Hr; [now inversion Hr|].
    specialize (IH1 i r Hr).
    assert ((Z.of_nat i <? usesRemaining (token e)) = false) as Hi by (apply Z.ltb_ge; lia).
    now rewrite Hi in IH1.
  - apply Z.leb_gt in Hzero.
    set (t' := setUsage (token e) (usesRemaining (token e) - 1) t) in *.
    set (st1 := {| tokenStorage := _; sessionTokens := sessionTokens st |}) in *.
    pose proof (IH st1 (setToken e t') (lookup_insert_eq _ _ _)) as IH1.
    simpl in IH1. specialize (IH1 ltac:(lia) Hrest).
    destruct (useAll times tokenString st1) as [rs st2].
    destruct i as [|i]; simpl in Hr.
    + inversion Hr; subst r.
      assert ((Z.of_nat 0 <? usesRemaining (token e)) = true) as -> by (apply Z.ltb_lt; lia).
      reflexivity.
    + specialize (IH1 i r Hr). rewrite IH1.
      change (default 0 ((t :: times) !! S i)) with (default 0 (times !! i)).
      cbn [token setToken usesRemaining setUsage t'].
      destruct (Z.of_nat i <? usesRemaining (token e) - 1) eqn:Hi.
      * apply Z.ltb_lt in Hi.
        assert ((Z.of_nat (S i) <? usesRemaining (token e)) = true) as ->
            by (apply Z.ltb_lt; lia).
        unfold setUsage, t'. cbn.
        replace (usesRemaining (token e) - 1 - (Z.of_nat i + 1))
          with (usesRemaining (token e) - (Z.of_nat (S i) + 1)) by lia.
        reflexivity.
      * apply Z.ltb_ge in Hi.
        assert ((Z.of_nat (S i) <? usesRemaining (token e)) = false) as ->
            by (apply Z.ltb_ge; lia).
        reflexivity.
Qed.

(** X14.  A credential issued for [n] uses can be consumed exactly [n]
    times: when [createToken] has succeeded and nothing but
    [validateAndUseToken] for its token string follows, at times up to its
    expiry, the first [n] calls succeed, the call number [i] leaving
    [n - (i + 1)] uses, and every later call is refused with 'Token usage
    exhausted'. *)
Theorem issued_token_is_used_up_in_order :
  forall cfg now fresh options clientId issued st t times,
    (createToken cfg now fresh options clientId issued st).1 = inr t ->
    Forall (fun u => u <= expiresAt t) times ->
    forall (i : nat) r,
      (useAll times (tokenString t)
         (createToken cfg now fresh options clientId issued st).2).1 !! i = Some r ->
      r = if Z.of_nat i <? usesRemaining t
          then ValidToken (setUsage t (usesRemaining t - (Z.of_nat i + 1))
                             (default 0 (times !! i)))
          else InvalidToken "Token usage exhausted".
Proof.
  intros cfg now fresh options clientId issued st t times Hok Hall i r Hr.
  destruct (createToken_stores cfg now fresh options clientId issued st t Hok)
    as (Hstored & Huses & _).
  apply (useAll_counts_down (tokenString t) times _ _ Hstored); simpl;
    [lia|assumption|assumption].
Qed.

Lemma issued_token_is_used_up_in_order_witness :
  (useAll [10; 20] "auth_tokens/a"
     (createToken defaultConfig 0 "" (for_session "s1") "client"
        (Some "auth_tokens/a"%string) initial).2).1 !! 1%nat
  = Some (InvalidToken "Token usage exhausted").
Proof.
  destruct ((useAll [10; 20] "auth_tokens/a"
               (createToken defaultConfig 0 "" (for_session "s1") "client"
                  (Some "auth_tokens/a"%string) initial).2).1 !! 1%nat) as [r|] eqn:Hr;
    [|vm_compute in Hr; discriminate].
  rewrite (issued_token_is_used_up_in_order defaultConfig 0 "" (for_session "s1") "client"
             (Some "auth_tokens/a"%string) initial
             {| tokenString := "auth_tokens/a"; expiresAt := 1800000; usesRemaining := 1;
                sessionId := "s1"; scope := ["gemini-live-api"%string];
                createdAt := 0; lastUsed := None |}
             [10; 20] eq_refl
             ltac:(repeat (apply Forall_cons; split; [simpl; lia|]); apply Forall_nil_2)
             1%nat r Hr).
  reflexivity.
Defined.

(** *** Rotation and revocation *)

Lemma createToken_refused cfg now fresh options clientId issued st err :
  (createToken cfg now fresh options clientId issued st).1 = inl err ->
  (createToken cfg now fresh options clientId issued st).2 = st
  /\ forall limit, err = SessionLimitReached limit ->
       maxTokensPerSession cfg <= activeTokens now (default fresh (sessionIdOption options)) st.
Proof.
  unfold createToken, createToken_begin.
  destruct (validateTokenParams _ _) as [e|] eqn:Hv.
  - simpl. intros [= <-]. split; [reflexivity|]. intros limit ->.
    unfold validateTokenParams in Hv. repeat case_match; discriminate.
  - unfold enforceSessionTokenLimit.
    destruct (_ <=? _) eqn:Hl.
    + simpl. intros [= <-]. split; [reflexivity|]. intros _ _. now apply Z.leb_le.
    + unfold createToken_finish. destruct issued; simpl; intros [= <-].
      split; [reflexivity|discriminate].
Qed.

Lemma exhausted_none_active now t sid st :
  activeTokenIds t sid (exhausted now sid st) = ∅.
Proof.
  apply set_eq. intros id. split; [|intros H; now apply elem_of_empty in H].
  intros Hid. apply elem_of_filter in Hid as [Ha Hin].
  apply TokenFacts.exhaustAll_inactive in Ha as [Hout _]. contradiction.
Qed.

(** [refreshToken] when nothing runs between its steps. *)
Lemma refreshToken_alone cfg now sid options clientId issued st :
  1 <= maxTokensPerSession cfg ->
  let out := refreshToken cfg now sid options clientId issued st in
  (forall t, out.1 = inr t ->
     sessionId t = sid
     /\ activeTokenIds now sid out.2 = {[generateTokenId (tokenString t)]}
     /\ tokenStorage out.2 !! generateTokenId (tokenString t)
        = Some {| token := t; refreshCount := 1; issuedFor := clientId |})
  /\ (forall err, out.1 = inl err ->
        (forall limit, err <> SessionLimitReached limit)
        /\ out.2 = exhausted now sid st
        /\ activeTokens now sid out.2 = 0).
Proof.
  intros Hmax out. subst out.
  rewrite TokenFacts.refreshToken_uninterrupted. cbv zeta. fold (exhausted now sid st).
  set (st1 := exhausted now sid st).
  set (options' := {| uses := _; expirationMinutes := _;
                      sessionIdOption := Some sid; scopeOption := _ |}).
  pose proof (createToken_stores cfg now sid options' clientId issued st1) as Hok.
  pose proof (createToken_refused cfg now sid options' clientId issued st1) as Hbad.
  pose proof (TokenFacts.createToken_lookup cfg now sid options' clientId issued st1) as Hlook.
  pose proof (TokenFacts.createToken_issued cfg now sid options' clientId issued st1) as Hname.
  assert (Hids : forall t, (createToken cfg now sid options' clientId issued st1).1 = inr t ->
            sessionTokenIds sid (createToken cfg now sid options' clientId issued st1).2
            = {[generateTokenId (tokenString t)]} ∪ sessionTokenIds sid st).
  { intros t. unfold createToken.
    destruct (createToken_begin cfg now sid options' clientId st1) as [e|p] eqn:Hb;
      [discriminate|].
    assert (p_sessionId p = sid) as Hp.
    { unfold createToken_begin in Hb. repeat case_match; try discriminate.
      now inversion Hb. }
    unfold createToken_finish. destruct issued as [name|]; [|discriminate].
    simpl. intros [= <-]. simpl. rewrite Hp, TokenFacts.addToken_ids.
    now rewrite decide_True by reflexivity. }
  destruct (createToken cfg now sid options' clientId issued st1) as [[err|newToken] st2];
    simpl in *.
  - split; [intros t [=]|]. intros e [= <-].
    destruct (Hbad err eq_refl) as [-> Hlimit].
    split; [|split; [reflexivity|]].
    + intros limit ->. specialize (Hlimit limit eq_refl).
      unfold activeTokens in Hlimit. subst st1.
      rewrite exhausted_none_active, size_empty in Hlimit. lia.
    + unfold activeTokens. subst st1. now rewrite exhausted_none_active, size_empty.
  - split; [|intros e [=]]. intros t [= <-].
    destruct (Hok newToken eq_refl) as (Hstored & Huses & Hexp & _ & Hsid & _).
    specialize (Hids newToken eq_refl).
    rewrite Hstored. simpl. rewrite lookup_insert_eq.
    split; [exact Hsid|]. split; [|reflexivity].
    apply set_eq. intros id. unfold activeTokenIds.
    rewrite elem_of_filter, elem_of_singleton.
    unfold sessionTokenIds at 1. simpl. fold (sessionTokenIds sid st2). rewrite Hids.
    unfold isActiveId. simpl.
    destruct (decide (id = generateTokenId (tokenString newToken))) as [->|Hne].
    + rewrite lookup_insert_eq. simpl. unfold isActive.
      split; [reflexivity|]. intros _. split.
      * apply andb_true_iff. split; apply Z.ltb_lt; lia.
      * apply elem_of_union. left. now apply elem_of_singleton.
    + rewrite lookup_insert_ne by congruence.
      split; [|contradiction]. intros [Ha Hin].
      apply elem_of_union in Hin as [Hin|Hin]; [now apply elem_of_singleton in Hin|].
      exfalso.
      destruct (tokenStorage st2 !! id) as [e|] eqn:He; [|discriminate].
      apply Hlook in He as [He|(name & Hissued & ->)].
      * assert (isActiveId now st1 id = true) as Hact
            by (unfold isActiveId, st1, exhausted; cbn [tokenStorage]; now rewrite He).
        apply TokenFacts.exhaustAll_inactive in Hact as [Hout _]. contradiction.
      * specialize (Hname newToken eq_refl). congruence.
Qed.

(** What a call that has passed its checks keeps while it waits. *)
Lemma createToken_begin_pending cfg now fresh options clientId st p :
  createToken_begin cfg now fresh options clientId st = inr p ->
  p_sessionId p = default fresh (sessionIdOption options)
  /\ 1 <= p_uses p <= 5
  /\ now + 60000 <= p_expiration p <= now + 30 * 60000
  /\ p_clientId p = clientId.
Proof.
  unfold createToken_begin.
  destruct (validateTokenParams _ _) eqn:Hv; [discriminate|].
  destruct (enforceSessionTokenLimit _ _ _ _); [discriminate|].
  intros [= <-]. simpl. unfold validateTokenParams in Hv.
  destruct (_ || _) eqn:Hu in Hv; [discriminate Hv|].
  destruct (_ || _) eqn:Hm in Hv; [discriminate Hv|].
  apply orb_false_iff in Hu as [Hu1 Hu2]. apply orb_false_iff in Hm as [Hm1 Hm2].
  apply Z.ltb_ge in Hu1, Hu2, Hm1, Hm2.
  split; [reflexivity|]. split; [lia|]. split; [lia|reflexivity].
Qed.

(** The valid tokens of a session once [createToken] has stored the token
    the issuer answered with: those that were valid, and the new one. *)
Lemma createToken_finish_active now p name st t :
  let new := {| tokenString := name; expiresAt := p_expiration p;
                usesRemaining := p_uses p; sessionId := p_sessionId p;
                scope := p_scope p; createdAt := now; lastUsed := None |} in
  activeTokenIds t (p_sessionId p) (createToken_finish now p (Some name) st).2
  = (activeTokenIds t (p_sessionId p) st ∖ {[generateTokenId name]})
    ∪ (if isActive t new then {[generateTokenId name]} else ∅).
Proof.
  intros new. unfold createToken_finish. cbn [snd]. fold new.
  apply set_eq. intros id. unfold activeTokenIds.
  rewrite elem_of_union, elem_of_difference, !elem_of_filter, TokenFacts.addToken_ids.
  rewrite decide_True by reflexivity.
  unfold sessionTokenIds at 1, isActiveId. cbn [tokenStorage sessionTokens].
  fold (sessionTokenIds (p_sessionId p) st).
  rewrite elem_of_union, !elem_of_singleton.
  unfold addTokenToSession. cbn [tokenStorage].
  destruct (decide (id = generateTokenId name)) as [->|Hne].
  - rewrite lookup_insert_eq. cbn [token].
    destruct (isActive t new).
    + rewrite elem_of_singleton. split; [now right|]. intros _. split; [reflexivity|now left].
    + split; [intros [[=] _]|]. intros [[_ Hnot]|Hin]; [now contradiction Hnot|].
      now apply elem_of_empty in Hin.
  - rewrite lookup_insert_ne by congruence.
    split.
    + intros [Ha [Hin|Hin]]; [contradiction|]. left. now repeat split.
    + intros [[[Ha Hin] _]|Hin]; [split; [assumption|now right]|].
      destruct (isActive t new); [apply elem_of_singleton in Hin; contradiction|].
      now apply elem_of_empty in Hin.
Qed.

(** The mark of [refreshToken] changes no token. *)
Lemma refreshToken_end_active new st t sid :
  activeTokenIds t sid (refreshToken_end new st) = activeTokenIds t sid st.
Proof.
  apply set_eq. intros id. unfold activeTokenIds. rewrite !elem_of_filter.
  unfold refreshToken_end, sessionTokenIds, isActiveId. cbn [tokenStorage sessionTokens].
  destruct (tokenStorage st !! generateTokenId (tokenString new)) as [e|] eqn:He;
    [|reflexivity].
  destruct (decide (id = generateTokenId (tokenString new))) as [->|Hne].
  - rewrite lookup_insert_eq, He. reflexivity.
  - now rewrite lookup_insert_ne by congruence.
Qed.

(** X15.  [refreshToken] with a quota of at least one, step by step.  Up to
    its await the call uses up every token of the session, so that the
    session has no valid token while the call waits, and it never fails for
    the quota.  When the issuer answers, in whatever state the manager is by
    then, a failure changes nothing, and a success stores the new token,
    which belongs to the session and has at least a minute and one use: the
    valid tokens of the session are then those that were valid in that
    state, and the new one.  The mark that follows sets [refreshCount] to 1
    and changes no token.  So a call that nothing interleaves with leaves
    the new token as the only valid one of the session, and none when it
    fails; a token stored for the session while the call waits, by another
    refresh in flight, stays valid beside the new one. *)
Theorem refreshToken_rotates :
  forall cfg now sid options clientId st,
    1 <= maxTokensPerSession cfg ->
    let began := refreshToken_begin cfg now sid options clientId st in
    (began.2 = exhausted now sid st
     /\ (forall t, activeTokenIds t sid began.2 = ∅)
     /\ (forall limit, began.1 <> inl (SessionLimitReached limit)))
    /\ (forall p, began.1 = inr p ->
        forall now' issued st',
          let out := createToken_finish now' p issued st' in
          (issued = None -> out = (inl CreationFailed, st'))
          /\ (forall new, out.1 = inr new ->
                let id := generateTokenId (tokenString new) in
                sessionId new = sid
                /\ now + 60000 <= expiresAt new
                /\ 1 <= usesRemaining new
                /\ tokenStorage out.2 !! id
                   = Some {| token := new; refreshCount := 0; issuedFor := clientId |}
                /\ forall t, activeTokenIds t sid out.2
                             = (activeTokenIds t sid st' ∖ {[id]})
                               ∪ (if isActive t new then {[id]} else ∅)))
    /\ (forall new st',
          (forall t sid', activeTokenIds t sid' (refreshToken_end new st')
                          = activeTokenIds t sid' st')
          /\ (forall e, tokenStorage st' !! generateTokenId (tokenString new) = Some e ->
                tokenStorage (refreshToken_end new st') !! generateTokenId (tokenString new)
                = Some {| token := token e; refreshCount := 1;
                          issuedFor := issuedFor e |}))
    /\ (forall issued,
          let out := refreshToken cfg now sid options clientId issued st in
          (forall t, out.1 = inr t ->
             sessionId t = sid
             /\ activeTokenIds now sid out.2 = {[generateTokenId (tokenString t)]}
             /\ tokenStorage out.2 !! generateTokenId (tokenString t)
                = Some {| token := t; refreshCount := 1; issuedFor := clientId |})
          /\ (forall err, out.1 = inl err ->
                (forall limit, err <> SessionLimitReached limit)
                /\ out.2 = exhausted now sid st
                /\ activeTokens now sid out.2 = 0)).
Proof.
  intros cfg now sid options clientId st Hmax began. subst began.
  unfold refreshToken_begin. cbn [fst snd]. fold (exhausted now sid st).
  set (options' := {| uses := _; expirationMinutes := _;
                      sessionIdOption := Some sid; scopeOption := _ |}).
  split; [|split; [|split]].
  - split; [reflexivity|]. split; [intros t; apply exhausted_none_active|].
    intros limit Hlimit. unfold createToken_begin in Hlimit.
    destruct (validateTokenParams _ _) as [e|] eqn:Hv.
    { unfold validateTokenParams in Hv. repeat case_match; congruence. }
    unfold enforceSessionTokenLimit, activeTokens in Hlimit.
    cbn [default sessionIdOption options'] in Hlimit.
    rewrite exhausted_none_active, size_empty in Hlimit.
    destruct (maxTokensPerSession cfg <=? Z.of_nat 0) eqn:Hle; [|discriminate].
    apply Z.leb_le in Hle. lia.
  - intros p Hp now' issued st'.
    apply createToken_begin_pending in Hp as (Hsid & Huses & Hexp & Hclient).
    unfold options' in Hsid. simpl in Hsid.
    split; [now intros ->|].
    intros new Hnew.
    destruct issued as [name|]; [|discriminate Hnew].
    pose proof (createToken_finish_active now' p name st') as Hactive.
    unfold createToken_finish in *. cbn [fst snd] in *.
    inversion Hnew; subst new; clear Hnew. cbn [sessionId expiresAt usesRemaining tokenString].
    split; [exact Hsid|]. split; [lia|]. split; [lia|].
    split.
    + unfold addTokenToSession. cbn [tokenStorage]. rewrite lookup_insert_eq.
      now rewrite Hclient.
    + intros t. rewrite <- Hsid. apply Hactive.
  - intros new st'. split; [intros t sid'; apply refreshToken_end_active|].
    intros e He. unfold refreshToken_end. cbn [tokenStorage]. rewrite He.
    apply lookup_insert_eq.
  - intros issued. now apply refreshToken_alone.
Qed.

(** Two refreshes of a session in flight together: both pass the checks,
    both are answered, and the session ends with two valid tokens. *)
Lemma refreshToken_rotates_witness :
  let first := refreshToken_begin defaultConfig 10 "s1" (for_session "s1") "client"
                 fresh_pair in
  let second := refreshToken_begin defaultConfig 11 "s1" (for_session "s1") "client"
                  first.2 in
  exists p1 p2,
    first.1 = inr p1 /\ second.1 = inr p2
    /\ let st1 := (createToken_finish 20 p1 (Some "auth_tokens/c"%string) second.2).2 in
       let st2 := (createToken_finish 21 p2 (Some "auth_tokens/d"%string) st1).2 in
       activeTokenIds 30 "s1" st2
       = (activeTokenIds 30 "s1" st1 ∖ {[generateTokenId "auth_tokens/d"]})
         ∪ {[generateTokenId "auth_tokens/d"]}
       /\ activeTokens 30 "s1" st1 = 1
       /\ activeTokens 30 "s1" st2 = 2.
Proof.
  cbv zeta. eexists. eexists.
  split; [vm_compute; reflexivity|]. split; [vm_compute; reflexivity|].
  match goal with
  | |- context [createToken_finish 21 ?p2 (Some ?name) ?st1] =>
      destruct (refreshToken_rotates defaultConfig 11 "s1" (for_session "s1") "client"
                  (refreshToken_begin defaultConfig 10 "s1" (for_session "s1") "client"
                     fresh_pair).2 ltac:(simpl; lia)) as (_ & Hanswer & _);
      destruct (Hanswer p2 ltac:(vm_compute; reflexivity) 21 (Some name) st1)
        as [_ Hstored]
  end.
  destruct (Hstored _ eq_refl) as (_ & _ & _ & _ & Hvalid).
  split; [exact (Hvalid 30)|].
  split; vm_compute; reflexivity.
Defined.

(** X16.  After [revokeSession] the session has no valid credential, at
    any time; [validateAndUseToken] refuses every token string of the
    session and changes nothing; no entry is deleted and no session is
    dropped; entries of other sessions are untouched; and the number
    returned is at most the number of identifiers of the session. *)
Theorem revoked_session_is_refused :
  forall now sid st t tokenString,
    generateTokenId tokenString ∈ sessionTokenIds sid st ->
    let out := revokeSession now sid st in
    activeTokens t sid out.2 = 0
    /\ accepted (validateAndUseToken t tokenString out.2).1 = false
    /\ (validateAndUseToken t tokenString out.2).2 = out.2
    /\ dom (tokenStorage out.2) = dom (tokenStorage st)
    /\ sessionTokens out.2 = sessionTokens st
    /\ (forall id, id ∉ sessionTokenIds sid st ->
          tokenStorage out.2 !! id = tokenStorage st !! id)
    /\ 0 <= out.1 <= Z.of_nat (size (sessionTokenIds sid st)).
Proof.
  intros now sid st t tokenString Hin out. subst out.
  unfold revokeSession. cbn [fst snd]. fold (exhausted now sid st).
  split; [unfold activeTokens; now rewrite exhausted_none_active, size_empty|].
  assert (Hlook : tokenStorage (exhausted now sid st) !! generateTokenId tokenString
                  = (fun e => setToken e (setUsage (token e) 0 now))
                      <$> tokenStorage st !! generateTokenId tokenString).
  { unfold exhausted. cbn [tokenStorage]. rewrite TokenFacts.exhaustAll_lookup.
    destruct (tokenStorage st !! _); simpl; [|reflexivity].
    now rewrite decide_True by assumption. }
  assert (Hval : accepted (validateAndUseToken t tokenString (exhausted now sid st)).1 = false
                 /\ (validateAndUseToken t tokenString (exhausted now sid st)).2
                    = exhausted now sid st).
  { unfold validateAndUseToken. rewrite Hlook.
    destruct (tokenStorage st !! generateTokenId tokenString) as [e|]; simpl; [|now split].
    destruct (expiresAt (token e) <? t); now split. }
  destruct Hval as [Hrefused Hsame].
  split; [exact Hrefused|]. split; [exact Hsame|].
  split.
  { apply set_eq. intros id. rewrite !elem_of_dom. unfold exhausted. cbn [tokenStorage].
    rewrite TokenFacts.exhaustAll_lookup. now rewrite fmap_is_Some. }
  split; [reflexivity|].
  split.
  { intros id Hout. unfold exhausted. cbn [tokenStorage].
    rewrite TokenFacts.exhaustAll_lookup.
    destruct (tokenStorage st !! id); simpl; [|reflexivity].
    now rewrite decide_False by assumption. }
  split; [lia|].
  apply Nat2Z.inj_le, subseteq_size. intros id Hid.
  now apply elem_of_filter in Hid as [_ Hid].
Qed.

Lemma revoked_session_is_refused_witness :
  accepted (validateAndUseToken 20 "auth_tokens/b"
              (revokeSession 10 "s1" fresh_pair).2).1 = false.
Proof.
  destruct (revoked_session_is_refused 10 "s1" fresh_pair 20 "auth_tokens/b")
    as (_ & Hrefused & _).
  - vm_compute. reflexivity.
  - exact Hrefused.
Defined.

(** *** Statistics *)

Lemma class_size_empty now c : class_size now c ∅ = 0.
Proof. unfold class_size. now rewrite map_filter_empty, map_size_empty. Qed.

Lemma class_size_insert now c (m : gmap string TokenStorageEntry) id e :
  m !! id = None ->
  class_size now c (<[id := e]> m)
  = class_size now c m + (if in_class now c (token e) then 1 else 0).
Proof.
  intros Hnew. unfold class_size.
  destruct (in_class now c (token e)) eqn:Hc.
  - rewrite map_filter_insert_True by exact Hc.
    rewrite map_size_insert_None by (now apply map_lookup_filter_None_2; left). lia.
  - rewrite map_filter_insert_False by (simpl; rewrite Hc; discriminate).
    rewrite delete_id by assumption. lia.
Qed.

(** X17.  [getStatistics] counts every stored credential once:
    [expiredTokens], [exhaustedTokens] and [activeTokens] are the numbers of
    entries of the three branches of its loop, and they add up to
    [totalTokens]. *)
Theorem getStatistics_partitions :
  forall now st,
    let s := getStatistics now st in
    stats_activeTokens s = class_size now IsActive (tokenStorage st)
    /\ stats_expiredTokens s = class_size now IsExpired (tokenStorage st)
    /\ stats_exhaustedTokens s = class_size now IsExhausted (tokenStorage st)
    /\ stats_totalTokens s
       = stats_activeTokens s + stats_expiredTokens s + stats_exhaustedTokens s
    /\ stats_sessions s = Z.of_nat (size (sessionTokens st)).
Proof.
  intros now st. unfold getStatistics.
  assert (Hfold :
    map_fold (fun (_ : string) e acc => tally now e acc) (0, 0, 0) (tokenStorage st)
    = (class_size now IsActive (tokenStorage st),
       class_size now IsExpired (tokenStorage st),
       class_size now IsExhausted (tokenStorage st))
    /\ Z.of_nat (size (tokenStorage st))
       = class_size now IsActive (tokenStorage st)
         + class_size now IsExpired (tokenStorage st)
         + class_size now IsExhausted (tokenStorage st)).
  { apply (map_fold_weak_ind
             (fun (r : Z * Z * Z) (m : gmap string TokenStorageEntry) =>
                r = (class_size now IsActive m, class_size now IsExpired m,
                     class_size now IsExhausted m)
                /\ Z.of_nat (size m)
                   = class_size now IsActive m + class_size now IsExpired m
                     + class_size now IsExhausted m)).
    - rewrite !class_size_empty, map_size_empty. now split.
    - intros id e m r Hnew [-> Hsum].
      rewrite !class_size_insert by assumption.
      rewrite map_size_insert_None by assumption.
      unfold tally, in_class.
      destruct (classify now (token e)); cbv iota; rewrite ?Z.add_0_r;
        (split; [reflexivity|lia]). }
  destruct Hfold as [-> Hsum]. simpl. repeat split. exact Hsum.
Qed.

(** X18.  The instant of expiry is read in two ways.  [getStatistics]
    counts a stored credential as active exactly when [validateAndUseToken]
    would accept it at that time, and every credential the quota check of
    [createToken] and [getSessionStatus] count as valid is one of those; but
    a credential with uses left whose [expiresAt] is the current time is
    accepted and counted active by the former and not counted by the
    latter. *)
Theorem expiry_instant_counts_differently :
  forall now tokenString st e,
    tokenStorage st !! generateTokenId tokenString = Some e ->
    (in_class now IsActive (token e) = true
     <-> accepted (validateAndUseToken now tokenString st).1 = true)
    /\ (isActiveId now st (generateTokenId tokenString) = true ->
        in_class now IsActive (token e) = true)
    /\ (expiresAt (token e) = now -> 0 < usesRemaining (token e) ->
        accepted (validateAndUseToken now tokenString st).1 = true
        /\ isActiveId now st (generateTokenId tokenString) = false).
Proof.
  intros now tokenString st e He.
  unfold in_class, classify, validateAndUseToken, isActiveId, isActive. rewrite He.
  destruct (expiresAt (token e) <? now) eqn:Hexp;
    destruct (usesRemaining (token e) <=? 0) eqn:Huse; simpl;
    try apply Z.ltb_lt in Hexp; try apply Z.ltb_ge in Hexp;
    try apply Z.leb_le in Huse; try apply Z.leb_gt in Huse;
    (split; [split; congruence|]); (split; [rewrite andb_true_iff, !Z.ltb_lt; try lia; trivial|]);
    intros Hnow Hpos; lia.
Qed.

Lemma expiry_instant_counts_differently_witness :
  accepted (validateAndUseToken 1800000 "auth_tokens/b" fresh_pair).1 = true
  /\ isActiveId 1800000 fresh_pair (generateTokenId "auth_tokens/b") = false.
Proof.
  destruct (expiry_instant_counts_differently 1800000 "auth_tokens/b" fresh_pair entry_b)
    as (_ & _ & Hinstant).
  - vm_compute. reflexivity.
  - apply Hinstant; [reflexivity|simpl; lia].
Defined.

(** *** The sweep *)

Lemma removeTokenFromSession_other s i sessions sid id :
  id <> i ->
  id ∈ default ∅ (removeTokenFromSession s i sessions !! sid)
  <-> id ∈ default ∅ (sessions !! sid).
Proof.
  intros Hne. unfold removeTokenFromSession.
  destruct (sessions !! s) as [ids|] eqn:Hs; [|reflexivity].
  destruct (decide (sid = s)) as [->|Hsid].
  - rewrite Hs. simpl. destruct (decide _) as [Hempty|Hsome].
    + rewrite lookup_delete_eq. simpl. apply size_empty_inv in Hempty.
      split; [intros H; now apply elem_of_empty in H|].
      intros Hin. apply (Hempty id). apply elem_of_difference.
      split; [assumption|]. now rewrite elem_of_singleton.
    + rewrite lookup_insert_eq. simpl. rewrite elem_of_difference, elem_of_singleton.
      tauto.
  - destruct (decide _).
    + now rewrite lookup_delete_ne by congruence.
    + now rewrite lookup_insert_ne by congruence.
Qed.

(** An identifier whose entry is not swept stays in every session that
    lists it. *)
Lemma cleanup_sessions_kept now st sid id :
  (forall e, tokenStorage st !! id = Some e -> shouldCleanup now (token e) = false) ->
  id ∈ sessionTokenIds sid (cleanup now st).2 <-> id ∈ sessionTokenIds sid st.
Proof.
  intros Hkeep. unfold cleanup, sessionTokenIds. cbn [snd sessionTokens].
  assert (Hnot : filter (fun kv : string * TokenStorageEntry =>
                           shouldCleanup now (token kv.2) = true) (tokenStorage st) !! id
                 = None).
  { apply map_lookup_filter_None. destruct (tokenStorage st !! id) as [e|] eqn:He;
      [right|now left].
    intros x [= <-]. simpl. rewrite (Hkeep e eq_refl). discriminate. }
  revert Hnot.
  generalize (filter (fun kv : string * TokenStorageEntry =>
                        shouldCleanup now (token kv.2) = true) (tokenStorage st)).
  intros doomed.
  apply (map_fold_weak_ind
           (fun (r : gmap string (gset string)) (m : gmap string TokenStorageEntry) =>
              m !! id = None ->
              id ∈ default ∅ (r !! sid) <-> id ∈ default ∅ (sessionTokens st !! sid))).
  - reflexivity.
  - intros i e m r _ IH Hnone.
    apply lookup_insert_None in Hnone as [Hm Hi].
    rewrite removeTokenFromSession_other by congruence. now apply IH.
Qed.

(** X19.  [cleanup] accounts for every stored credential: the number it
    reports as cleaned and the number it reports as remaining add up to the
    number stored before, and the latter is the number stored afterwards.
    It spares every valid credential: each session has as many valid
    credentials after the sweep as before. *)
Theorem cleanup_accounts_and_spares :
  forall now st,
    let out := cleanup now st in
    cleaned out.1 + remainingTokens out.1 = Z.of_nat (size (tokenStorage st))
    /\ remainingTokens out.1 = Z.of_nat (size (tokenStorage out.2))
    /\ forall sid, activeTokenIds now sid out.2 = activeTokenIds now sid st.
Proof.
  intros now st out. subst out. split; [|split].
  - unfold cleanup. cbn [fst cleaned remainingTokens].
    rewrite <- Nat2Z.inj_add. f_equal.
    rewrite <- map_size_disj_union by apply map_disjoint_filter_complement.
    now rewrite map_filter_union_complement.
  - reflexivity.
  - intros sid. apply set_eq. intros id. unfold activeTokenIds.
    rewrite !elem_of_filter. unfold isActiveId. rewrite TokenFacts.cleanup_lookup.
    destruct (tokenStorage st !! id) as [e|] eqn:He; [|split; intros [[=] _]].
    destruct (isActive now (token e)) eqn:Ha.
    + rewrite (TokenFacts.active_not_swept now (token e) Ha).
      rewrite cleanup_sessions_kept; [rewrite Ha; tauto|].
      intros e' He'. rewrite He in He'. inversion He'; subst e'.
      now apply TokenFacts.active_not_swept.
    + destruct (shouldCleanup now (token e)); [|rewrite Ha]; split; intros [[=] _].
Qed.

(** X20.  The sweep is not observable through [validateAndUseToken]: from
    the time of a [cleanup] on, a token string is accepted after it exactly
    when it was accepted without it, with the same answer; only the reason
    of a refusal can change, to 'Token not found'. *)
Theorem cleanup_changes_no_verdict :
  forall now now' tokenString st,
    now <= now' ->
    let before := validateAndUseToken now' tokenString st in
    let after := validateAndUseToken now' tokenString (cleanup now st).2 in
    after.1 = before.1
    \/ (accepted before.1 = false /\ after.1 = InvalidToken "Token not found").
Proof.
  intros now now' tokenString st Hle before after. subst before after.
  unfold validateAndUseToken. rewrite TokenFacts.cleanup_lookup.
  destruct (tokenStorage st !! generateTokenId tokenString) as [e|] eqn:He; [|now left].
  destruct (shouldCleanup now (token e)) eqn:Hsweep.
  - right. apply TokenFacts.shouldCleanup_spec in Hsweep as [[Hexp|Hexh] _].
    + apply Z.ltb_lt in Hexp.
      assert ((expiresAt (token e) <? now') = true) as -> by (apply Z.ltb_lt; lia).
      now split.
    + unfold isExhausted in Hexh. rewrite Hexh.
      destruct (expiresAt (token e) <? now'); now split.
  - left. destruct (expiresAt (token e) <? now'); [reflexivity|].
    destruct (usesRemaining (token e) <=? 0); reflexivity.
Qed.

Lemma cleanup_changes_no_verdict_witness :
  (validateAndUseToken 300001 "auth_tokens/a" (cleanup 300001 spent).2).1
  = InvalidToken "Token not found"
  /\ accepted (validateAndUseToken 300001 "auth_tokens/a" spent).1 = false.
Proof.
  destruct (cleanup_changes_no_verdict 300001 300001 "auth_tokens/a" spent ltac:(lia))
    as [Hsame|[Hrefused Hgone]].
  - split; [vm_compute; reflexivity|vm_compute; reflexivity].
  - split; [exact Hgone|exact Hrefused].
Defined.

(** *** The quota along a run *)

Lemma within_quota_later cfg t0 t st :
  t0 <= t -> within_quota cfg t0 st -> within_quota cfg t st.
Proof.
  intros Hle Hq sid. transitivity (activeTokens t0 sid st); [|apply Hq].
  now apply TokenFacts.activeTokens_later.
Qed.

(** X21.  As long as the operations of the manager run one after the
    other, with a clock that does not go back, no session ever holds more
    valid credentials than [maxTokensPerSession]: the quota that holds at
    the start holds after the whole run, from its last time on. *)
Theorem quota_holds_along_a_run :
  forall cfg ops st t0 t,
    within_quota cfg t0 st ->
    in_order cfg t0 ops st ->
    last_time t0 ops <= t ->
    within_quota cfg t (run_all cfg ops st).
Proof.
  intros cfg ops. induction ops as [|op ops IH]; intros st t0 t Hq Hord Hlast.
  - simpl in *. now apply (within_quota_later cfg t0).
  - destruct Hord as (Htime & Hown & Hrest). simpl in *.
    apply (IH (run cfg op st) (time_of op) t); [|assumption|assumption].
    apply TokenFacts.quota_kept_without_interleaving; [assumption|lia|].
    now apply (within_quota_later cfg t0).
Qed.

Lemma quota_holds_along_a_run_witness :
  activeTokens 9 "s1"
    (run_all defaultConfig
       [Create 0 "" (for_session "s1") "client" (Some "auth_tokens/a"%string);
        Validate 1 "auth_tokens/a"; Revoke 2 "s1"; Cleanup 9] initial) <= 3.
Proof.
  assert (Hnone : forall sid, sessionTokenIds sid initial = ∅)
    by (intros sid; unfold sessionTokenIds, initial; simpl; now rewrite lookup_empty).
  apply (quota_holds_along_a_run defaultConfig
           [Create 0 "" (for_session "s1") "client" (Some "auth_tokens/a"%string);
            Validate 1 "auth_tokens/a"; Revoke 2 "s1"; Cleanup 9] initial 0 9).
  - intros sid. unfold activeTokens, activeTokenIds. rewrite Hnone.
    rewrite filter_empty_L by apply _. rewrite size_empty. simpl. lia.
  - simpl. repeat split; try lia; intros name sid Hname Hin; try discriminate Hname.
    rewrite Hnone in Hin. now apply elem_of_empty in Hin.
  - simpl. lia.
Defined.

(** *** [getSessionStatus] *)

Lemma later_spec acc used r :
  later acc used = Some r <->
  (acc = Some r /\ (forall u, used = Some u -> u <= r))
  \/ (used = Some r /\ (forall a, acc = Some a -> a <= r)).
Proof.
  destruct acc as [a|], used as [u|]; simpl; split.
  - intros [= <-]. destruct (Z.max_spec a u) as [[Hlt ->]|[Hle ->]].
    + right. split; [reflexivity|]. intros ? [= <-]. lia.
    + left. split; [reflexivity|]. intros ? [= <-]. lia.
  - intros [[[= ->] Hu]|[[= ->] Ha]]; f_equal.
    + specialize (Hu u eq_refl). lia.
    + specialize (Ha a eq_refl). lia.
  - intros [= <-]. left. split; [reflexivity|discriminate].
  - intros [[[= ->] _]|[[=] _]]. reflexivity.
  - intros [= <-]. right. split; [reflexivity|discriminate].
  - intros [[[=] _]|[[= ->] _]]. reflexivity.
  - discriminate.
  - intros [[[=] _]|[[=] _]].
Qed.

(** X22.  [getSessionStatus] reports the latest use of the session:
    [lastActivity] is the [lastUsed] of one of the stored credentials of the
    session and no credential of the session was used later; it is absent
    exactly when none of them has been used.  The number of valid
    credentials it reports is at most the number of identifiers. *)
Theorem getSessionStatus_reports_latest_use :
  forall now sid st,
    let status := getSessionStatus now sid st in
    let used id u := id ∈ sessionTokenIds sid st
                     /\ exists e, tokenStorage st !! id = Some e
                                  /\ lastUsed (token e) = Some u in
    (forall id u, used id u ->
       exists m, status_lastActivity status = Some m /\ u <= m)
    /\ (forall m, status_lastActivity status = Some m -> exists id, used id m)
    /\ 0 <= status_activeTokens status <= status_totalTokens status.
Proof.
  intros now sid st status used. subst status used.
  unfold getSessionStatus. cbn [status_lastActivity status_activeTokens status_totalTokens].
  split; [|split].
  - apply (set_fold_ind_L
             (fun r (X : gset string) =>
                forall id u,
                  id ∈ X /\ (exists e, tokenStorage st !! id = Some e
                                       /\ lastUsed (token e) = Some u) ->
                  exists m, r = Some m /\ u <= m)).
    + intros id u [Hin _]. now apply elem_of_empty in Hin.
    + intros x X r Hnew IH id u [Hin (e & He & Hu)].
      apply elem_of_union in Hin as [Hin|Hin].
      * apply elem_of_singleton in Hin. subst x. rewrite He.
        destruct (later r (lastUsed (token e))) as [m|] eqn:Hm.
        -- exists m. split; [reflexivity|].
           apply later_spec in Hm as [[_ Hm]|[Hm _]]; [now apply Hm|].
           rewrite Hu in Hm. inversion Hm. lia.
        -- rewrite Hu in Hm. destruct r; discriminate.
      * destruct (IH id u) as (m & -> & Hle); [split; [assumption|now exists e]|].
        destruct (tokenStorage st !! x) as [e'|]; [|now exists m].
        destruct (later (Some m) (lastUsed (token e'))) as [m'|] eqn:Hm;
          [|destruct (lastUsed (token e')); discriminate].
        exists m'. split; [reflexivity|].
        apply later_spec in Hm as [[[= <-] _]|[_ Hm]]; [assumption|].
        specialize (Hm m eq_refl). lia.
  - apply (set_fold_ind_L
             (fun r (X : gset string) =>
                forall m, r = Some m ->
                  exists id, id ∈ X /\ (exists e, tokenStorage st !! id = Some e
                                                  /\ lastUsed (token e) = Some m))).
    + discriminate.
    + intros x X r Hnew IH m Hm.
      assert (Hold : r = Some m ->
                exists id, id ∈ {[x]} ∪ X
                           /\ (exists e, tokenStorage st !! id = Some e
                                         /\ lastUsed (token e) = Some m)).
      { intros Hr. destruct (IH m Hr) as (id & Hin & Hid). exists id.
        split; [apply elem_of_union; now right|assumption]. }
      destruct (tokenStorage st !! x) as [e|] eqn:He; [|now apply Hold].
      apply later_spec in Hm as [[Hr _]|[Hu _]]; [now apply Hold|].
      exists x. split; [apply elem_of_union; left; now apply elem_of_singleton|].
      now exists e.
  - unfold activeTokens, activeTokenIds. split; [lia|].
    apply Nat2Z.inj_le, subseteq_size. intros id Hid.
    now apply elem_of_filter in Hid as [_ Hid].
Qed.

Lemma getSessionStatus_reports_latest_use_witness :
  status_lastActivity (getSessionStatus 10 "s1" spent) = Some 0.
Proof.
  destruct (getSessionStatus_reports_latest_use 10 "s1" spent) as (Hlatest & Hsome & _).
  destruct (Hlatest (generateTokenId "auth_tokens/a") 0) as (m & Hm & Hle).
  - split; [vm_compute; reflexivity|].
    exists entry_a_spent. split; vm_compute; reflexivity.
  - destruct (Hsome m Hm) as (id & _ & _). vm_compute. reflexivity.
Defined.

End TokenCoverage.

(** ** More on the live client *)

Module ClientCoverage.
Import LiveClient ClientAdmin.

(** *** Back-off *)

Lemma scheduleReconnection_arms cfg st :
  reconnectAttempts st < maxRetries cfg ->
  let st' := scheduleReconnection cfg st in
  reconnectAttempts st' = reconnectAttempts st + 1
  /\ timers st' = timers st ++ [{| handle := nextHandle st;
                                   delay := retryDelayMs cfg * 2 ^ reconnectAttempts st;
                                   callback := RunReconnect |}]
  /\ emitted st' = emitted st ++ [reconnecting (reconnectAttempts st + 1) (maxRetries cfg)]
  /\ reconnectTimer st' = Some (nextHandle st)
  /\ nextHandle st' = S (nextHandle st)
  /\ status st' = status st /\ session st' = session st.
Proof.
  intros Hlt. unfold scheduleReconnection.
  assert ((maxRetries cfg <=? reconnectAttempts st) = false) as -> by (apply Z.leb_gt; lia).
  simpl. replace (reconnectAttempts st + 1 - 1) with (reconnectAttempts st) by lia.
  repeat split.
Qed.

Lemma scheduleReconnection_gives_up cfg st :
  maxRetries cfg <= reconnectAttempts st ->
  scheduleReconnection cfg st = emit reconnectfailed st.
Proof.
  intros Hle. unfold scheduleReconnection.
  now assert ((maxRetries cfg <=? reconnectAttempts st) = true) as -> by (apply Z.leb_le; lia).
Qed.

(** X23.  The back-off doubles.  When [scheduleReconnection] is called
    again and again with no [connect] in between and the limit is not
    passed, call number [i] arms a timer of [retryDelayMs * 2 ^ (a + i)],
    [a] being the count at the start, and announces attempt [a + i + 1];
    once the count has reached [maxRetries] a further call arms nothing and
    emits [reconnectfailed]. *)
Theorem backoff_doubles_until_the_limit :
  forall cfg n st,
    0 <= reconnectAttempts st ->
    reconnectAttempts st + Z.of_nat n <= maxRetries cfg ->
    let a := reconnectAttempts st in
    let st' := scheduleReconnections cfg n st in
    reconnectAttempts st' = a + Z.of_nat n
    /\ map delay (timers st')
       = map delay (timers st)
         ++ map (fun i => retryDelayMs cfg * 2 ^ (a + Z.of_nat i)) (seq 0 n)
    /\ emitted st'
       = emitted st
         ++ map (fun i => reconnecting (a + Z.of_nat i + 1) (maxRetries cfg)) (seq 0 n)
    /\ (a + Z.of_nat n = maxRetries cfg ->
        timers (scheduleReconnection cfg st') = timers st'
        /\ emitted (scheduleReconnection cfg st') = emitted st' ++ [reconnectfailed]
        /\ reconnectAttempts (scheduleReconnection cfg st') = maxRetries cfg).
Proof.
  intros cfg n. induction n as [|n IH]; intros st Hpos Hmax a st'; subst a st'.
  - simpl. rewrite !app_nil_r, Z.add_0_r.
    split; [reflexivity|]. split; [reflexivity|]. split; [reflexivity|].
    intros Hfull. rewrite scheduleReconnection_gives_up by lia. simpl.
    split; [reflexivity|]. split; [reflexivity|]. lia.
  - destruct (scheduleReconnection_arms cfg st ltac:(lia))
      as (Hcount & Htimers & Hemitted & _).
    cbn [scheduleReconnections].
    destruct (IH (scheduleReconnection cfg st) ltac:(lia) ltac:(lia))
      as (IHcount & IHtimers & IHemitted & IHfull).
    rewrite Hcount in IHcount, IHtimers, IHemitted, IHfull.
    rewrite Htimers in IHtimers. rewrite Hemitted in IHemitted.
    split; [rewrite IHcount; lia|].
    split; [|split].
    + rewrite IHtimers, map_app, <- app_assoc. f_equal.
      cbn [map delay seq app]. rewrite Z.add_0_r. f_equal.
      rewrite <- seq_shift, map_map. apply map_ext. intros i. do 2 f_equal. lia.
    + rewrite IHemitted, <- app_assoc. f_equal.
      cbn [map seq app]. rewrite Z.add_0_r. f_equal.
      rewrite <- seq_shift, map_map. apply map_ext. intros i. f_equal. lia.
    + intros Hfull. apply IHfull. lia.
Qed.

Lemma backoff_doubles_until_the_limit_witness :
  map delay (timers (scheduleReconnections defaultTokenConfig 3 connected_session))
  = map delay (timers connected_session) ++ [1000; 2000; 4000]
  /\ emitted (scheduleReconnection defaultTokenConfig
                (scheduleReconnections defaultTokenConfig 3 connected_session))
     = emitted (scheduleReconnections defaultTokenConfig 3 connected_session)
       ++ [reconnectfailed].
Proof.
  destruct (backoff_doubles_until_the_limit defaultTokenConfig 3 connected_session)
    as (_ & Hdelays & _ & Hfull).
  - vm_compute. discriminate.
  - vm_compute. discriminate.
  - split; [exact Hdelays|].
    destruct Hfull as (_ & Hfailed & _); [reflexivity|exact Hfailed].
Defined.

(** *** [disconnect] *)

Lemma find_none_all {A : Type} (f : A -> bool) (l : list A) :
  (forall x, In x l -> f x = false) -> find f l = None.
Proof.
  induction l as [|x l IH]; intros Hall; [reflexivity|].
  simpl. rewrite (Hall x (or_introl eq_refl)). apply IH.
  intros y Hy. apply Hall. now right.
Qed.

(** X24.  The timers [disconnect] cancels never run.  When a session is
    open, the refresh timer and the reconnect timer recorded in the client
    are no longer armed after [disconnect], so their handles firing later
    changes nothing; the client is left disconnected, without a session and
    with its attempt count at zero. *)
Theorem cancelled_timers_never_fire :
  forall cfg now st s h,
    session st = Some s ->
    refreshTimer st = Some h \/ reconnectTimer st = Some h ->
    let st' := (disconnect st).2 in
    armed h st' = None
    /\ step cfg now (TimerFires h) st' = st'
    /\ status st' = Disconnected /\ session st' = None /\ reconnectAttempts st' = 0.
Proof.
  intros cfg now st s h Hs Hh st'.
  destruct (ClientFacts.disconnect_with_session st s Hs)
    as (_ & Hstatus & Hsession & _ & _ & _ & _ & _ & _ & Hgone & _).
  fold st' in Hstatus, Hsession, Hgone.
  assert (Hnone : armed h st' = None).
  { unfold armed. apply find_none_all. intros t Ht.
    destruct (Hgone t Ht) as [Hrefresh Hreconnect].
    apply Nat.eqb_neq. intros <-. destruct Hh; contradiction. }
  split; [exact Hnone|]. split; [simpl; unfold fire; now rewrite Hnone|].
  split; [exact Hstatus|]. split; [exact Hsession|].
  subst st'. unfold disconnect. rewrite Hs. reflexivity.
Qed.

Lemma cancelled_timers_never_fire_witness :
  step defaultTokenConfig 1500000 (TimerFires 1) (disconnect connected_session).2
  = (disconnect connected_session).2.
Proof.
  destruct (cancelled_timers_never_fire defaultTokenConfig 1500000 connected_session
              7%nat 1%nat) as (_ & Hfire & _).
  - vm_compute. reflexivity.
  - left. vm_compute. reflexivity.
  - exact Hfire.
Defined.

(** *** [sendRealtimeInput] *)

Lemma sendLoop_spec chunks : forall a v,
  a && v = false ->
  exists dropped,
    chunks = (sendLoop a v chunks).1 ++ dropped
    /\ (sendLoop a v chunks).2
       = (a || existsb isAudio (sendLoop a v chunks).1,
          v || existsb isImage (sendLoop a v chunks).1)
    /\ (dropped <> [] ->
        (a || existsb isAudio (sendLoop a v chunks).1)
        && (v || existsb isImage (sendLoop a v chunks).1) = true)
    /\ (forall p q, (sendLoop a v chunks).1 = p ++ q -> q <> [] ->
          (a || existsb isAudio p) && (v || existsb isImage p) = false)
    /\ (a || existsb isAudio (sendLoop a v chunks).1)
       && (v || existsb isImage (sendLoop a v chunks).1)
       = (a || existsb isAudio chunks) && (v || existsb isImage chunks).
Proof.
  induction chunks as [|ch rest IH]; intros a v Hav.
  - exists []. simpl. rewrite !orb_false_r.
    split; [reflexivity|]. split; [reflexivity|]. split; [intros H; now contradiction H|].
    split; [|reflexivity].
    intros p q Hpq Hq. symmetry in Hpq. apply app_eq_nil in Hpq as [_ ->]. now contradiction Hq.
  - cbn [sendLoop].
    set (a1 := if isAudio ch then true else a).
    set (v1 := if isImage ch then true else v).
    assert (Ha1 : a1 = a || isAudio ch) by (subst a1; destruct (isAudio ch), a; reflexivity).
    assert (Hv1 : v1 = v || isImage ch) by (subst v1; destruct (isImage ch), v; reflexivity).
    destruct (a1 && v1) eqn:Hboth.
    + exists rest. cbn [fst snd existsb app]. rewrite !orb_false_r, <- Ha1, <- Hv1.
      split; [reflexivity|]. split; [reflexivity|]. split; [intros _; exact Hboth|].
      split.
      * intros p q Hpq Hq. destruct p as [|c p]; [simpl; now rewrite !orb_false_r|].
        inversion Hpq as [[Hc Hnil]]. symmetry in Hnil.
        apply app_eq_nil in Hnil as [_ ->]. now contradiction Hq.
      * rewrite Hboth. symmetry. rewrite !orb_assoc, <- Ha1, <- Hv1.
        apply andb_true_iff in Hboth as [-> ->]. reflexivity.
    + destruct (IH a1 v1 Hboth) as (dropped & Hsplit & Hflags & Hdropped & Hmin & Hall).
      destruct (sendLoop a1 v1 rest) as [sent flags]. cbn [fst snd] in *.
      exists dropped. cbn [existsb app]. rewrite !orb_assoc, <- Ha1, <- Hv1.
      split; [now rewrite <- Hsplit|]. split; [exact Hflags|]. split; [exact Hdropped|].
      split; [|exact Hall].
      intros p q Hpq Hq. destruct p as [|c p]; [simpl; now rewrite !orb_false_r|].
      inversion Hpq as [[Hc Hrest]]. subst c. cbn [existsb].
      rewrite !orb_assoc, <- Ha1, <- Hv1. now apply (Hmin p q).
Qed.

(** X25.  [sendRealtimeInput] hands the session a prefix of the chunks it
    is given: the shortest one in which both an audio and an image chunk
    occur, and all of them when there is no such prefix.  The chunks after
    that prefix are not sent.  The message logged is 'audio + video' exactly
    when both kinds occur among the chunks given, and without a session
    nothing is sent. *)
Theorem sendRealtimeInput_stops_at_first_pair :
  forall s chunks,
    let out := sendRealtimeInput (Some s) chunks in
    (exists dropped, chunks = out.1 ++ dropped /\ (dropped <> [] -> both out.1 = true))
    /\ (forall p q, out.1 = p ++ q -> q <> [] -> both p = false)
    /\ (out.2 = "audio + video"%string <-> both chunks = true)
    /\ sendRealtimeInput None chunks = ([], out.2).
Proof.
  intros s chunks out. subst out. unfold sendRealtimeInput, both.
  destruct (sendLoop_spec chunks false false eq_refl)
    as (dropped & Hsplit & Hflags & Hdropped & Hmin & Hall).
  destruct (sendLoop false false chunks) as [sent [hasAudio hasVideo]].
  cbn [fst snd orb] in *. inversion Hflags; subst hasAudio hasVideo; clear Hflags.
  split; [exists dropped; now split|]. split; [exact Hmin|].
  split; [|reflexivity].
  rewrite <- Hall.
  destruct (existsb isAudio sent), (existsb isImage sent); simpl; split;
    (reflexivity || discriminate).
Qed.

Lemma sendRealtimeInput_stops_at_first_pair_witness :
  (sendRealtimeInput (Some 7%nat) [pcm; jpeg; pcm; jpeg]).1 = [pcm; jpeg]
  /\ both [pcm] = false.
Proof.
  destruct (sendRealtimeInput_stops_at_first_pair 7%nat [pcm; jpeg; pcm; jpeg])
    as (_ & Hmin & _).
  split; [vm_compute; reflexivity|].
  apply (Hmin [pcm] [jpeg]); [vm_compute; reflexivity|discriminate].
Defined.

(** *** Reconnection *)

Lemma scheduleTokenRefresh_fields cfg now st :
  let st' := scheduleTokenRefresh cfg now st in
  status st' = status st /\ session st' = session st
  /\ reconnectAttempts st' = reconnectAttempts st
  /\ currentToken st' = currentToken st /\ tokenExpiresAt st' = tokenExpiresAt st
  /\ emitted st' = emitted st /\ pendingTokenRequest st' = pendingTokenRequest st
  /\ tasks st' = tasks st.
Proof.
  unfold scheduleTokenRefresh, setTimeout, clearTimeout.
  destruct (refreshTimer st); cbn;
    (destruct (tokenExpiresAt st) eqn:He; cbn; [destruct (0 <? _); cbn|]);
    repeat split; exact He.
Qed.

(** X26.  A reconnect attempt that succeeds brings the client back: when
    the reconnect timer fires, the token request is answered and the session
    is opened, the client is connected with the new session and the new
    token, its attempt count is back at zero, [reconnected] is the one
    event emitted, and no call is left parked. *)
Theorem successful_reconnect_resets :
  forall cfg now1 now2 now3 h t st tok s,
    armed h st = Some t ->
    callback t = RunReconnect ->
    is_Some (model st) ->
    pendingTokenRequest st = None ->
    Forall (fun t' => wakes (TokenSettles (nextPromise st) (Some tok)) t' = false)
      (tasks st) ->
    Forall (fun t' => wakes (SessionSettles (nextRequest st) (Some s)) t' = false)
      (tasks st) ->
    let st' := step cfg now3 (SessionSettles (nextRequest st) (Some s))
                 (step cfg now2 (TokenSettles (nextPromise st) (Some tok))
                    (step cfg now1 (TimerFires h) st)) in
    status st' = Connected /\ session st' = Some s /\ reconnectAttempts st' = 0
    /\ currentToken st' = Some (token tok) /\ tokenExpiresAt st' = Some (expiresAt tok)
    /\ emitted st' = emitted st ++ [reconnected]
    /\ tasks st' = tasks st
    /\ pendingTokenRequest st' = None.
Proof.
  intros cfg now1 now2 now3 h t st tok s Harmed Hcb [m Hm] Hnone Htoken Hsession st'.
  assert (Hfinal : exists mid,
            st' = emit reconnected
                    (set_reconnectAttempts 0
                       (if autoRefresh cfg then scheduleTokenRefresh cfg now3 mid else mid))
            /\ status mid = Connected /\ session mid = Some s
            /\ currentToken mid = Some (token tok)
            /\ tokenExpiresAt mid = Some (expiresAt tok)
            /\ emitted mid = emitted st /\ tasks mid = tasks st
            /\ pendingTokenRequest mid = None).
  { subst st'. cbn [step]. unfold fire. rewrite Harmed, Hcb.
    change (model (clearTimeout h st)) with (model st).
    rewrite Hm, ClientFacts.connect_begin_starts; [|reflexivity|assumption].
    destruct (ClientFacts.filter_none_woken _ _ Htoken) as [Hwoken Hparked].
    destruct (ClientFacts.filter_none_woken _ _ Hsession) as [Hwoken' Hparked'].
    unfold settle at 2. unfold park. cbn -[wakes settle scheduleTokenRefresh].
    rewrite !List.filter_app, Hwoken, Hparked. simpl List.filter.
    rewrite Nat.eqb_refl. cbn [negb app fold_left resume connect_with_token].
    unfold settle, park. cbn -[wakes scheduleTokenRefresh].
    rewrite !List.filter_app, Hwoken', Hparked'. simpl List.filter.
    rewrite Nat.eqb_refl.
    cbn [negb app fold_left resume connect_with_session after_connect].
    eexists. split; [reflexivity|]. cbn. rewrite !app_nil_r. repeat split. }
  destruct Hfinal as (mid & -> & Hstatus & Hsess & Htok & Hexp & Hemitted & Htasks & Hpending).
  destruct (scheduleTokenRefresh_fields cfg now3 mid)
    as (H1 & H2 & H3 & H4 & H5 & H6 & H7 & H8).
  destruct (autoRefresh cfg); cbn -[scheduleTokenRefresh];
    rewrite ?H1, ?H2, ?H4, ?H5, ?H6, ?H7, ?H8, Hemitted; repeat split; assumption.
Qed.

Lemma successful_reconnect_resets_witness :
  let st' := step defaultTokenConfig 1200 (SessionSettles 1 (Some 7%nat))
               (step defaultTokenConfig 1100 (TokenSettles 2 (Some half_hour_token))
                  (step defaultTokenConfig 1050 (TimerFires 1) never_connected)) in
  status st' = Connected /\ reconnectAttempts st' = 0.
Proof.
  destruct (successful_reconnect_resets defaultTokenConfig 1050 1100 1200 1%nat
              {| handle := 1; delay := 1000; callback := RunReconnect |}
              never_connected half_hour_token 7%nat)
    as (Hstatus & _ & Hcount & _).
  - vm_compute. reflexivity.
  - reflexivity.
  - exists "models/live"%string. vm_compute. reflexivity.
  - vm_compute. reflexivity.
  - vm_compute. constructor.
  - vm_compute. constructor.
  - split; [exact Hstatus|exact Hcount].
Defined.

(** *** What holds in every state of a run *)

Lemma steady_view cfg st st' : view st' = view st -> steady cfg st -> steady cfg st'.
Proof.
  unfold view, steady. intros [= Ha Ht Hst Hs]. rewrite Ha, Ht, Hst, Hs. tauto.
Qed.

Lemma steady_setTimeout cfg cb d st :
  timer_ok cfg {| handle := nextHandle st; delay := d; callback := cb |} ->
  steady cfg st -> steady cfg (setTimeout cb d st).2.
Proof.
  intros Hok (Ha & Ht & Hs). unfold steady, setTimeout; simpl.
  split; [exact Ha|]. split; [|exact Hs].
  apply Forall_app. split; [exact Ht|]. now constructor.
Qed.

Lemma steady_clearTimeout cfg h st : steady cfg st -> steady cfg (clearTimeout h st).
Proof.
  intros (Ha & Ht & Hs). unfold steady, clearTimeout; simpl.
  split; [exact Ha|]. split; [|exact Hs].
  rewrite Forall_forall in *. intros t Hin.
  apply list_elem_of_filter in Hin as [_ Hin]. now apply Ht.
Qed.

Lemma steady_scheduleReconnection cfg st :
  steady cfg st -> steady cfg (scheduleReconnection cfg st).
Proof.
  intros H. unfold scheduleReconnection.
  destruct (maxRetries cfg <=? reconnectAttempts st) eqn:Hmax; [exact H|].
  apply Z.leb_gt in Hmax. destruct H as (Ha & Ht & Hs).
  unfold steady, setTimeout; simpl.
  split; [lia|]. split; [|exact Hs].
  apply Forall_app. split; [exact Ht|]. constructor; [|constructor].
  unfold timer_ok; simpl. exists (reconnectAttempts st).
  split; [lia|]. do 2 f_equal. lia.
Qed.

Lemma steady_scheduleTokenRefresh cfg now st :
  steady cfg st -> steady cfg (scheduleTokenRefresh cfg now st).
Proof.
  intros H. unfold scheduleTokenRefresh.
  assert (H1 : steady cfg match refreshTimer st with
                          | Some h => clearTimeout h st
                          | None => st
                          end)
    by (destruct (refreshTimer st); [now apply steady_clearTimeout|exact H]).
  revert H1. generalize (match refreshTimer st with
                         | Some h => clearTimeout h st
                         | None => st
                         end).
  intros st1 H1. destruct (tokenExpiresAt st1); [|exact H1].
  destruct (0 <? _) eqn:Hpos.
  - apply Z.ltb_lt in Hpos.
    match goal with
    | |- steady cfg (let '(_, _) := setTimeout ?cb ?d ?s0 in _) =>
        apply (steady_view cfg (setTimeout cb d s0).2); [reflexivity|]
    end.
    apply steady_setTimeout; [unfold timer_ok; simpl; lia|exact H1].
  - apply steady_setTimeout; [unfold timer_ok; simpl; lia|exact H1].
Qed.

Lemma steady_reset cfg st :
  steady cfg st -> steady cfg (set_reconnectAttempts 0 st).
Proof. intros (Ha & Ht & Hs). unfold steady; simpl. split; [lia|]. now split. Qed.

Lemma steady_after_connect cfg caller result st :
  steady cfg st -> steady cfg (after_connect cfg caller result st).
Proof.
  intros H. unfold after_connect. destruct caller; [exact H|].
  destruct result as [[|]|]; try now apply steady_scheduleReconnection.
  apply (steady_view cfg (set_reconnectAttempts 0 st)); [reflexivity|].
  now apply steady_reset.
Qed.

Lemma steady_not_connected cfg v st :
  v <> Connected -> steady cfg st -> steady cfg (set_status v st).
Proof.
  intros Hv (Ha & Ht & _). unfold steady; simpl. split; [exact Ha|].
  split; [exact Ht|]. intros Hc. contradiction.
Qed.

Lemma steady_connect_failed cfg st :
  steady cfg st -> steady cfg (connect_failed cfg st).2.
Proof.
  intros H. unfold connect_failed.
  assert (H1 : steady cfg (set_status Disconnected st))
    by (now apply steady_not_connected).
  destruct (shouldRetryConnection _ _); cbn [snd];
    [apply steady_scheduleReconnection|]; exact H1.
Qed.

Lemma steady_connect_begin cfg caller m st :
  steady cfg st -> steady cfg (connect_begin cfg caller m st).
Proof.
  intros H. unfold connect_begin.
  assert (H1 : steady cfg (set_reconnectAttempts 0
                             (set_model m (set_status Connecting st)))).
  { apply steady_reset.
    apply (steady_view cfg (set_status Connecting st)); [reflexivity|].
    now apply steady_not_connected. }
  destruct (status st); try (now apply steady_after_connect);
    (destruct m; [|now apply steady_after_connect]);
    unfold getValidToken;
    (destruct (pendingTokenRequest _);
     [eapply steady_view; [|exact H1]; reflexivity
     |eapply steady_view; [|exact H1]; reflexivity]).
Qed.

Lemma steady_disconnect cfg st : steady cfg st -> steady cfg (disconnect st).2.
Proof.
  intros H. unfold disconnect. destruct (session st); [|exact H].
  cbn [snd].
  assert (H1 : steady cfg match refreshTimer st with
                          | Some h => set_refreshTimer None (clearTimeout h st)
                          | None => st
                          end).
  { destruct (refreshTimer st) as [h|]; [|exact H].
    apply (steady_view cfg (clearTimeout h st)); [reflexivity|].
    now apply steady_clearTimeout. }
  revert H1. generalize (match refreshTimer st with
                         | Some h => set_refreshTimer None (clearTimeout h st)
                         | None => st
                         end).
  intros st1 H1.
  assert (H2 : steady cfg match reconnectTimer st1 with
                          | Some h => set_reconnectTimer None (clearTimeout h st1)
                          | None => st1
                          end).
  { destruct (reconnectTimer st1) as [h|]; [|exact H1].
    apply (steady_view cfg (clearTimeout h st1)); [reflexivity|].
    now apply steady_clearTimeout. }
  revert H2. generalize (match reconnectTimer st1 with
                         | Some h => set_reconnectTimer None (clearTimeout h st1)
                         | None => st1
                         end).
  intros st2 (Ha & Ht & _). unfold steady; simpl.
  split; [lia|]. split; [exact Ht|discriminate].
Qed.

Lemma steady_resume cfg now i t st :
  steady cfg st -> steady cfg (resume cfg now i t st).2.
Proof.
  intros H. destruct i, t as [p owner caller|r caller|r]; cbn [resume snd]; try exact H.
  - assert (H1 : steady cfg (if owner then set_pendingTokenRequest None st else st))
      by (destruct owner; exact H).
    revert H1. generalize (if owner then set_pendingTokenRequest None st else st).
    intros st1 H1. unfold connect_with_token. destruct result.
    + eapply steady_view; [|exact H1]. reflexivity.
    + pose proof (steady_connect_failed cfg st1 H1) as H2.
      now destruct (connect_failed cfg st1).
  - unfold connect_with_session. destruct result as [s|].
    + cbn [snd].
      assert (H1 : steady cfg (set_status Connected (set_session (Some s) st))).
      { destruct H as (Ha & Ht & _). unfold steady; simpl.
        split; [exact Ha|]. split; [exact Ht|]. intros _. now exists s. }
      destruct (autoRefresh cfg); [now apply steady_scheduleTokenRefresh|exact H1].
    + pose proof (steady_connect_failed cfg st H) as H2.
      now destruct (connect_failed cfg st).
  - unfold refreshToken_end. destruct result.
    + assert (H1 : steady cfg
                     (emit (tokenrefresh (token t) (expiresAt t))
                        (set_tokenExpiresAt (Some (expiresAt t))
                           (set_currentToken (Some (token t)) st))))
        by (eapply steady_view; [|exact H]; reflexivity).
      destruct (autoRefresh cfg); [now apply steady_scheduleTokenRefresh|exact H1].
    + apply steady_scheduleReconnection.
      eapply steady_view; [|exact H]. reflexivity.
Qed.

Lemma steady_step cfg now i st : steady cfg st -> steady cfg (step cfg now i st).
Proof.
  intros H.
  assert (Hsettle : forall i', steady cfg (settle cfg now i' st)).
  { intros i'. apply ClientFacts.settle_preserves.
    - intros t st0. apply steady_resume.
    - intros caller r st0. apply steady_after_connect.
    - eapply steady_view; [|exact H]. reflexivity. }
  destruct i; simpl; try apply Hsettle.
  - now apply steady_connect_begin.
  - now apply steady_disconnect.
  - eapply steady_view; [|exact H]. reflexivity.
  - unfold fire. destruct (armed h st) as [t|]; [|exact H].
    destruct (callback t).
    + apply (steady_view cfg (clearTimeout h st)); [reflexivity|].
      now apply steady_clearTimeout.
    + apply steady_connect_begin. apply steady_not_connected; [discriminate|].
      now apply steady_clearTimeout.
  - assert (H1 : steady cfg (emit (close code) st))
      by (eapply steady_view; [|exact H]; reflexivity).
    destruct (_ && _); [now apply steady_scheduleReconnection|exact H1].
  - assert (H1 : steady cfg (emit error st))
      by (eapply steady_view; [|exact H]; reflexivity).
    destruct tokenRelated; [|exact H1].
    eapply steady_view; [|exact H1]. reflexivity.
Qed.

(** X27.  In every state a client reaches, whatever the calls, answers,
    timers and server events: the attempt count is between zero and
    [maxRetries] (zero when [maxRetries] is negative); every reconnect timer
    armed waits [retryDelayMs * 2 ^ k]
    for some [k] below [maxRetries], so never longer than
    [retryDelayMs * 2 ^ (maxRetries - 1)]; no refresh timer waits a negative
    time; and a client whose status is connected has a session. *)
Theorem reachable_states_are_steady :
  forall cfg st,
    reachable cfg st ->
    0 <= reconnectAttempts st <= Z.max 0 (maxRetries cfg)
    /\ (forall t, In t (timers st) -> callback t = RunReconnect ->
          (exists k, 0 <= k < maxRetries cfg /\ delay t = retryDelayMs cfg * 2 ^ k)
          /\ (0 <= retryDelayMs cfg ->
              0 <= delay t <= retryDelayMs cfg * 2 ^ (maxRetries cfg - 1)))
    /\ (forall t, In t (timers st) -> callback t = RunRefresh -> 0 <= delay t)
    /\ (status st = Connected -> is_Some (session st)).
Proof.
  intros cfg st Hreach.
  assert (H : steady cfg st).
  { induction Hreach as [|now i st _ IH]; [|now apply steady_step].
    unfold steady; simpl. split; [lia|]. split; [constructor|discriminate]. }
  destruct H as (Ha & Ht & Hs). split; [exact Ha|]. split; [|split; [|exact Hs]].
  - intros t Hin Hcb. rewrite Forall_forall in Ht.
    specialize (Ht t (proj2 (list_elem_of_In _ _) Hin)).
    unfold timer_ok in Ht. rewrite Hcb in Ht. split; [exact Ht|].
    destruct Ht as (k & Hk & ->). intros Hd. split.
    + apply Z.mul_nonneg_nonneg; [assumption|]. apply Z.pow_nonneg. lia.
    + apply Z.mul_le_mono_nonneg_l; [assumption|].
      apply Z.pow_le_mono_r; lia.
  - intros t Hin Hcb. rewrite Forall_forall in Ht.
    specialize (Ht t (proj2 (list_elem_of_In _ _) Hin)).
    unfold timer_ok in Ht. now rewrite Hcb in Ht.
Qed.

Lemma reachable_states_are_steady_witness :
  reconnectAttempts (run_inputs defaultTokenConfig four_failures connected_session) <= 3.
Proof.
  destruct (reachable_states_are_steady defaultTokenConfig
              (run_inputs defaultTokenConfig four_failures connected_session))
    as ([_ Hle] & _).
  - apply ClientFacts.reachable_run. apply ClientFacts.reachable_run. constructor.
  - exact Hle.
Defined.

End ClientCoverage.

(** ** The client-side token cache *)

Module CacheCoverage.
Import TokenManager TokenCache.

(** *** The ordered map *)

Lemma map_get_set_eq {V : Type} k (v : V) m : map_get k (map_set k v m) = Some v.
Proof.
  induction m as [|[k' v'] m IH]; simpl; [now rewrite String.eqb_refl|].
  destruct (String.eqb k' k) eqn:Hk; simpl; now rewrite Hk.
Qed.

Lemma map_get_set_ne {V : Type} k k' (v : V) m :
  k <> k' -> map_get k' (map_set k v m) = map_get k' m.
Proof.
  intros Hne. induction m as [|[k0 v0] m IH]; simpl.
  - now apply String.eqb_neq in Hne as ->.
  - destruct (String.eqb k0 k) eqn:Hk; simpl; [|now rewrite IH].
    apply String.eqb_eq in Hk as ->.
    now apply String.eqb_neq in Hne as ->.
Qed.

Lemma map_get_delete_eq {V : Type} k (m : list (string * V)) :
  map_get k (map_delete k m) = None.
Proof.
  unfold map_delete. induction m as [|[k' v'] m IH]; simpl; [reflexivity|].
  destruct (String.eqb k' k) eqn:Hk; simpl; [exact IH|now rewrite Hk].
Qed.

Lemma map_get_delete_ne {V : Type} k k' (m : list (string * V)) :
  k <> k' -> map_get k' (map_delete k m) = map_get k' m.
Proof.
  intros Hne. unfold map_delete. induction m as [|[k0 v0] m IH]; simpl; [reflexivity|].
  destruct (String.eqb k0 k) eqn:Hk; simpl.
  - apply String.eqb_eq in Hk as ->. now apply String.eqb_neq in Hne as ->.
  - now rewrite IH.
Qed.

Lemma map_get_None {V : Type} k (m : list (string * V)) :
  map_get k m = None <-> ~ In k (map fst m).
Proof.
  induction m as [|[k' v'] m IH]; simpl; [tauto|].
  destruct (String.eqb k' k) eqn:Hk.
  - apply String.eqb_eq in Hk. split; [discriminate|]. intros H. contradiction H. now left.
  - apply String.eqb_neq in Hk. rewrite IH. tauto.
Qed.

Lemma map_set_keys {V : Type} k (v : V) m :
  map fst (map_set k v m)
  = match map_get k m with
    | Some _ => map fst m
    | None => map fst m ++ [k]
    end.
Proof.
  induction m as [|[k' v'] m IH]; simpl; [reflexivity|].
  destruct (String.eqb k' k) eqn:Hk; simpl; [reflexivity|].
  rewrite IH. now destruct (map_get k m).
Qed.

Lemma map_delete_keys {V : Type} k (m : list (string * V)) :
  map fst (map_delete k m) = List.filter (fun k' => negb (String.eqb k' k)) (map fst m).
Proof.
  unfold map_delete. induction m as [|[k' v'] m IH]; simpl; [reflexivity|].
  destruct (String.eqb k' k); simpl; now rewrite IH.
Qed.

Lemma map_delete_length {V : Type} k (m : list (string * V)) :
  List.NoDup (map fst m) -> In k (map fst m) ->
  S (length (map_delete k m)) = length m.
Proof.
  unfold map_delete. induction m as [|[k' v'] m IH]; simpl; intros Hnd Hin; [contradiction|].
  inversion Hnd as [|? ? Hnew Hrest]; subst.
  destruct (String.eqb k' k) eqn:Hk; simpl.
  - apply String.eqb_eq in Hk as ->. f_equal.
    clear IH Hnd Hin Hrest. induction m as [|[k0 v0] m IH]; simpl; [reflexivity|].
    destruct (String.eqb k0 k) eqn:Hk0; simpl.
    + apply String.eqb_eq in Hk0 as ->. contradiction Hnew. now left.
    + f_equal. apply IH. intros Hin. apply Hnew. now right.
  - apply String.eqb_neq in Hk. f_equal. apply IH; [assumption|].
    destruct Hin as [Hin|Hin]; [contradiction|assumption].
Qed.

(** *** Store and get *)

(** X28.  A token stored for a session is what [getToken] returns for it,
    as long as the token is valid: the stored token with its cache key and
    the time of storing, and the entry then counts one hit.  Once the
    token has expired or has no uses left [getToken] returns nothing and the
    entry is gone from the cache and from [localStorage]. *)
Theorem stored_token_is_returned :
  forall cfg now now' sid tok st,
    let key := generateCacheKey cfg sid in
    let st1 := storeToken cfg now sid tok st in
    let out := getToken cfg now' sid st1 in
    (now' < expiresAt tok -> 0 < usesRemaining tok ->
     out.1 = Some {| stored := tok; cacheKey := key; retrievedAt := now |}
     /\ map_get key (cache out.2)
        = Some {| cached := {| stored := tok; cacheKey := key; retrievedAt := now |};
                  hitCount := 1; lastAccessed := now' |})
    /\ (expiresAt tok <= now' \/ usesRemaining tok <= 0 ->
        out.1 = None /\ map_get key (cache out.2) = None
        /\ (enablePersistence cfg = true -> persisted out.2 !! key = None)).
Proof.
  intros cfg now now' sid tok st key st1 out. subst out.
  assert (Hget : map_get key (cache st1)
                 = Some {| cached := {| stored := tok; cacheKey := key; retrievedAt := now |};
                           hitCount := 0; lastAccessed := now |})
    by apply map_get_set_eq.
  unfold getToken. fold key. rewrite Hget. cbn [cached stored hitCount].
  split.
  - intros Hexp Huses.
    assert (isTokenValid now' tok = true) as ->
        by (unfold isTokenValid; apply andb_true_iff; split; apply Z.ltb_lt; lia).
    cbn [fst snd cache]. split; [reflexivity|]. now rewrite map_get_set_eq.
  - intros Hbad.
    assert (isTokenValid now' tok = false) as ->.
    { unfold isTokenValid. apply andb_false_iff.
      destruct Hbad; [left|right]; apply Z.ltb_ge; lia. }
    unfold fromPersistence, forget. cbn [persisted cache].
    destruct (enablePersistence cfg); cbn [fst snd cache persisted].
    + rewrite lookup_delete_eq. cbn [fst snd cache persisted].
      split; [reflexivity|]. split; [apply map_get_delete_eq|].
      intros _. apply lookup_delete_eq.
    + split; [reflexivity|]. split; [apply map_get_delete_eq|discriminate].
Qed.

Lemma stored_token_is_returned_witness :
  (getToken tiny 59999 "a" (storeToken tiny 10 "a" (minute_token "auth_tokens/a") empty)).1
  = Some {| stored := minute_token "auth_tokens/a"; cacheKey := "t_a"; retrievedAt := 10 |}
  /\ (getToken tiny 60000 "a"
        (storeToken tiny 10 "a" (minute_token "auth_tokens/a") empty)).1 = None.
Proof.
  split.
  - destruct (stored_token_is_returned tiny 10 59999 "a" (minute_token "auth_tokens/a") empty)
      as [Hvalid _].
    destruct Hvalid as [Hout _]; [simpl; lia|simpl; lia|exact Hout].
  - destruct (stored_token_is_returned tiny 10 60000 "a" (minute_token "auth_tokens/a") empty)
      as [_ Hexpired].
    destruct Hexpired as [Hout _]; [left; simpl; lia|exact Hout].
Defined.

(** *** Capacity and eviction *)

Lemma append_nonempty (s t : string) : s <> ""%string -> (s ++ t)%string <> ""%string.
Proof. destruct s; [contradiction|discriminate]. Qed.

Lemma map_get_In {V : Type} k (e : V) m :
  List.NoDup (map fst m) -> In (k, e) m -> map_get k m = Some e.
Proof.
  induction m as [|[k' v'] m IH]; simpl; intros Hnd Hin; [contradiction|].
  inversion Hnd as [|? ? Hnew Hrest]; subst.
  destruct Hin as [[= -> ->]|Hin]; [now rewrite String.eqb_refl|].
  destruct (String.eqb k' k) eqn:Hk; [|now apply IH].
  apply String.eqb_eq in Hk as ->. contradiction Hnew.
  change k with (fst (k, e)). now apply in_map.
Qed.

Lemma map_get_Some_In {V : Type} k (e : V) m : map_get k m = Some e -> In (k, e) m.
Proof.
  induction m as [|[k' v'] m IH]; simpl; [discriminate|].
  destruct (String.eqb k' k) eqn:Hk; [|intros H; right; now apply IH].
  apply String.eqb_eq in Hk as ->. intros [= ->]. now left.
Qed.

Lemma map_set_length {V : Type} k (v : V) m :
  length (map_set k v m)
  = match map_get k m with
    | Some _ => length m
    | None => S (length m)
    end.
Proof.
  induction m as [|[k' v'] m IH]; simpl; [reflexivity|].
  destruct (String.eqb k' k); simpl; [reflexivity|].
  rewrite IH. now destruct (map_get k m).
Qed.

Lemma map_set_NoDup {V : Type} k (v : V) m :
  List.NoDup (map fst m) -> List.NoDup (map fst (map_set k v m)).
Proof.
  intros Hnd. rewrite map_set_keys.
  destruct (map_get k m) eqn:Hk; [exact Hnd|].
  apply map_get_None in Hk.
  apply List.NoDup_app; [exact Hnd|repeat constructor; intros []|].
  intros x Hx [<-|[]]. contradiction.
Qed.

Lemma oldest_some entries : forall b, exists r, oldest entries (Some b) = Some r.
Proof.
  induction entries as [|[key entry] rest IH]; intros [k0 t0]; simpl; [now eexists|].
  destruct (lastAccessed entry <? t0); apply IH.
Qed.

(** What the loop of [evictOldestEntry] finds: the first entry, in
    insertion order, among those accessed least recently. *)
Lemma oldest_spec entries : forall best k t,
  oldest entries best = Some (k, t) ->
  (best = Some (k, t) /\ Forall (fun kv => t <= lastAccessed kv.2) entries)
  \/ (exists e pre post,
        entries = pre ++ (k, e) :: post /\ lastAccessed e = t
        /\ (forall k0 t0, best = Some (k0, t0) -> t < t0)
        /\ Forall (fun kv => t < lastAccessed kv.2) pre
        /\ Forall (fun kv => t <= lastAccessed kv.2) post).
Proof.
  induction entries as [|[key entry] rest IH]; intros best k t; simpl.
  - intros ->. left. split; [reflexivity|constructor].
  - intros Hold. apply IH in Hold.
    destruct best as [[k0 t0]|].
    + destruct (lastAccessed entry <? t0) eqn:Hlt.
      * apply Z.ltb_lt in Hlt. right.
        destruct Hold as [[Heq Hrest]|(e & pre & post & Hsplit & Ht & Hbest & Hpre & Hpost)].
        -- inversion Heq; subst k t.
           exists entry, [], rest. split; [reflexivity|]. split; [reflexivity|].
           split; [intros ? ? Hb; inversion Hb; subst; exact Hlt|].
           split; [constructor|exact Hrest].
        -- specialize (Hbest key (lastAccessed entry) eq_refl). subst rest.
           exists e, ((key, entry) :: pre), post.
           split; [reflexivity|]. split; [exact Ht|].
           split; [intros ? ? Hb; inversion Hb; subst; lia|]. split; [|exact Hpost].
           constructor; [exact Hbest|exact Hpre].
      * apply Z.ltb_ge in Hlt.
        destruct Hold as [[Heq Hrest]|(e & pre & post & Hsplit & Ht & Hbest & Hpre & Hpost)].
        -- inversion Heq; subst k0 t0.
           left. split; [reflexivity|]. constructor; [exact Hlt|exact Hrest].
        -- specialize (Hbest k0 t0 eq_refl). subst rest. right.
           exists e, ((key, entry) :: pre), post.
           split; [reflexivity|]. split; [exact Ht|].
           split; [intros ? ? Hb; inversion Hb; subst; exact Hbest|]. split; [|exact Hpost].
           constructor; [simpl; lia|exact Hpre].
    + right.
      destruct Hold as [[Heq Hrest]|(e & pre & post & Hsplit & Ht & Hbest & Hpre & Hpost)].
      * inversion Heq; subst k t.
        exists entry, [], rest. split; [reflexivity|]. split; [reflexivity|].
        split; [discriminate|]. split; [constructor|exact Hrest].
      * specialize (Hbest key (lastAccessed entry) eq_refl). subst rest.
        exists e, ((key, entry) :: pre), post.
        split; [reflexivity|]. split; [exact Ht|].
        split; [discriminate|]. split; [|exact Hpost].
        constructor; [exact Hbest|exact Hpre].
Qed.

(** X29.  The cache never grows past [maxCacheSize], keeps one entry per
    key, and [storeToken] makes room by dropping the entry accessed least
    recently.  Below capacity a store touches no other key.  At capacity
    the entry evicted is the first, in insertion order, of those accessed
    least recently: every entry inserted before it was accessed later, and
    none was accessed earlier.  Every other key but the one stored keeps its
    entry, and this happens also when the key stored is already cached:
    unless it is itself the one evicted, the cache then ends one entry
    smaller. *)
Theorem full_cache_evicts_least_recent :
  forall cfg now sid tok st,
    1 <= maxCacheSize cfg ->
    storagePrefix cfg <> ""%string ->
    List.NoDup (keys st) ->
    Forall (fun k => k <> ""%string) (keys st) ->
    Z.of_nat (length (cache st)) <= maxCacheSize cfg ->
    let key := generateCacheKey cfg sid in
    let st' := storeToken cfg now sid tok st in
    (Z.of_nat (length (cache st')) <= maxCacheSize cfg
     /\ List.NoDup (keys st') /\ Forall (fun k => k <> ""%string) (keys st'))
    /\ (Z.of_nat (length (cache st)) < maxCacheSize cfg ->
        forall k, k <> key -> map_get k (cache st') = map_get k (cache st))
    /\ (Z.of_nat (length (cache st)) = maxCacheSize cfg ->
        exists victim e,
          map_get victim (cache st) = Some e
          /\ (exists before after,
                cache st = before ++ (victim, e) :: after
                /\ Forall (fun kv => lastAccessed e < lastAccessed kv.2) before
                /\ Forall (fun kv => lastAccessed e <= lastAccessed kv.2) after)
          /\ (forall k' e', In (k', e') (cache st) -> lastAccessed e <= lastAccessed e')
          /\ (victim <> key -> map_get victim (cache st') = None)
          /\ (forall k, k <> victim -> k <> key ->
                map_get k (cache st') = map_get k (cache st))
          /\ (victim <> key -> is_Some (map_get key (cache st)) ->
              S (length (cache st')) = length (cache st))).
Proof.
  intros cfg now sid tok st Hmax Hprefix Hnd Hkeys Hsize key st'.
  assert (Hkey : key <> ""%string) by now apply append_nonempty.
  assert (Hset : forall m entry,
            List.NoDup (map fst m) -> Forall (fun k => k <> ""%string) (map fst m) ->
            List.NoDup (map fst (map_set key entry m))
            /\ Forall (fun k => k <> ""%string)
                 (map fst (map_set key (entry : TokenCacheEntry) m))).
  { intros m entry Hm Hne. split; [now apply map_set_NoDup|].
    rewrite map_set_keys. destruct (map_get key m); [exact Hne|].
    apply Forall_app. split; [exact Hne|]. now constructor. }
  subst st'. unfold storeToken. fold key. unfold keys in *. cbn [cache].
  destruct (maxCacheSize cfg <=? Z.of_nat (length (cache st))) eqn:Hfull.
  - apply Z.leb_le in Hfull.
    assert (Hlen : Z.of_nat (length (cache st)) = maxCacheSize cfg) by lia.
    unfold evictOldestEntry.
    destruct (cache st) as [|[k0 e0] rest] eqn:Hcache; [simpl in Hlen; lia|].
    rewrite <- Hcache in *.
    destruct (oldest (cache st) None) as [[victim t]|] eqn:Hold;
      [|rewrite Hcache in Hold; simpl in Hold;
        destruct (oldest_some rest (k0, lastAccessed e0)) as [r Hr]; congruence].
    destruct (oldest_spec _ _ _ _ Hold)
      as [[[=] _]|(e & pre & post & Hsplit & Ht & _ & Hpre & Hpost)].
    subst t.
    assert (Hin : In (victim, e) (cache st))
      by (rewrite Hsplit; apply in_or_app; right; now left).
    assert (Hvictim : victim <> ""%string).
    { rewrite Forall_forall in Hkeys. apply Hkeys. apply list_elem_of_In.
      change victim with (fst (victim, e)). now apply in_map. }
    apply String.eqb_neq in Hvictim as Hnonempty. rewrite Hnonempty.
    unfold forget. cbn [cache].
    assert (Hdel : S (length (map_delete victim (cache st))) = length (cache st)).
    { apply map_delete_length; [exact Hnd|].
      change victim with (fst (victim, e)). now apply in_map. }
    assert (Hnd1 : List.NoDup (map fst (map_delete victim (cache st))))
      by (rewrite map_delete_keys; now apply List.NoDup_filter).
    assert (Hne1 : Forall (fun k => k <> ""%string)
                     (map fst (map_delete victim (cache st)))).
    { rewrite map_delete_keys. rewrite Forall_forall in *. intros k Hk.
      apply list_elem_of_In, filter_In in Hk as [Hk _].
      apply Hkeys. now apply list_elem_of_In. }
    split; [split|split].
    + rewrite map_set_length.
      destruct (map_get key (map_delete victim (cache st))); lia.
    + now apply Hset.
    + intros Hlt. lia.
    + intros _. exists victim, e.
      split; [now apply map_get_In|].
      split; [exists pre, post; now repeat split|].
      split; [|split; [|split]].
      * intros k' e' Hk'. rewrite Hsplit in Hk'.
        apply in_app_or in Hk' as [Hk'|[[= <- <-]|Hk']]; [|lia|].
        -- rewrite Forall_forall in Hpre.
           specialize (Hpre (k', e') (proj2 (list_elem_of_In _ _) Hk')). simpl in Hpre. lia.
        -- rewrite Forall_forall in Hpost.
           now specialize (Hpost (k', e') (proj2 (list_elem_of_In _ _) Hk')).
      * intros Hvk. rewrite map_get_set_ne by congruence. apply map_get_delete_eq.
      * intros k Hkv Hkk. rewrite map_get_set_ne by congruence.
        now apply map_get_delete_ne.
      * intros Hvk [e1 He1]. rewrite map_set_length.
        rewrite map_get_delete_ne by assumption. now rewrite He1.
  - apply Z.leb_gt in Hfull. split; [split|split].
    + rewrite map_set_length. destruct (map_get key (cache st)); lia.
    + now apply Hset.
    + intros _ k Hk. now apply map_get_set_ne.
    + intros Hlen. lia.
Qed.

Lemma full_cache_evicts_least_recent_witness :
  map_get "t_a" (cache (storeToken tiny 30 "b" (minute_token "auth_tokens/c") two_cached))
  = None
  /\ length (cache (storeToken tiny 30 "b" (minute_token "auth_tokens/c") two_cached))
     = 1%nat.
Proof.
  destruct (full_cache_evicts_least_recent tiny 30 "b" (minute_token "auth_tokens/c")
              two_cached) as (_ & _ & Hfull).
  - simpl. lia.
  - discriminate.
  - vm_compute. constructor; [intros [H|[]]; discriminate H|].
    constructor; [intros []|constructor].
  - vm_compute. repeat constructor; discriminate.
  - vm_compute. discriminate.
  - destruct Hfull as (victim & e & _ & _ & _ & _ & _ & _); [reflexivity|].
    split; vm_compute; reflexivity.
Defined.

(** *** [checkRateLimit] *)

Lemma window_counts cfg k times : forall st e,
  rateLimits st !! k = Some e ->
  Forall (fun t => t - windowStart e < rateLimitWindow cfg * 60 * 1000) times ->
  forall (i : nat) r,
    (checkAll cfg k times st).1 !! i = Some r ->
    allowed r = bool_decide (count e + Z.of_nat i < rateLimitMax cfg)
    /\ remaining r = (if allowed r then rateLimitMax cfg - (count e + Z.of_nat i + 1) else 0)
    /\ resetTime r = windowStart e + rateLimitWindow cfg * 60 * 1000.
Proof.
  induction times as [|t times IH]; intros st e He Hall i r Hr;
    [destruct i; discriminate|].
  inversion Hall as [|? ? Ht Hrest]; subst. cbn [checkAll] in Hr.
  unfold checkRateLimit in Hr. rewrite He in Hr.
  assert ((rateLimitWindow cfg * 60 * 1000 <=? t - windowStart e) = false) as Hin
      by (apply Z.leb_gt; lia).
  rewrite Hin in Hr.
  destruct (rateLimitMax cfg <=? count e) eqn:Hfull.
  - apply Z.leb_le in Hfull.
    set (e1 := {| count := count e; windowStart := windowStart e; blocked := true |}) in *.
    pose proof (IH (setRateLimit k e1 st) e1 (lookup_insert_eq _ _ _) Hrest) as IH1.
    destruct (checkAll cfg k times (setRateLimit k e1 st)) as [rs st2].
    destruct i as [|i]; cbn [lookup list_lookup fst] in Hr.
    + inversion Hr; subst r; cbn [allowed remaining resetTime].
      rewrite bool_decide_eq_false_2 by lia. now repeat split.
    + destruct (IH1 i r Hr) as (Ha & Hrem & Hreset). cbn [count windowStart e1] in *.
      assert (allowed r = false) as Hno
          by (rewrite Ha; apply bool_decide_eq_false_2; lia).
      rewrite Hno in *. rewrite bool_decide_eq_false_2 by lia. now repeat split.
  - apply Z.leb_gt in Hfull.
    set (e1 := {| count := count e + 1; windowStart := windowStart e;
                  blocked := blocked e |}) in *.
    pose proof (IH (setRateLimit k e1 st) e1 (lookup_insert_eq _ _ _) Hrest) as IH1.
    destruct (checkAll cfg k times (setRateLimit k e1 st)) as [rs st2].
    destruct i as [|i]; cbn [lookup list_lookup fst] in Hr.
    + inversion Hr; subst r; cbn [allowed remaining resetTime].
      rewrite bool_decide_eq_true_2 by lia. rewrite Z.add_0_r. now repeat split.
    + destruct (IH1 i r Hr) as (Ha & Hrem & Hreset). cbn [count windowStart e1] in *.
      split; [rewrite Ha; apply bool_decide_ext; lia|].
      split; [|exact Hreset].
      rewrite Hrem. destruct (allowed r); lia.
Qed.

(** X30.  The rate limit of the storage, whatever [rateLimitMax] is: when
    a call opens a window for a client and further calls of the client
    fall inside it, the first call is always allowed, a later call, number
    [i] counting from 0, is allowed exactly when [i < rateLimitMax], an
    allowed call
    reports [remaining = rateLimitMax - (i + 1)] (which is negative for the
    first call when [rateLimitMax] is zero) and a refused one 0, and every
    call reports the end of that window as [resetTime]. *)
Theorem storage_limit_counts_from_the_window :
  forall cfg k st t0 times,
    opens_window cfg k st t0 ->
    Forall (fun t => t - t0 < rateLimitWindow cfg * 60 * 1000) times ->
    forall (i : nat) r,
      (checkAll cfg k (t0 :: times) st).1 !! i = Some r ->
      allowed r = bool_decide (i = 0%nat \/ Z.of_nat i < rateLimitMax cfg)
      /\ remaining r = (if allowed r then rateLimitMax cfg - (Z.of_nat i + 1) else 0)
      /\ resetTime r = t0 + rateLimitWindow cfg * 60 * 1000.
Proof.
  intros cfg k st t0 times Hopen Hin i r Hr. cbn [checkAll] in Hr.
  set (e1 := {| count := 1; windowStart := t0; blocked := false |}).
  assert (Hfirst : checkRateLimit cfg t0 k st
                   = ({| allowed := true; remaining := rateLimitMax cfg - 1;
                         resetTime := t0 + rateLimitWindow cfg * 60 * 1000 |},
                      setRateLimit k e1 st)).
  { unfold checkRateLimit, opens_window in *.
    destruct (rateLimits st !! k) as [e|]; [|reflexivity].
    now assert ((rateLimitWindow cfg * 60 * 1000 <=? t0 - windowStart e) = true) as ->
        by (apply Z.leb_le; lia). }
  rewrite Hfirst in Hr.
  pose proof (window_counts cfg k times (setRateLimit k e1 st) e1
                (lookup_insert_eq _ _ _) Hin) as Hrest.
  destruct (checkAll cfg k times (setRateLimit k e1 st)) as [rs st2].
  destruct i as [|i]; cbn [lookup list_lookup fst] in Hr.
  - inversion Hr; subst r; cbn [allowed remaining resetTime].
    rewrite bool_decide_eq_true_2 by now left. now repeat split.
  - destruct (Hrest i r Hr) as (Ha & Hrem & Hreset). cbn [count windowStart e1] in *.
    split; [rewrite Ha; apply bool_decide_ext; lia|].
    split; [|exact Hreset].
    rewrite Hrem. destruct (allowed r); lia.
Qed.

Lemma storage_limit_counts_from_the_window_witness :
  (checkAll tiny "default" [0; 1; 2] empty).1 !! 2%nat
  = Some {| allowed := false; remaining := 0; resetTime := 3600000 |}.
Proof.
  destruct ((checkAll tiny "default" [0; 1; 2] empty).1 !! 2%nat) as [r|] eqn:Hr;
    [|vm_compute in Hr; discriminate].
  assert (Hinside : Forall (fun t => t - 0 < rateLimitWindow tiny * 60 * 1000) [1; 2])
    by (repeat (apply Forall_cons; split; [simpl; lia|]); apply Forall_nil_2).
  destruct (storage_limit_counts_from_the_window tiny "default" empty 0 [1; 2] I Hinside
              2%nat r Hr) as (Ha & Hrem & Hreset).
  destruct r as [a rem reset]. cbn [allowed remaining resetTime] in *.
  rewrite bool_decide_eq_false_2 in Ha by (simpl; lia). subst a. subst rem reset.
  reflexivity.
Defined.

End CacheCoverage.
